(** * cherryjs spatial/quadtree.js: the quad tree's item bookkeeping

    A shallow embedding of [QuadTree] (src/spatial/quadtree.js): the ordered
    draw list, the update queue and the selection cursor, together with the
    collaborators the class calls into ([List], [QuadTreeNode],
    [QuadTreeItem], [Rect]).

    Conventions of the embedding:
    - JavaScript numbers are modelled as [Z]; coordinates are taken to be
      integral, so comparisons are exact.  The sums the comparators form
      are rounded as sums of doubles are ([Number.add]).
    - Items are caller-owned objects that the tree only references.  They
      live in a heap [gmap ItemId QuadTreeItem.t]; the tree's lists hold
      item identifiers, so a flag written through one reference is seen
      through all of them.
    - A [List] is modelled by the sequence of its values, a [Linkable] of
      the list by its position in that sequence. *)

From Stdlib Require Import ZArith Lia Bool String.
From stdpp Require Import base numbers list sorting gmap.

Set Warnings "-clear-no-such-hyp".

Abbreviation ItemId := nat (only parsing).

(* ================================================================== *)
(** ** Numbers *)

Module Number.

(** The double nearest to the integer [s]: integers below [2^53] in size
    are doubles; a larger one keeps its 53 leading bits, rounded to the
    nearest, a tie going to the even neighbour.  Past the largest double
    the result is an infinity, which [2^1024] stands for: it compares
    above every double and equal to itself. *)
Definition roundToDouble (s : Z) : Z :=
  let m := Z.abs s in
  let e := (Z.log2 m - 52)%Z in
  if (e <=? 0)%Z then s
  else
    let ulp := (2 ^ e)%Z in
    let q := (m / ulp)%Z in
    let r := (m mod ulp)%Z in
    let half := (ulp / 2)%Z in
    let q' := if (r <? half)%Z then q
              else if (half <? r)%Z then (q + 1)%Z
              else if Z.even q then q else (q + 1)%Z in
    let v := (q' * ulp)%Z in
    (Z.sgn s * (if (2 ^ 1024 <=? v)%Z then 2 ^ 1024 else v))%Z.

(** [x + y] on numbers. *)
Definition add (x y : Z) : Z := roundToDouble (x + y).

End Number.

(* ================================================================== *)
(** ** Rect *)

Module Rect.

Record t := mk { x1 : Z; y1 : Z; x2 : Z; y2 : Z; cx : Z; cy : Z }.

(** Modelled from the spec: math/rect.js is not among the sources.  A
    rectangle is built from its corners, the centre being the midpoint. *)
Definition make (ax1 ay1 ax2 ay2 : Z) : t :=
  mk ax1 ay1 ax2 ay2 ((ax1 + ax2) / 2)%Z ((ay1 + ay2) / 2)%Z.

(** Modelled from the spec: math/rect.js is not among the sources.
    [contains r s] is "the bounds [s] are fully contained in [r]". *)
Definition contains (r s : t) : bool :=
  (x1 r <=? x1 s)%Z && (y1 r <=? y1 s)%Z &&
  (x2 s <=? x2 r)%Z && (y2 s <=? y2 r)%Z.

(** Modelled from the spec: math/rect.js is not among the sources.
    [intersects r s] is "the bounds [r] intersect [s]" (closed boxes). *)
Definition intersects (r s : t) : bool :=
  (x1 r <=? x2 s)%Z && (x1 s <=? x2 r)%Z &&
  (y1 r <=? y2 s)%Z && (y1 s <=? y2 r)%Z.

End Rect.

(* ================================================================== *)
(** ** QuadTreeItem *)

Module QuadTreeItem.

(** Modelled from the spec: spatial/quadtree-item.js is not among the
    sources.  The flag constants are three distinct bits of [flags]. *)
Definition FLAG_ATTACHED : Z := 1.
Definition FLAG_SELECTED : Z := 2.
Definition FLAG_QUEUED : Z := 4.

(** The fields of an item that quadtree.js reads or writes. *)
Record t := mk {
  bounds : Rect.t;
  insertionBounds : Rect.t;
  zindex : Z;
  flags : Z;
  selectedIndex : Z
}.

Definition blank : t :=
  mk (Rect.mk 0 0 0 0 0 0) (Rect.mk 0 0 0 0 0 0) 0 0 0.

#[global] Instance inhabited : Inhabited t := populate blank.

(** [flags & F] as a truth value. *)
Definition hasFlag (it : t) (F : Z) : bool := negb (Z.land (flags it) F =? 0)%Z.

(** [flags |= F] *)
Definition setFlag (it : t) (F : Z) : t :=
  mk (bounds it) (insertionBounds it) (zindex it) (Z.lor (flags it) F) (selectedIndex it).

(** [flags &= ~F] *)
Definition clearFlag (it : t) (F : Z) : t :=
  mk (bounds it) (insertionBounds it) (zindex it)
     (Z.land (flags it) (Z.lnot F)) (selectedIndex it).

Definition setSelectedIndex (it : t) (n : Z) : t :=
  mk (bounds it) (insertionBounds it) (zindex it) (flags it) n.

Definition setInsertionBounds (it : t) (r : Rect.t) : t :=
  mk (bounds it) r (zindex it) (flags it) (selectedIndex it).

End QuadTreeItem.

Abbreviation Heap := (gmap nat QuadTreeItem.t) (only parsing).

(* ================================================================== *)
(** ** List and Linkable *)

Module LList.
Section Ops.
Context {A : Type} `{EqDecision A}.

(** Modelled from the spec: utils/list.js is not among the sources.
    [push] appends at the bottom (its callers read the pushed node back
    as [bottom]). *)
Definition push (l : list A) (v : A) : list A := l ++ [v].

(** Modelled from the spec: utils/list.js is not among the sources.  The
    spec has the update queue drained first-in first-out, so [pop] takes
    the oldest value, the one at the top; it answers null on an empty
    list. *)
Definition pop (l : list A) : option (A * list A) :=
  match l with
  | [] => None
  | v :: rest => Some (v, rest)
  end.

(** Modelled from the spec: utils/list.js is not among the sources.
    [top] is the first node, null when the list is empty. *)
Definition top (l : list A) : option nat :=
  match l with [] => None | _ :: _ => Some 0 end.

(** Modelled from the spec: utils/list.js is not among the sources.
    [bottom] is the last node, null when the list is empty. *)
Definition bottom (l : list A) : option nat :=
  match l with [] => None | _ :: _ => Some (length l - 1) end.

(** Modelled from the spec: utils/linkable.js is not among the sources.
    [node.next] is the node below, null at the bottom. *)
Definition next (l : list A) (i : nat) : option nat :=
  if S i <? length l then Some (S i) else None.

(** Modelled from the spec: utils/linkable.js is not among the sources.
    [node.prev] is the node above, null at the top. *)
Definition prev (l : list A) (i : nat) : option nat :=
  match i with 0 => None | S j => Some j end.

(** Modelled from the spec: utils/list.js is not among the sources.
    [insertBefore ref v] links a new node holding [v] just before the
    node [ref]. *)
Definition insertBefore (l : list A) (ref : nat) (v : A) : list A :=
  take ref l ++ v :: drop ref l.

(** Modelled from the spec: utils/list.js is not among the sources.
    [sgetNode v] is the node holding the value [v], null if there is
    none. *)
Fixpoint sgetNode (l : list A) (v : A) : option nat :=
  match l with
  | [] => None
  | w :: rest => if decide (w = v) then Some 0 else S <$> sgetNode rest v
  end.

(** Modelled from the spec: utils/list.js is not among the sources.
    [remove node] unlinks the node; a null node is ignored. *)
Definition remove (l : list A) (node : option nat) : list A :=
  match node with
  | None => l
  | Some i => delete i l
  end.

End Ops.
End LList.

(* ================================================================== *)
(** ** QuadTreeNode *)

Inductive QuadTreeNode :=
  | Leaf (extents : Rect.t) (owned : list ItemId)
  | Split (extents : Rect.t) (owned : list ItemId) (n0 n1 n2 n3 : QuadTreeNode).

Module Node.

(** Modelled from the spec: spatial/quadtree-node.js is not among the
    sources.  [getExtents] is the node's bounds. *)
Definition getExtents (n : QuadTreeNode) : Rect.t :=
  match n with Leaf e _ => e | Split e _ _ _ _ _ => e end.

(** Every item linked below a node, own items first. *)
Fixpoint allItems (n : QuadTreeNode) : list ItemId :=
  match n with
  | Leaf _ its => its
  | Split _ its a b c d => its ++ allItems a ++ allItems b ++ allItems c ++ allItems d
  end.

(** Modelled from the spec: spatial/quadtree-node.js is not among the
    sources.  Subdivision creates four equal children splitting the bounds
    at the midpoint. *)
Definition subdivide (e : Rect.t) : QuadTreeNode :=
  let mx := Rect.cx e in
  let my := Rect.cy e in
  Split e []
    (Leaf (Rect.make (Rect.x1 e) (Rect.y1 e) mx my) [])
    (Leaf (Rect.make mx (Rect.y1 e) (Rect.x2 e) my) [])
    (Leaf (Rect.make (Rect.x1 e) my mx (Rect.y2 e)) [])
    (Leaf (Rect.make mx my (Rect.x2 e) (Rect.y2 e)) []).

(** Modelled from the spec: spatial/quadtree-node.js is not among the
    sources.  The item is appended to the node's own items. *)
Definition attachHere (n : QuadTreeNode) (id : ItemId) : QuadTreeNode :=
  match n with
  | Leaf e its => Leaf e (its ++ [id])
  | Split e its a b c d => Split e (its ++ [id]) a b c d
  end.

(** Modelled from the spec: spatial/quadtree-node.js is not among the
    sources.  Placing an item at an internal node: it goes to the first
    child whose [insert] accepts it, and an item that fits no single child
    stays at this node.  [ins] is the children's [insert]. *)
Definition place (ins : QuadTreeNode → ItemId → option QuadTreeNode)
    (m : QuadTreeNode) (i : ItemId) : QuadTreeNode :=
  match m with
  | Leaf _ _ => attachHere m i
  | Split e its a b c d =>
      match ins a i with
      | Some a' => Split e its a' b c d
      | None =>
      match ins b i with
      | Some b' => Split e its a b' c d
      | None =>
      match ins c i with
      | Some c' => Split e its a b c' d
      | None =>
      match ins d i with
      | Some d' => Split e its a b c d'
      | None => attachHere m i
      end end end end
  end.

(** Modelled from the spec: spatial/quadtree-node.js is not among the
    sources.  [insert(item, capacity)]: fails when the item's bounds are not
    fully contained in the node's bounds; a leaf below capacity appends; a
    leaf at capacity subdivides and redistributes its items plus the new
    one into whichever child fully contains each; an internal node places
    the item likewise.  [depth] bounds the recursion: a node that deep
    keeps the item itself. *)
Fixpoint addItem (depth : nat) (h : Heap) (capacity : nat)
    (n : QuadTreeNode) (id : ItemId) {struct depth} : option QuadTreeNode :=
  if Rect.contains (getExtents n) (QuadTreeItem.bounds (h !!! id)) then
    match depth with
    | 0 => Some (attachHere n id)
    | S d =>
        match n with
        | Leaf e its =>
            if length its <? capacity then Some (attachHere n id)
            else Some (foldl (place (addItem d h capacity)) (subdivide e) (its ++ [id]))
        | Split _ _ _ _ _ _ => Some (place (addItem d h capacity) n id)
        end
    end
  else None.

(** Unlinking one occurrence of an item from a node's own items. *)
Fixpoint removeFirst (id : ItemId) (l : list ItemId) : option (list ItemId) :=
  match l with
  | [] => None
  | x :: rest =>
      if decide (x = id) then Some rest else (x ::.) <$> removeFirst id rest
  end.

(** Modelled from the spec: spatial/quadtree-node.js is not among the
    sources.  [remove(item)] unlinks the item from the node that holds it
    and reports whether there was one; children are never merged back.
    The item's back-reference to its node is replaced by a search. *)
Fixpoint removeItem (n : QuadTreeNode) (id : ItemId) : option QuadTreeNode :=
  match n with
  | Leaf e its => Leaf e <$> removeFirst id its
  | Split e its a b c d =>
      match removeFirst id its with
      | Some its' => Some (Split e its' a b c d)
      | None =>
      match removeItem a id with
      | Some a' => Some (Split e its a' b c d)
      | None =>
      match removeItem b id with
      | Some b' => Some (Split e its a b' c d)
      | None =>
      match removeItem c id with
      | Some c' => Some (Split e its a b c' d)
      | None =>
      match removeItem d id with
      | Some d' => Some (Split e its a b c d')
      | None => None
      end end end end end
  end.

(** Modelled from the spec: spatial/quadtree-node.js is not among the
    sources.  Bounds are in the region when they intersect [rect]; a null
    [rect] selects everything. *)
Definition inRegion (rect : option Rect.t) (r : Rect.t) : bool :=
  match rect with
  | None => true
  | Some q => Rect.intersects r q
  end.

(** Modelled from the spec: spatial/quadtree-node.js is not among the
    sources.  An item passes when [filter(item)] is true or no filter is
    given; the filter sees the item, its identity included. *)
Definition passes (fn : option (ItemId → QuadTreeItem.t → bool))
    (id : ItemId) (it : QuadTreeItem.t) : bool :=
  match fn with
  | None => true
  | Some f => f id it
  end.

(** Modelled from the spec: spatial/quadtree-node.js is not among the
    sources.  One owned item of a node during a selection: marked SELECTED
    and counted when its bounds intersect the region and the filter accepts
    it.  The accumulator is the heap and the tree's [selectedCount]. *)
Definition selectOne (rect : option Rect.t)
    (fn : option (ItemId → QuadTreeItem.t → bool))
    (acc : Heap * Z) (id : ItemId) : Heap * Z :=
  let it := acc.1 !!! id in
  if inRegion rect (QuadTreeItem.bounds it) && passes fn id it
  then (<[id := QuadTreeItem.setFlag it QuadTreeItem.FLAG_SELECTED]> acc.1,
        (acc.2 + 1)%Z)
  else acc.

(** Modelled from the spec: spatial/quadtree-node.js is not among the
    sources.  [selectInRegion(rect, filter)] visits the node's own items
    and then only the children whose bounds intersect [rect] (all of them
    when [rect] is null). *)
Fixpoint selectItems (rect : option Rect.t)
    (fn : option (ItemId → QuadTreeItem.t → bool))
    (n : QuadTreeNode) (acc : Heap * Z) : Heap * Z :=
  match n with
  | Leaf _ its => foldl (selectOne rect fn) acc its
  | Split _ its a b c d =>
      let visit (m : QuadTreeNode) (acc : Heap * Z) :=
        if inRegion rect (getExtents m) then selectItems rect fn m acc else acc in
      visit d (visit c (visit b (visit a (foldl (selectOne rect fn) acc its))))
  end.

End Node.

(* ================================================================== *)
(** ** QuadTree *)

(** What [fnComparator] may hold: one of the seven comparators the class
    supplies, or a function of the caller's own, which [U] names. *)
Inductive Comparator (U : Type) :=
  | DEFAULT_YX | DEFAULT_XY | MANHATTAN | Y2 | Y1 | X2 | X1
  | USER (u : U).

Arguments DEFAULT_YX {U}.
Arguments DEFAULT_XY {U}.
Arguments MANHATTAN {U}.
Arguments Y2 {U}.
Arguments Y1 {U}.
Arguments X2 {U}.
Arguments X1 {U}.
Arguments USER {U} u.

(** The functions of its own that a program hands to [setComparator]:
    [==] tells two of them apart, and calling one returns a truth value
    that depends on the direction flags [this.xd], [this.yd], [this.zd]
    and on the arguments [a], [b], [p], [q], as it does for the supplied
    comparators. *)
Class UserComparators (U : Type) := {
  userComparator_eq :: EqDecision U;
  userComparator : U → bool → bool → bool →
                   Rect.t → Rect.t → QuadTreeItem.t → QuadTreeItem.t → bool
}.

(** A program that hands over no function of its own. *)
#[global] Instance noUserComparators : UserComparators Empty_set :=
  {| userComparator (u : Empty_set) := match u with end |}.

#[global] Instance Comparator_eq_dec {U : Type} `{EqDecision U} :
  EqDecision (Comparator U).
Proof. solve_decision. Defined.

(** What an operation that may throw did. *)
Inductive Completion :=
  | Returned
  | Thrown (message : string).

Record QuadTreeOf (U : Type) := mkQuadTree {
  root : QuadTreeNode;
  items : list ItemId;
  orderedItems : list ItemId;
  updateQueue : list ItemId;
  nodeCapacity : nat;
  nextItem : option nat;
  selectedCount : Z;
  selectedIndex : Z;
  isReverse : bool;
  visible : bool;
  xd : bool;
  yd : bool;
  zd : bool;
  fnComparator : Comparator U;
  (** the item objects the tree refers to *)
  heap : Heap;
  (** recursion bound of [Node.addItem] *)
  depthBound : nat
}.

Arguments mkQuadTree {U}.
Arguments root {U}.
Arguments items {U}.
Arguments orderedItems {U}.
Arguments updateQueue {U}.
Arguments nodeCapacity {U}.
Arguments nextItem {U}.
Arguments selectedCount {U}.
Arguments selectedIndex {U}.
Arguments isReverse {U}.
Arguments visible {U}.
Arguments xd {U}.
Arguments yd {U}.
Arguments zd {U}.
Arguments fnComparator {U}.
Arguments heap {U}.
Arguments depthBound {U}.

Section Tree.
Context {U : Type} `{UserComparators U}.

Definition set_root (t : QuadTreeOf U) (v : QuadTreeNode) : QuadTreeOf U :=
  mkQuadTree v (items t) (orderedItems t) (updateQueue t) (nodeCapacity t)
    (nextItem t) (selectedCount t) (selectedIndex t) (isReverse t) (visible t)
    (xd t) (yd t) (zd t) (fnComparator t) (heap t) (depthBound t).

Definition set_items (t : QuadTreeOf U) (v : list ItemId) : QuadTreeOf U :=
  mkQuadTree (root t) v (orderedItems t) (updateQueue t) (nodeCapacity t)
    (nextItem t) (selectedCount t) (selectedIndex t) (isReverse t) (visible t)
    (xd t) (yd t) (zd t) (fnComparator t) (heap t) (depthBound t).

Definition set_orderedItems (t : QuadTreeOf U) (v : list ItemId) : QuadTreeOf U :=
  mkQuadTree (root t) (items t) v (updateQueue t) (nodeCapacity t)
    (nextItem t) (selectedCount t) (selectedIndex t) (isReverse t) (visible t)
    (xd t) (yd t) (zd t) (fnComparator t) (heap t) (depthBound t).

Definition set_updateQueue (t : QuadTreeOf U) (v : list ItemId) : QuadTreeOf U :=
  mkQuadTree (root t) (items t) (orderedItems t) v (nodeCapacity t)
    (nextItem t) (selectedCount t) (selectedIndex t) (isReverse t) (visible t)
    (xd t) (yd t) (zd t) (fnComparator t) (heap t) (depthBound t).

Definition set_nextItem (t : QuadTreeOf U) (v : option nat) : QuadTreeOf U :=
  mkQuadTree (root t) (items t) (orderedItems t) (updateQueue t) (nodeCapacity t)
    v (selectedCount t) (selectedIndex t) (isReverse t) (visible t)
    (xd t) (yd t) (zd t) (fnComparator t) (heap t) (depthBound t).

Definition set_selectedCount (t : QuadTreeOf U) (v : Z) : QuadTreeOf U :=
  mkQuadTree (root t) (items t) (orderedItems t) (updateQueue t) (nodeCapacity t)
    (nextItem t) v (selectedIndex t) (isReverse t) (visible t)
    (xd t) (yd t) (zd t) (fnComparator t) (heap t) (depthBound t).

Definition set_selectedIndex (t : QuadTreeOf U) (v : Z) : QuadTreeOf U :=
  mkQuadTree (root t) (items t) (orderedItems t) (updateQueue t) (nodeCapacity t)
    (nextItem t) (selectedCount t) v (isReverse t) (visible t)
    (xd t) (yd t) (zd t) (fnComparator t) (heap t) (depthBound t).

Definition set_isReverse (t : QuadTreeOf U) (v : bool) : QuadTreeOf U :=
  mkQuadTree (root t) (items t) (orderedItems t) (updateQueue t) (nodeCapacity t)
    (nextItem t) (selectedCount t) (selectedIndex t) v (visible t)
    (xd t) (yd t) (zd t) (fnComparator t) (heap t) (depthBound t).

Definition set_xd (t : QuadTreeOf U) (v : bool) : QuadTreeOf U :=
  mkQuadTree (root t) (items t) (orderedItems t) (updateQueue t) (nodeCapacity t)
    (nextItem t) (selectedCount t) (selectedIndex t) (isReverse t) (visible t)
    v (yd t) (zd t) (fnComparator t) (heap t) (depthBound t).

Definition set_yd (t : QuadTreeOf U) (v : bool) : QuadTreeOf U :=
  mkQuadTree (root t) (items t) (orderedItems t) (updateQueue t) (nodeCapacity t)
    (nextItem t) (selectedCount t) (selectedIndex t) (isReverse t) (visible t)
    (xd t) v (zd t) (fnComparator t) (heap t) (depthBound t).

Definition set_zd (t : QuadTreeOf U) (v : bool) : QuadTreeOf U :=
  mkQuadTree (root t) (items t) (orderedItems t) (updateQueue t) (nodeCapacity t)
    (nextItem t) (selectedCount t) (selectedIndex t) (isReverse t) (visible t)
    (xd t) (yd t) v (fnComparator t) (heap t) (depthBound t).

Definition set_fnComparator (t : QuadTreeOf U) (v : Comparator U) : QuadTreeOf U :=
  mkQuadTree (root t) (items t) (orderedItems t) (updateQueue t) (nodeCapacity t)
    (nextItem t) (selectedCount t) (selectedIndex t) (isReverse t) (visible t)
    (xd t) (yd t) (zd t) v (heap t) (depthBound t).

Definition set_heap (t : QuadTreeOf U) (v : Heap) : QuadTreeOf U :=
  mkQuadTree (root t) (items t) (orderedItems t) (updateQueue t) (nodeCapacity t)
    (nextItem t) (selectedCount t) (selectedIndex t) (isReverse t) (visible t)
    (xd t) (yd t) (zd t) (fnComparator t) v (depthBound t).

(** [__ctor]: a tree over the region, its three lists empty, ordering by
    [COMPARATOR_DEFAULT_YX].  [objs] are the item objects that exist. *)
Definition __ctor (ax1 ay1 ax2 ay2 : Z) (capacity : nat)
    (objs : Heap) (depth : nat) : QuadTreeOf U :=
  mkQuadTree (Leaf (Rect.make ax1 ay1 ax2 ay2) []) [] [] [] capacity
    None 0 0 false true false false false DEFAULT_YX objs depth.

(** *** Axis directions and comparator *)

Definition setXd (t : QuadTreeOf U) (value : bool) : QuadTreeOf U * bool :=
  if bool_decide (xd t = value) then (t, false) else (set_xd t value, true).

Definition setYd (t : QuadTreeOf U) (value : bool) : QuadTreeOf U * bool :=
  if bool_decide (yd t = value) then (t, false) else (set_yd t value, true).

Definition setZd (t : QuadTreeOf U) (value : bool) : QuadTreeOf U * bool :=
  if bool_decide (zd t = value) then (t, false) else (set_zd t value, true).

Definition setComparator (t : QuadTreeOf U) (fn : Comparator U) : QuadTreeOf U * bool :=
  if bool_decide (fnComparator t = fn) then (t, false)
  else (set_fnComparator t fn, true).

Definition setReverse (t : QuadTreeOf U) (value : bool) : QuadTreeOf U :=
  set_isReverse t value.

Section Comparators.
Local Open Scope Z_scope.
Import QuadTreeItem.

(** Each comparator reads the tree's direction flags ([this.xd] and so
    on), here its first argument, the two bounds [a], [b] and the two items
    [p], [q].  [^] on truth values is [xorb]; [+] is the sum of two
    doubles, [Number.add]. *)
Definition COMPARATOR_DEFAULT_YX (t : QuadTreeOf U) (a b : Rect.t) (p q : QuadTreeItem.t) : bool :=
  xorb (zindex p <? zindex q) (zd t)
  || ((zindex p =? zindex q)
      && (xorb (Rect.y1 a <? Rect.y1 b) (yd t)
          || ((Rect.y1 a =? Rect.y1 b) && xorb (Rect.x1 a <? Rect.x1 b) (xd t)))).

Definition COMPARATOR_DEFAULT_XY (t : QuadTreeOf U) (a b : Rect.t) (p q : QuadTreeItem.t) : bool :=
  xorb (zindex p <? zindex q) (zd t)
  || ((zindex p =? zindex q)
      && (xorb (Rect.x1 a <? Rect.x1 b) (xd t)
          || ((Rect.x1 a =? Rect.x1 b) && xorb (Rect.y1 a <? Rect.y1 b) (yd t)))).

Definition COMPARATOR_MANHATTAN (t : QuadTreeOf U) (a b : Rect.t) (p q : QuadTreeItem.t) : bool :=
  xorb (zindex p <? zindex q) (zd t)
  || ((zindex p =? zindex q)
      && (Number.add (Rect.cx a) (Rect.cy a) <? Number.add (Rect.cx b) (Rect.cy b))).

Definition COMPARATOR_Y2 (t : QuadTreeOf U) (a b : Rect.t) (p q : QuadTreeItem.t) : bool :=
  xorb (zindex p <? zindex q) (zd t)
  || ((zindex p =? zindex q)
      && (xorb (Rect.y2 a <? Rect.y2 b) (yd t)
          || ((Rect.y2 a =? Rect.y2 b) && xorb (Rect.x1 a <=? Rect.x1 b) (xd t)))).

Definition COMPARATOR_Y1 (t : QuadTreeOf U) (a b : Rect.t) (p q : QuadTreeItem.t) : bool :=
  xorb (Number.add (Rect.y1 a) (zindex p) <? Number.add (Rect.y1 b) (zindex q)) (yd t).

Definition COMPARATOR_X2 (t : QuadTreeOf U) (a b : Rect.t) (p q : QuadTreeItem.t) : bool :=
  xorb (Number.add (Rect.x2 a) (zindex p) <? Number.add (Rect.x2 b) (zindex q)) (xd t).

Definition COMPARATOR_X1 (t : QuadTreeOf U) (a b : Rect.t) (p q : QuadTreeItem.t) : bool :=
  xorb (Number.add (Rect.x1 a) (zindex p) <? Number.add (Rect.x1 b) (zindex q)) (xd t).

(** [this.fnComparator(a, b, p, q)] *)
Definition callComparator (t : QuadTreeOf U) (a b : Rect.t) (p q : QuadTreeItem.t) : bool :=
  match fnComparator t with
  | DEFAULT_YX => COMPARATOR_DEFAULT_YX t a b p q
  | DEFAULT_XY => COMPARATOR_DEFAULT_XY t a b p q
  | MANHATTAN => COMPARATOR_MANHATTAN t a b p q
  | Y2 => COMPARATOR_Y2 t a b p q
  | Y1 => COMPARATOR_Y1 t a b p q
  | X2 => COMPARATOR_X2 t a b p q
  | X1 => COMPARATOR_X1 t a b p q
  | USER u => userComparator u (xd t) (yd t) (zd t) a b p q
  end.

End Comparators.

(** [isBefore(p, q)] on the objects [p] and [q] name. *)
Definition isBefore (t : QuadTreeOf U) (p q : ItemId) : bool :=
  let P := heap t !!! p in
  let Q := heap t !!! q in
  callComparator t (QuadTreeItem.insertionBounds P) (QuadTreeItem.insertionBounds Q) P Q.

(** *** The ordered list *)

(** The scan of [addItemOrdered]: the first node, from the top, whose value
    the item is before. *)
Fixpoint firstAfter (t : QuadTreeOf U) (item : ItemId) (l : list ItemId) : option nat :=
  match l with
  | [] => None
  | v :: rest =>
      if isBefore t item v then Some 0 else S <$> firstAfter t item rest
  end.

Definition addItemOrdered (t : QuadTreeOf U) (item : ItemId) : QuadTreeOf U :=
  match firstAfter t item (orderedItems t) with
  | Some i => set_orderedItems t (LList.insertBefore (orderedItems t) i item)
  | None => set_orderedItems t (LList.push (orderedItems t) item)
  end.

Definition reorderItems (t : QuadTreeOf U) : QuadTreeOf U :=
  let tmp := orderedItems t in
  foldl addItemOrdered (set_orderedItems t []) tmp.

(** *** Attaching and detaching *)

(** Modelled from the spec: spatial/quadtree-node.js is not among the
    sources.  [root.addItem(item, capacity)] on the tree: on success the
    item is linked into a node and into [items], gets ATTACHED and records
    the bounds it was inserted with; on failure nothing is touched. *)
Definition root_addItem (t : QuadTreeOf U) (item : ItemId) : option (QuadTreeOf U) :=
  match Node.addItem (depthBound t) (heap t) (nodeCapacity t) (root t) item with
  | None => None
  | Some r =>
      let it := heap t !!! item in
      let it' := QuadTreeItem.setInsertionBounds
                   (QuadTreeItem.setFlag it QuadTreeItem.FLAG_ATTACHED)
                   (QuadTreeItem.bounds it) in
      Some (set_heap (set_items (set_root t r) (LList.push (items t) item))
                     (<[item := it']> (heap t)))
  end.

(** Modelled from the spec: spatial/quadtree-node.js is not among the
    sources.  [root.removeItem(item)] on the tree: the item is unlinked from
    its node and from [items] and loses ATTACHED; false when no node holds
    it. *)
Definition root_removeItem (t : QuadTreeOf U) (item : ItemId) : option (QuadTreeOf U) :=
  match Node.removeItem (root t) item with
  | None => None
  | Some r =>
      let it := heap t !!! item in
      Some (set_heap
              (set_items (set_root t r)
                 (LList.remove (items t) (LList.sgetNode (items t) item)))
              (<[item := QuadTreeItem.clearFlag it QuadTreeItem.FLAG_ATTACHED]> (heap t)))
  end.

Definition addItem (t : QuadTreeOf U) (item : ItemId) : QuadTreeOf U * bool :=
  match root_addItem t item with
  | Some t1 => (addItemOrdered t1 item, true)
  | None => (t, false)
  end.

Definition removeItem (t : QuadTreeOf U) (item : ItemId) : QuadTreeOf U * bool :=
  if negb (QuadTreeItem.hasFlag (heap t !!! item) QuadTreeItem.FLAG_ATTACHED)
  then (t, true)
  else
    match root_removeItem t item with
    | None => (t, false)
    | Some t1 =>
        (set_orderedItems t1
           (LList.remove (orderedItems t1) (LList.sgetNode (orderedItems t1) item)),
         true)
    end.

(** *** The update queue *)

Definition updateItem (t : QuadTreeOf U) (item : ItemId) : QuadTreeOf U * Completion :=
  let t1 := (removeItem t item).1 in
  let '(t2, ok) := addItem t1 item in
  if negb ok then (t2, Thrown "Unable to re-attach item to quadtree.")
  else if QuadTreeItem.hasFlag (heap t2 !!! item) QuadTreeItem.FLAG_QUEUED
  then (t2, Returned)
  else
    (set_heap (set_updateQueue t2 (LList.push (updateQueue t2) item))
       (<[item := QuadTreeItem.setFlag (heap t2 !!! item) QuadTreeItem.FLAG_QUEUED]>
          (heap t2)),
     Returned).

(** The loop of [update].  [notifyPosition] is the item's own callback; the
    tree's part of it is the call, recorded in [calls] in the order made.
    [fuel] bounds the iterations. *)
Fixpoint update_loop (fuel : nat) (t : QuadTreeOf U) (calls : list ItemId)
    : QuadTreeOf U * list ItemId :=
  match LList.pop (updateQueue t) with
  | None => (t, calls)
  | Some (i, rest) =>
      match fuel with
      | 0 => (t, calls)
      | S f =>
          let t1 := set_updateQueue t rest in
          let t2 := set_heap t1
                      (<[i := QuadTreeItem.clearFlag (heap t1 !!! i) QuadTreeItem.FLAG_QUEUED]>
                         (heap t1)) in
          update_loop f t2 (calls ++ [i])
      end
  end.

(** [update()]: one iteration per queued item suffices. *)
Definition update (t : QuadTreeOf U) : QuadTreeOf U * list ItemId :=
  update_loop (length (updateQueue t)) t [].

(** *** Selection *)

(** Modelled from the spec: spatial/quadtree-node.js is not among the
    sources.  [root.selectItems(rect, filter)] on the tree: the matching
    items get SELECTED and [selectedCount] counts them. *)
Definition root_selectItems (t : QuadTreeOf U) (rect : option Rect.t)
    (fn : option (ItemId → QuadTreeItem.t → bool)) : QuadTreeOf U :=
  let r := Node.selectItems rect fn (root t) (heap t, selectedCount t) in
  set_selectedCount (set_heap t r.1) r.2.

Definition selectItems (t : QuadTreeOf U) (rect : option Rect.t)
    (fn : option (ItemId → QuadTreeItem.t → bool)) (reverse : option bool)
    : QuadTreeOf U * Z :=
  let isReverse := match reverse with None => isReverse t | Some b => b end in
  let t1 := set_selectedIndex (set_selectedCount t 0) 0 in
  let t2 := root_selectItems t1 rect fn in
  let t3 := set_nextItem t2
              (if isReverse then LList.bottom (orderedItems t2)
               else LList.top (orderedItems t2)) in
  (t3, selectedCount t3).

Definition getCountSelected (t : QuadTreeOf U) : Z := selectedCount t.

(** The value of the node under the cursor, if the cursor is on a node. *)
Definition nodeValue (t : QuadTreeOf U) (cur : option nat) : option ItemId :=
  cur ≫= (orderedItems t !!.).

Definition advance (t : QuadTreeOf U) (isReverse : bool) (i : nat) : option nat :=
  if isReverse then LList.prev (orderedItems t) i else LList.next (orderedItems t) i.

(** The first loop of [getNextSelected]: move the cursor past the nodes
    whose item is not SELECTED.  [fuel] bounds the iterations. *)
Fixpoint skipUnselected (fuel : nat) (t : QuadTreeOf U) (isReverse : bool)
    (cur : option nat) : option nat :=
  match cur with
  | None => None
  | Some i =>
      match orderedItems t !! i with
      | None => None
      | Some v =>
          if QuadTreeItem.hasFlag (heap t !!! v) QuadTreeItem.FLAG_SELECTED then cur
          else
            match fuel with
            | 0 => cur
            | S f => skipUnselected f t isReverse (advance t isReverse i)
            end
      end
  end.

Definition getNextSelected (t : QuadTreeOf U) (reverse : option bool)
    : QuadTreeOf U * option ItemId :=
  let isReverse := match reverse with None => isReverse t | Some b => b end in
  let t1 := set_nextItem t
              (skipUnselected (length (orderedItems t)) t isReverse (nextItem t)) in
  match nextItem t1, nodeValue t1 (nextItem t1) with
  | Some i, Some v =>
      let t2 := set_heap t1
                  (<[v := QuadTreeItem.clearFlag (heap t1 !!! v) QuadTreeItem.FLAG_SELECTED]>
                     (heap t1)) in
      let t3 := set_nextItem t2 (advance t2 isReverse i) in
      let t4 := set_heap t3
                  (<[v := QuadTreeItem.setSelectedIndex (heap t3 !!! v) (selectedIndex t3)]>
                     (heap t3)) in
      let t5 := set_selectedIndex t4 (selectedIndex t4 + 1)%Z in
      let t6 := set_selectedCount t5 (selectedCount t5 - 1)%Z in
      (t6, Some v)
  | _, _ => (t1, None)
  end.

(** [releaseSelected()]: [None] when the loop is still running after [fuel]
    iterations. *)
Fixpoint releaseSelected (fuel : nat) (t : QuadTreeOf U) : option (QuadTreeOf U) :=
  if (0 <? selectedCount t)%Z then
    match fuel with
    | 0 => None
    | S f => releaseSelected f (getNextSelected t None).1
    end
  else Some t.

(** Draining a selection: [getNextSelected] until it answers null, the items
    in the order returned.  [None] when it has not answered null within
    [fuel] calls. *)
Fixpoint drainSelected (fuel : nat) (t : QuadTreeOf U) : option (QuadTreeOf U * list ItemId) :=
  match fuel with
  | 0 => None
  | S f =>
      match getNextSelected t None with
      | (t1, None) => Some (t1, [])
      | (t1, Some v) =>
          match drainSelected f t1 with
          | None => None
          | Some (t2, vs) => Some (t2, v :: vs)
          end
      end
  end.

(** *** Accessors *)

Definition getRoot (t : QuadTreeOf U) : QuadTreeNode := root t.

(** [getExtents()] hands on what the root node answers. *)
Definition getExtents (t : QuadTreeOf U) : Rect.t := Node.getExtents (root t).

Definition getXd (t : QuadTreeOf U) : bool := xd t.
Definition getYd (t : QuadTreeOf U) : bool := yd t.
Definition getZd (t : QuadTreeOf U) : bool := zd t.

Definition getItems (t : QuadTreeOf U) : list ItemId := orderedItems t.

(** *** Counting and collecting *)

(** [countItems(rect, filter)]: a selection that is released at once.
    [None] when [releaseSelected] is still running after [fuel]
    iterations. *)
Definition countItems (fuel : nat) (t : QuadTreeOf U) (rect : option Rect.t)
    (fn : option (ItemId → QuadTreeItem.t → bool)) : option (QuadTreeOf U * Z) :=
  let '(t1, count) := selectItems t rect fn None in
  match releaseSelected fuel t1 with
  | None => None
  | Some t2 => Some (t2, count)
  end.

(** The loop of [selectItemsIntoArray]: while [getCountSelected()] is not
    zero, push what [getNextSelected()] returns, null included.  [None] when
    the loop is still running after [fuel] iterations. *)
Fixpoint collectSelected (fuel : nat) (t : QuadTreeOf U) (arr : list (option ItemId))
    : option (QuadTreeOf U * list (option ItemId)) :=
  if (getCountSelected t =? 0)%Z then Some (t, arr)
  else
    match fuel with
    | 0 => None
    | S f =>
        let '(t1, v) := getNextSelected t None in
        collectSelected f t1 (arr ++ [v])
    end.

Definition selectItemsIntoArray (fuel : nat) (t : QuadTreeOf U) (rect : option Rect.t)
    (fn : option (ItemId → QuadTreeItem.t → bool))
    : option (QuadTreeOf U * list (option ItemId)) :=
  collectSelected fuel (selectItems t rect fn None).1 [].

End Tree.

(** The trees of a program that hands no function of its own to
    [setComparator]. *)
Abbreviation QuadTree := (QuadTreeOf Empty_set).

(* ================================================================== *)
(** * Specification vocabulary *)

(** ** Ordered insertion *)

Section InsertionSpec.
Variable cmp : ItemId → ItemId → bool.

(** Insertion before the first element the new one is before. *)
Fixpoint insertOrdered (x : ItemId) (l : list ItemId) : list ItemId :=
  match l with
  | [] => [x]
  | v :: rest => if cmp x v then x :: v :: rest else v :: insertOrdered x rest
  end.

Definition insertAll (acc l : list ItemId) : list ItemId :=
  foldl (λ acc x, insertOrdered x acc) acc l.

(** [a] may stand before [b]: [b] is not strictly before [a]. *)
Definition mayPrecede (a b : ItemId) : Prop :=
  cmp b a = true → cmp a b = true.

(** What insertion needs of the comparator: being strictly before
    composes with being before. *)
Definition composes : Prop :=
  ∀ a b c, cmp a b = true → cmp b a = false → cmp b c = true →
           cmp a c = true ∧ cmp c a = false.

End InsertionSpec.

(** The draw list is ordered by [isBefore]: no item stands before one it is
    strictly after. *)
Definition orderedBy (t : QuadTree) (l : list ItemId) : Prop :=
  ∀ i j a b, i < j → l !! i = Some a → l !! j = Some b →
             isBefore t b a = true → isBefore t a b = true.

(** The number a supplied comparator compares along Y, XOR'd with [yd]:
    [y1] or [y2] of the bounds the item was inserted with, for
    COMPARATOR_Y1 the sum [y1 + zindex]; the Manhattan comparator and the
    two X comparators have none. *)
Definition yKey (c : Comparator Empty_set) : option (QuadTreeItem.t → Z) :=
  match c with
  | DEFAULT_YX | DEFAULT_XY => Some (λ P, Rect.y1 (QuadTreeItem.insertionBounds P))
  | Y2 => Some (λ P, Rect.y2 (QuadTreeItem.insertionBounds P))
  | Y1 => Some (λ P, Number.add (Rect.y1 (QuadTreeItem.insertionBounds P))
                       (QuadTreeItem.zindex P))
  | MANHATTAN | X2 | X1 => None
  | USER u => match u with end
  end.

(** Two items tie on Z and X. *)
Definition tiesZX (P Q : QuadTreeItem.t) : Prop :=
  QuadTreeItem.zindex P = QuadTreeItem.zindex Q ∧
  Rect.x1 (QuadTreeItem.insertionBounds P) = Rect.x1 (QuadTreeItem.insertionBounds Q).

(** [a] comes before [b] on a walk of the list from the top. *)
Definition precedes (l : list ItemId) (a b : ItemId) : Prop :=
  ∃ i j, i < j ∧ l !! i = Some a ∧ l !! j = Some b.

(** Toggling [yd] and reordering an ordered draw list leaves [a] in front
    of [b], although the two tie on Z and X and differ in [y1]. *)
Definition staysInFront (t : QuadTree) (a b : ItemId) : Prop :=
  orderedBy t (orderedItems t) ∧
  precedes (orderedItems t) a b ∧
  tiesZX (heap t !!! a) (heap t !!! b) ∧
  Rect.y1 (QuadTreeItem.insertionBounds (heap t !!! a))
    ≠ Rect.y1 (QuadTreeItem.insertionBounds (heap t !!! b)) ∧
  ¬ precedes (orderedItems (reorderItems (setYd t (negb (yd t))).1)) b a.

(** ** Well-formed trees *)

(** Every item below a node lies inside the node's bounds, and so on for
    its children; [bnd] gives the items' bounds. *)
Fixpoint nodeOk (bnd : ItemId → Rect.t) (n : QuadTreeNode) : Prop :=
  (∀ id, id ∈ Node.allItems n → Rect.contains (Node.getExtents n) (bnd id) = true) ∧
  match n with
  | Leaf _ _ => True
  | Split _ _ a b c d => nodeOk bnd a ∧ nodeOk bnd b ∧ nodeOk bnd c ∧ nodeOk bnd d
  end.

(** The draw list, the list of inserted items and the node tree hold the
    same items, each once; ATTACHED marks exactly those; every item lies
    inside the bounds of the nodes above it. *)
Record wf (t : QuadTree) : Prop := {
  wf_nodup : NoDup (orderedItems t);
  wf_tree : orderedItems t ≡ₚ Node.allItems (root t);
  wf_items : items t ≡ₚ Node.allItems (root t);
  wf_attached : ∀ id,
    QuadTreeItem.hasFlag (heap t !!! id) QuadTreeItem.FLAG_ATTACHED = true
    ↔ id ∈ orderedItems t;
  wf_inside :
    nodeOk (λ i, QuadTreeItem.bounds (heap t !!! i)) (root t)
}.

(** How often a value occurs in a list. *)
Definition occurrences (id : ItemId) (l : list ItemId) : nat :=
  length (filter (λ x, x = id) l).

(** No item object carries the flag [F]. *)
Definition noFlag (F : Z) (objs : Heap) : Prop :=
  ∀ id, QuadTreeItem.hasFlag (objs !!! id) F = false.

Definition detachedHeap (objs : Heap) : Prop :=
  noFlag QuadTreeItem.FLAG_ATTACHED objs.

(** ** Sequences of calls *)

Inductive Call :=
  | CallAdd (item : ItemId)
  | CallRemove (item : ItemId).

Definition call (t : QuadTree) (c : Call) : QuadTree :=
  match c with
  | CallAdd item => (addItem t item).1
  | CallRemove item => (removeItem t item).1
  end.

(** No [addItem] of the sequence is given an item that is attached at that
    moment. *)
Fixpoint addsDetached (t : QuadTree) (cs : list Call) : Prop :=
  match cs with
  | [] => True
  | c :: rest =>
      match c with
      | CallAdd item =>
          QuadTreeItem.hasFlag (heap t !!! item) QuadTreeItem.FLAG_ATTACHED = false
      | CallRemove _ => True
      end ∧ addsDetached (call t c) rest
  end.

(** [updateItem] for each item of a list in turn, up to the first throw. *)
Fixpoint updateItems (t : QuadTree) (ids : list ItemId) : QuadTree * Completion :=
  match ids with
  | [] => (t, Returned)
  | i :: rest =>
      match updateItem t i with
      | (t1, Returned) => updateItems t1 rest
      | (t1, Thrown m) => (t1, Thrown m)
      end
  end.

(** ** The update queue *)

(** QUEUED marks exactly the items in the queue, each queued once. *)
Definition queueInv (t : QuadTree) : Prop :=
  NoDup (updateQueue t) ∧
  ∀ id, QuadTreeItem.hasFlag (heap t !!! id) QuadTreeItem.FLAG_QUEUED = true
        ↔ id ∈ updateQueue t.

(** Appending unless already queued. *)
Definition enqueue (q : list ItemId) (i : ItemId) : list ItemId :=
  if decide (i ∈ q) then q else q ++ [i].

(** ** Selection *)

(** The values still ahead of a cursor, in the order the walk meets them. *)
Definition remaining (l : list ItemId) (isReverse : bool) (cur : option nat)
    : list ItemId :=
  match cur with
  | None => []
  | Some i => if isReverse then reverse (take (S i) l) else drop i l
  end.

(** A cursor is null or on a node of the list. *)
Definition cursorOk (l : list ItemId) (cur : option nat) : Prop :=
  ∀ i, cur = Some i → i < length l.

Definition isSelected (h : Heap) (id : ItemId) : bool :=
  QuadTreeItem.hasFlag (h !!! id) QuadTreeItem.FLAG_SELECTED.

Definition direction (t : QuadTree) (reverse : option bool) : bool :=
  match reverse with None => isReverse t | Some b => b end.

(** The state after [getNextSelected] has returned the item [v], with
    [rest] still ahead of the cursor. *)
Definition yields (t : QuadTree) (rev : bool) (v : ItemId) (rest : list ItemId)
    (t' : QuadTree) : Prop :=
  orderedItems t' = orderedItems t ∧
  items t' = items t ∧
  root t' = root t ∧
  isReverse t' = isReverse t ∧
  cursorOk (orderedItems t) (nextItem t') ∧
  remaining (orderedItems t) rev (nextItem t') = rest ∧
  selectedCount t' = (selectedCount t - 1)%Z ∧
  selectedIndex t' = (selectedIndex t + 1)%Z ∧
  ∀ id, heap t' !!! id =
        if decide (id = v)
        then QuadTreeItem.setSelectedIndex
               (QuadTreeItem.clearFlag (heap t !!! v) QuadTreeItem.FLAG_SELECTED)
               (selectedIndex t)
        else heap t !!! id.

(** The item's bounds intersect the region and the filter accepts it. *)
Definition matches (rect : option Rect.t)
    (fn : option (ItemId → QuadTreeItem.t → bool)) (h : Heap) (id : ItemId) : bool :=
  Node.inRegion rect (QuadTreeItem.bounds (h !!! id)) && Node.passes fn id (h !!! id).

(** From [acc] to [r] the matching items of [l] got SELECTED and were
    counted, and nothing else changed. *)
Definition Selects (rect : option Rect.t)
    (fn : option (ItemId → QuadTreeItem.t → bool))
    (l : list ItemId) (acc r : gmap nat QuadTreeItem.t * Z) : Prop :=
  (∀ id, r.1 !!! id =
         if bool_decide (id ∈ l) && matches rect fn acc.1 id
         then QuadTreeItem.setFlag (acc.1 !!! id) QuadTreeItem.FLAG_SELECTED
         else acc.1 !!! id) ∧
  r.2 = (acc.2 + Z.of_nat (length (filter (λ id, matches rect fn acc.1 id = true) l)))%Z.

(** ** Directions, moves and what a selection leaves *)

(** Comparators that compare the Z layer first. *)
Definition layered (c : Comparator Empty_set) : bool :=
  match c with
  | DEFAULT_YX | DEFAULT_XY | MANHATTAN | Y2 => true
  | Y1 | X2 | X1 => false
  | USER u => match u with end
  end.

(** A tree with the three direction flags off. *)
Definition upright (t : QuadTree) : Prop :=
  xd t = false ∧ yd t = false ∧ zd t = false.

(** The owner of an item writes new bounds into it; the tree is not told. *)
Definition moveItem (t : QuadTree) (x : ItemId) (r : Rect.t) : QuadTree :=
  let it := heap t !!! x in
  set_heap t
    (<[x := QuadTreeItem.mk r (QuadTreeItem.insertionBounds it) (QuadTreeItem.zindex it)
              (QuadTreeItem.flags it) (QuadTreeItem.selectedIndex it)]> (heap t)).

(** Two heaps that differ at most in SELECTED flags and selection
    ordinals: bounds, insertion bounds, layer and every other flag agree. *)
Definition sameBesidesSelection (h h' : Heap) : Prop :=
  ∀ id,
    QuadTreeItem.bounds (h' !!! id) = QuadTreeItem.bounds (h !!! id) ∧
    QuadTreeItem.insertionBounds (h' !!! id) = QuadTreeItem.insertionBounds (h !!! id) ∧
    QuadTreeItem.zindex (h' !!! id) = QuadTreeItem.zindex (h !!! id) ∧
    ∀ F, Z.land QuadTreeItem.FLAG_SELECTED F = 0%Z →
         QuadTreeItem.hasFlag (h' !!! id) F = QuadTreeItem.hasFlag (h !!! id) F.

(** No SELECTED item is left at or beyond the cursor on a walk in the
    direction [rev]. *)
Definition noneAhead (t : QuadTree) (rev : bool) : Prop :=
  ∀ i k v, nextItem t = Some i →
           (if rev then k ≤ i else i ≤ k) →
           orderedItems t !! k = Some v →
           isSelected (heap t) v = false.

(** ** Scenes *)

Definition newItem (ax1 ay1 ax2 ay2 z : Z) : QuadTreeItem.t :=
  QuadTreeItem.mk (Rect.make ax1 ay1 ax2 ay2) (Rect.mk 0 0 0 0 0 0) z 0 0.

Definition world (objs : Heap) : QuadTree :=
  __ctor (-100) (-100) 100 100 4 objs 8.

(** Two items with the same bounds and layer. *)
Definition twins : QuadTree :=
  (addItem (addItem (world (<[0 := newItem 0 0 10 10 0]>
                            (<[1 := newItem 0 0 10 10 0]> ∅))) 0).1 1).1.

(** Two items in a column: same layer, same left edge, [1] below [0]. *)
Definition column : QuadTree :=
  (addItem (addItem (world (<[0 := newItem 0 0 10 10 0]>
                            (<[1 := newItem 0 20 10 30 0]> ∅))) 0).1 1).1.

(** The column ordered by the Manhattan comparator. *)
Definition columnManhattan : QuadTree := (setComparator column MANHATTAN).1.

(** An item standing outside the world. *)
Definition stray : QuadTree :=
  world (<[0 := newItem 200 200 210 210 0]> ∅).

(** A selection with its cursor run off the list by a walk in the other
    direction: one of the two selected items is still marked. *)
Definition stranded : QuadTree :=
  (getNextSelected (selectItems twins None None None).1 (Some true)).1.

(** A selection of the upper item of [column] that was never drained. *)
Definition undrained : QuadTree :=
  (selectItems column (Some (Rect.make (-1) (-1) 11 11)) None None).1.

(** The column far up the Z axis, seen upside down and ordered by
    COMPARATOR_Y1: the two sums [y1 + zindex] both round to [2^60]. *)
Definition columnFar : QuadTree :=
  (addItem (addItem (setComparator
     (setYd (world (<[0 := newItem 0 0 10 10 (2 ^ 60)]>
                    (<[1 := newItem 0 20 10 30 (2 ^ 60)]> ∅))) true).1 Y1).1 0).1 1).1.

(** The twins seen from behind: the Z axis inverted. *)
Definition twinsBehind : QuadTree := (setZd twins true).1.

(** Three items in a column, the lowest one not attached yet. *)
Definition spare : QuadTree :=
  (addItem (addItem (world (<[0 := newItem 0 0 10 10 0]>
                            (<[1 := newItem 0 20 10 30 0]>
                             (<[2 := newItem 0 40 10 50 0]> ∅)))) 0).1 1).1.

(* ================================================================== *)
(** * Properties *)

(** ** Numbers *)

Module NumberFacts.

(** Sums below [2^53] in size are exact. *)
Lemma add_exact (x y : Z) :
  (Z.abs (x + y) < 2 ^ 53)%Z → Number.add x y = (x + y)%Z.
Proof.
  intros Hs. unfold Number.add, Number.roundToDouble.
  assert (He : (Z.log2 (Z.abs (x + y)) - 52 <= 0)%Z).
  { destruct (decide (Z.abs (x + y) = 0%Z)) as [->|Hne]; [done|].
    assert (Z.log2 (Z.abs (x + y)) < 53)%Z; [|lia].
    apply Z.log2_lt_pow2; lia. }
  apply Z.leb_le in He. by rewrite He.
Qed.

(** Beyond that they are rounded: the odd number after [2^53] is not a
    double, and a small step far up is lost. *)
Lemma add_rounds :
  Number.add (2 ^ 53) 1 = (2 ^ 53)%Z ∧
  Number.add (2 ^ 53) 3 = (2 ^ 53 + 4)%Z ∧
  Number.add 20 (2 ^ 60) = Number.add 0 (2 ^ 60).
Proof. by vm_compute. Qed.

End NumberFacts.

(** ** Flags *)

Module FlagFacts.
Import QuadTreeItem.
Local Open Scope Z_scope.

Lemma land_lor_same (f F : Z) : Z.land (Z.lor f F) F = F.
Proof.
  apply Z.bits_inj'; intros n _.
  rewrite Z.land_spec, Z.lor_spec.
  destruct (Z.testbit f n), (Z.testbit F n); reflexivity.
Qed.

Lemma land_clear_same (f F : Z) : Z.land (Z.land f (Z.lnot F)) F = 0.
Proof.
  apply Z.bits_inj'; intros n Hn.
  rewrite !Z.land_spec, Z.lnot_spec, Z.bits_0 by lia.
  destruct (Z.testbit f n), (Z.testbit F n); reflexivity.
Qed.

Lemma land_lor_other (f F G : Z) :
  Z.land F G = 0 → Z.land (Z.lor f F) G = Z.land f G.
Proof.
  intros HFG.
  rewrite Z.land_lor_distr_l, HFG. apply Z.lor_0_r.
Qed.

Lemma land_clear_other (f F G : Z) :
  Z.land F G = 0 → Z.land (Z.land f (Z.lnot F)) G = Z.land f G.
Proof.
  intros HFG.
  apply Z.bits_inj'; intros n Hn.
  assert (Hb : Z.testbit (Z.land F G) n = false) by (rewrite HFG; apply Z.bits_0).
  rewrite Z.land_spec in Hb.
  rewrite !Z.land_spec, Z.lnot_spec by lia.
  destruct (Z.testbit f n), (Z.testbit F n), (Z.testbit G n);
    simpl in *; congruence.
Qed.

Lemma hasFlag_setFlag (it : t) (F : Z) : F ≠ 0 → hasFlag (setFlag it F) F = true.
Proof.
  intros HF. unfold hasFlag, setFlag; simpl.
  rewrite land_lor_same. apply negb_true_iff, Z.eqb_neq, HF.
Qed.

Lemma hasFlag_clearFlag (it : t) (F : Z) : hasFlag (clearFlag it F) F = false.
Proof.
  unfold hasFlag, clearFlag; simpl. rewrite land_clear_same. reflexivity.
Qed.

Lemma hasFlag_setFlag_other (it : t) (F G : Z) :
  Z.land F G = 0 → hasFlag (setFlag it F) G = hasFlag it G.
Proof.
  intros HFG. unfold hasFlag, setFlag; simpl. by rewrite land_lor_other.
Qed.

Lemma hasFlag_clearFlag_other (it : t) (F G : Z) :
  Z.land F G = 0 → hasFlag (clearFlag it F) G = hasFlag it G.
Proof.
  intros HFG. unfold hasFlag, clearFlag; simpl. by rewrite land_clear_other.
Qed.

Lemma hasFlag_setSelectedIndex (it : t) (n G : Z) :
  hasFlag (setSelectedIndex it n) G = hasFlag it G.
Proof. reflexivity. Qed.

Lemma hasFlag_setInsertionBounds (it : t) (r : Rect.t) (G : Z) :
  hasFlag (setInsertionBounds it r) G = hasFlag it G.
Proof. reflexivity. Qed.

End FlagFacts.

(** ** The ordered list is kept by insertion *)

Section Insertion.
Variable cmp : ItemId → ItemId → bool.

Lemma insertOrdered_perm (x : ItemId) (l : list ItemId) :
  insertOrdered cmp x l ≡ₚ x :: l.
Proof.
  induction l as [|v rest IH]; simpl; [done|].
  destruct (cmp x v); [done|].
  rewrite IH. apply Permutation_swap.
Qed.

Lemma insertAll_perm (l acc : list ItemId) :
  insertAll cmp acc l ≡ₚ acc ++ l.
Proof.
  revert acc. induction l as [|x l IH]; intros acc; simpl.
  - by rewrite app_nil_r.
  - unfold insertAll in *; simpl. rewrite IH, insertOrdered_perm.
    simpl. apply Permutation_middle.
Qed.

Lemma insertOrdered_sorted (x : ItemId) (l : list ItemId) :
  composes cmp → StronglySorted (mayPrecede cmp) l →
  StronglySorted (mayPrecede cmp) (insertOrdered cmp x l).
Proof.
  intros Hc. induction 1 as [|v rest Hs IH Hv]; simpl.
  - repeat constructor.
  - destruct (cmp x v) eqn:Hxv.
    + constructor; [by constructor|].
      constructor; [by intros _|].
      rewrite Forall_forall in Hv |- *. intros k Hk Hkx.
      destruct (cmp x k) eqn:Hxk; [done|].
      destruct (Hc k x v Hkx Hxk Hxv) as [Hkv Hvk].
      specialize (Hv k Hk Hkv). congruence.
    + constructor; [done|].
      rewrite Forall_forall in Hv |- *. intros k Hk.
      rewrite insertOrdered_perm in Hk.
      apply elem_of_cons in Hk as [->|Hk]; [|by apply Hv].
      intros Hxv'. congruence.
Qed.

Lemma insertAll_sorted (l acc : list ItemId) :
  composes cmp → StronglySorted (mayPrecede cmp) acc →
  StronglySorted (mayPrecede cmp) (insertAll cmp acc l).
Proof.
  intros Hc. revert acc. induction l as [|x l IH]; intros acc Hs; simpl; [done|].
  apply IH. by apply insertOrdered_sorted.
Qed.

Lemma precedes_nil (a b : nat) : ¬ precedes [] a b.
Proof. intros (i & j & _ & Hi & _). by rewrite lookup_nil in Hi. Qed.

Lemma precedes_cons (v : nat) (l : list nat) (a b : nat) :
  precedes (v :: l) a b ↔ (v = a ∧ b ∈ l) ∨ precedes l a b.
Proof.
  split.
  - intros (i & j & Hij & Hi & Hj).
    destruct j as [|j]; [lia|]. destruct i as [|i]; simpl in Hi, Hj.
    + left. split; [congruence|]. by eapply list_elem_of_lookup_2.
    + right. exists i, j. split; [lia|]. by split.
  - intros [[-> Hb]|(i & j & Hij & Hi & Hj)].
    + apply list_elem_of_lookup_1 in Hb as [j Hj].
      exists 0, (S j). split; [lia|]. by split.
    + exists (S i), (S j). split; [lia|]. by split.
Qed.

(** An insertion keeps the items already there in the order they had. *)
Lemma precedes_insert_keep (x : nat) (l : list nat) (a b : nat) :
  precedes l a b → precedes (insertOrdered cmp x l) a b.
Proof.
  induction l as [|v rest IH]; simpl; [by intros ?%precedes_nil|].
  destruct (cmp x v).
  - intros H. apply precedes_cons. by right.
  - rewrite !precedes_cons. intros [[-> Hb]|H].
    + left. split; [done|]. rewrite insertOrdered_perm. by right.
    + right. by apply IH.
Qed.

(** The inserted item lands before every item it is before. *)
Lemma precedes_insert_new (x : nat) (l : list nat) (y : nat) :
  y ∈ l → cmp x y = true → precedes (insertOrdered cmp x l) x y.
Proof.
  induction l as [|v rest IH]; simpl; [by intros ?%elem_of_nil|].
  intros Hy Hxy. destruct (cmp x v) eqn:Hxv.
  - apply precedes_cons. by left.
  - apply elem_of_cons in Hy as [->|Hy]; [congruence|].
    apply precedes_cons. right. by apply IH.
Qed.

Lemma insertAll_cons (x : nat) (l acc : list nat) :
  insertAll cmp acc (x :: l) = insertAll cmp (insertOrdered cmp x acc) l.
Proof. reflexivity. Qed.

Lemma insertAll_keep (l acc : list nat) (a b : nat) :
  precedes acc a b → precedes (insertAll cmp acc l) a b.
Proof.
  revert acc. induction l as [|x l IH]; intros acc H; [done|].
  rewrite insertAll_cons. apply IH. by apply precedes_insert_keep.
Qed.

(** Of two items inserted one after the other, the later one ends up
    before the earlier one whenever it is before it. *)
Lemma insertAll_later (l acc : list nat) (a b : nat) :
  (a ∈ acc ∧ b ∈ l) ∨ precedes l a b →
  cmp b a = true →
  precedes (insertAll cmp acc l) b a.
Proof.
  intros H Hba. revert acc H.
  induction l as [|x l IH]; intros acc [[Ha Hb]|H]; rewrite ?insertAll_cons.
  - by apply elem_of_nil in Hb.
  - by apply precedes_nil in H.
  - apply elem_of_cons in Hb as [->|Hb].
    + apply insertAll_keep. by apply precedes_insert_new.
    + apply IH. left. split; [|done]. rewrite insertOrdered_perm. by right.
  - apply precedes_cons in H as [[-> Hb]|H].
    + apply IH. left. split; [|done]. rewrite insertOrdered_perm. by left.
    + apply IH. by right.
Qed.

(** Insertion keeps neighbours in order, whatever the comparator: no
    item is strictly before the one right in front of it. *)
Lemma insertOrdered_neighbours (x : nat) (l : list nat) :
  (∀ i a b, l !! i = Some a → l !! S i = Some b → mayPrecede cmp a b) →
  ∀ i a b, insertOrdered cmp x l !! i = Some a →
           insertOrdered cmp x l !! S i = Some b → mayPrecede cmp a b.
Proof.
  induction l as [|v rest IH]; intros Hl i a b; simpl.
  - destruct i; discriminate.
  - destruct (cmp x v) eqn:Hxv.
    + destruct i as [|i]; simpl; [|apply (Hl i)].
      intros [= <-] [= <-] _. exact Hxv.
    + destruct i as [|i]; simpl.
      * intros [= <-] Hb. destruct rest as [|w rest']; simpl in Hb.
        -- injection Hb as <-. intros Hc. congruence.
        -- destruct (cmp x w); injection Hb as <-.
           ++ intros Hc. congruence.
           ++ by apply (Hl 0).
      * apply IH. intros j c d. apply (Hl (S j)).
Qed.

Lemma insertAll_neighbours (l acc : list nat) :
  (∀ i a b, acc !! i = Some a → acc !! S i = Some b → mayPrecede cmp a b) →
  ∀ i a b, insertAll cmp acc l !! i = Some a →
           insertAll cmp acc l !! S i = Some b → mayPrecede cmp a b.
Proof.
  revert acc. induction l as [|x l IH]; intros acc Hacc; [done|].
  rewrite insertAll_cons. apply IH. by apply insertOrdered_neighbours.
Qed.

End Insertion.

Lemma StronglySorted_lookup_lt {A} (R : A → A → Prop) (l : list A) :
  StronglySorted R l →
  ∀ i j a b, i < j → l !! i = Some a → l !! j = Some b → R a b.
Proof.
  induction 1 as [|v rest Hs IH Hv]; intros i j a b Hij Ha Hb.
  - by rewrite lookup_nil in Ha.
  - destruct j as [|j]; [lia|]. destruct i as [|i]; simpl in *.
    + injection Ha as <-. rewrite Forall_forall in Hv.
      apply Hv. by eapply list_elem_of_lookup_2.
    + eapply IH; [|done..]. lia.
Qed.

(** ** The supplied comparators *)

(** Truth values of integer comparisons as propositions, for [lia]. *)
Ltac bool_to_prop :=
  repeat first
    [ rewrite xorb_true_r in * | rewrite xorb_false_r in *
    | rewrite orb_true_iff in * | rewrite orb_false_iff in *
    | rewrite andb_true_iff in * | rewrite andb_false_iff in *
    | rewrite negb_true_iff in * | rewrite negb_false_iff in *
    | rewrite Z.ltb_lt in * | rewrite Z.ltb_ge in *
    | rewrite Z.leb_le in * | rewrite Z.leb_gt in *
    | rewrite Z.eqb_eq in * | rewrite Z.eqb_neq in * ].

Ltac unfold_comparators :=
  unfold callComparator, COMPARATOR_DEFAULT_YX, COMPARATOR_DEFAULT_XY,
    COMPARATOR_MANHATTAN, COMPARATOR_Y2, COMPARATOR_Y1, COMPARATOR_X2,
    COMPARATOR_X1 in *.

Lemma callComparator_composes (t : QuadTree) (P Q R : QuadTreeItem.t) (a b c : Rect.t) :
  callComparator t a b P Q = true →
  callComparator t b a Q P = false →
  callComparator t b c Q R = true →
  callComparator t a c P R = true ∧ callComparator t c a R P = false.
Proof.
  unfold_comparators.
  destruct (fnComparator t) as [| | | | | | |[]], (xd t), (yd t), (zd t);
    intros H1 H2 H3; split; bool_to_prop; lia.
Qed.

Lemma isBefore_composes (t : QuadTree) : composes (isBefore t).
Proof. intros a b c. unfold isBefore. apply callComparator_composes. Qed.

(** ** addItemOrdered and reorderItems *)

Lemma firstAfter_insert {U : Type} `{UserComparators U} (t : QuadTreeOf U) (item : ItemId) (l : list ItemId) :
  match firstAfter t item l with
  | Some i => LList.insertBefore l i item
  | None => LList.push l item
  end = insertOrdered (isBefore t) item l.
Proof.
  induction l as [|v rest IH]; simpl; [done|].
  destruct (isBefore t item v); [done|].
  destruct (firstAfter t item rest) as [i|]; simpl in *;
    unfold LList.insertBefore, LList.push in *; simpl; by rewrite IH.
Qed.

Lemma addItemOrdered_eq {U : Type} `{UserComparators U} (t : QuadTreeOf U) (item : ItemId) :
  addItemOrdered t item =
  set_orderedItems t (insertOrdered (isBefore t) item (orderedItems t)).
Proof.
  unfold addItemOrdered. rewrite <- firstAfter_insert.
  by destruct (firstAfter t item (orderedItems t)).
Qed.

Lemma foldl_addItemOrdered {U : Type} `{UserComparators U} (t : QuadTreeOf U) (l acc : list ItemId) :
  foldl addItemOrdered (set_orderedItems t acc) l =
  set_orderedItems t (insertAll (isBefore t) acc l).
Proof.
  revert acc. induction l as [|x l IH]; intros acc; simpl; [done|].
  rewrite addItemOrdered_eq. apply IH.
Qed.

Lemma reorderItems_eq {U : Type} `{UserComparators U} (t : QuadTreeOf U) :
  reorderItems t =
  set_orderedItems t (insertAll (isBefore t) [] (orderedItems t)).
Proof. unfold reorderItems. apply foldl_addItemOrdered. Qed.

Lemma reorderItems_orderedBy (t : QuadTree) :
  orderedBy (reorderItems t) (orderedItems (reorderItems t)).
Proof.
  rewrite reorderItems_eq. simpl.
  intros i j a b Hij Ha Hb.
  change (mayPrecede (isBefore t) a b).
  eapply StronglySorted_lookup_lt; [|done..].
  apply insertAll_sorted; [apply isBefore_composes|constructor].
Qed.

Lemma reorderItems_perm {U : Type} `{UserComparators U} (t : QuadTreeOf U) :
  orderedItems (reorderItems t) ≡ₚ orderedItems t.
Proof. rewrite reorderItems_eq. simpl. by rewrite insertAll_perm. Qed.

(** C3, amended: for every comparator [c], one of the supplied ones or a
    function of the caller's, after [setComparator(c)] and [reorderItems()]
    the draw list holds the same items, and for every adjacent pair [a],
    [b] ([a] immediately before [b]) either [isBefore(a, b)] holds or
    [isBefore(b, a)] does not: [b] is never strictly before [a]. *)
Theorem reorderItems_adjacent {U : Type} `{UserComparators U}
    (t : QuadTreeOf U) (c : Comparator U) :
  let t' := reorderItems (setComparator t c).1 in
  fnComparator t' = c ∧
  orderedItems t' ≡ₚ orderedItems t ∧
  ∀ i a b,
    orderedItems t' !! i = Some a → orderedItems t' !! S i = Some b →
    isBefore t' a b = true ∨ isBefore t' b a = false.
Proof.
  simpl. set (t1 := (setComparator t c).1).
  assert (Hc : fnComparator t1 = c ∧ orderedItems t1 = orderedItems t).
  { subst t1. unfold setComparator. case_bool_decide; simpl; by split. }
  destruct Hc as [Hc Ho]. split; [|split].
  - rewrite reorderItems_eq. by simpl.
  - rewrite reorderItems_perm. by rewrite Ho.
  - rewrite reorderItems_eq. simpl. intros i a b Ha Hb.
    change (isBefore t1 a b = true ∨ isBefore t1 b a = false).
    destruct (isBefore t1 b a) eqn:Hba; [|by right].
    left. revert Hba.
    apply (insertAll_neighbours (isBefore t1) (orderedItems t1) []) with i; done.
Qed.

(** C3 as stated fails: two items that tie under the comparator are adjacent
    after the reordering, and [isBefore] holds in neither direction. *)
Lemma reorderItems_adjacent_ties :
  let t' := reorderItems (setComparator twins DEFAULT_XY).1 in
  ¬ (∀ i a b,
       orderedItems t' !! i = Some a → orderedItems t' !! S i = Some b →
       isBefore t' a b = true).
Proof.
  intros t' H. specialize (H 0 0 1).
  assert (Hf : isBefore t' 0 1 = false) by (vm_compute; reflexivity).
  rewrite H in Hf; [discriminate| |]; vm_compute; reflexivity.
Qed.

(** ** Flipping the Y axis *)

(** On items that tie on Z and X a comparator with a Y key either answers
    true throughout (an inverted earlier axis already decides), or compares
    the Y keys, XOR'd with [yd], wherever they differ. *)
Lemma tie_cases (c : Comparator Empty_set) (x z : bool) (key : QuadTreeItem.t → Z) :
  yKey c = Some key →
  (∀ (t : QuadTree) P Q, fnComparator t = c → xd t = x → zd t = z → tiesZX P Q →
     callComparator t (QuadTreeItem.insertionBounds P) (QuadTreeItem.insertionBounds Q) P Q = true)
  ∨
  (∀ (t : QuadTree) P Q, fnComparator t = c → xd t = x → zd t = z → tiesZX P Q →
     key P ≠ key Q →
     callComparator t (QuadTreeItem.insertionBounds P) (QuadTreeItem.insertionBounds Q) P Q
     = xorb (key P <? key Q)%Z (yd t)).
Proof.
  intros Hk.
  destruct c as [| | | | | | |[]]; simpl in Hk; try discriminate; injection Hk as <-;
    destruct x, z;
    first
      [ left; intros t P Q Hc Hx Hz [Hz1 Hx1];
        unfold callComparator; rewrite Hc;
        unfold COMPARATOR_DEFAULT_YX, COMPARATOR_DEFAULT_XY, COMPARATOR_Y2;
        rewrite ?Hx, ?Hz, ?Hz1, ?Hx1; destruct (yd t); bool_to_prop; lia
      | right; intros t P Q Hc Hx Hz [Hz1 Hx1] Hne;
        unfold callComparator; rewrite Hc;
        unfold COMPARATOR_DEFAULT_YX, COMPARATOR_DEFAULT_XY, COMPARATOR_Y2,
          COMPARATOR_Y1;
        rewrite ?Hx, ?Hz, ?Hx1; try rewrite Hz1 in Hne |- *; destruct (yd t);
        apply eq_true_iff_eq; split; intros H; bool_to_prop; lia ].
Qed.

Lemma setYd_toggle (t : QuadTree) :
  (setYd t (negb (yd t))).1 = set_yd t (negb (yd t)).
Proof.
  unfold setYd. case_bool_decide as H; [|done].
  by destruct (yd t).
Qed.

Lemma tiesZX_sym (P Q : QuadTreeItem.t) : tiesZX P Q → tiesZX Q P.
Proof. intros [H1 H2]. by split. Qed.

(** C4, amended: for the supplied comparators whose Y comparison is XOR'd
    with [yd] (DEFAULT_YX and DEFAULT_XY on [y1], Y2 on [y2], Y1 on the sum
    [y1 + zindex] as the program computes it), toggling [yd] and then
    calling [reorderItems()] on an ordered draw list reverses the relative
    order of every two items that tie on Z and X and differ in that Y key,
    and leaves the item objects (bounds, Z values) as they were. *)
Theorem toggle_yd_reverses (t : QuadTree) (key : QuadTreeItem.t → Z) :
  yKey (fnComparator t) = Some key →
  orderedBy t (orderedItems t) →
  let t' := reorderItems (setYd t (negb (yd t))).1 in
  heap t' = heap t ∧
  yd t' = negb (yd t) ∧
  ∀ a b,
    precedes (orderedItems t) a b →
    tiesZX (heap t !!! a) (heap t !!! b) →
    key (heap t !!! a) ≠ key (heap t !!! b) →
    precedes (orderedItems t') b a.
Proof.
  intros Hk Hord. simpl. rewrite setYd_toggle.
  set (t1 := set_yd t (negb (yd t))).
  rewrite reorderItems_eq. simpl.
  split; [done|]. split; [done|].
  intros a b Hab Htie Hne.
  apply insertAll_later; [by right|].
  pose proof (tiesZX_sym _ _ Htie) as Htie'.
  unfold isBefore.
  destruct (tie_cases (fnComparator t) (xd t) (zd t) key Hk) as [Htrue|Hcmp].
  - by apply Htrue.
  - destruct Hab as (i & j & Hij & Ha & Hb).
    specialize (Hord i j a b Hij Ha Hb). unfold isBefore in Hord.
    rewrite (Hcmp t (heap t !!! a) (heap t !!! b)) in Hord by (by auto).
    rewrite (Hcmp t (heap t !!! b) (heap t !!! a)) in Hord by (by auto).
    rewrite (Hcmp t1 (heap t !!! b) (heap t !!! a)) by (by auto).
    subst t1; simpl. clear -Hord Hne.
    destruct (yd t); simpl in *; bool_to_prop;
      try lia; destruct Hord; bool_to_prop; lia.
Qed.

(** ** The node tree *)

Module NodeFacts.
Import Node.

Lemma nodeOk_inside bnd n id :
  nodeOk bnd n → id ∈ allItems n → Rect.contains (getExtents n) (bnd id) = true.
Proof. destruct n; simpl; intros [H _]; apply H. Qed.

Lemma nodeOk_ext bnd bnd' n :
  (∀ id, bnd' id = bnd id) → nodeOk bnd n → nodeOk bnd' n.
Proof.
  intros Heq. induction n as [e its|e its a IHa b IHb c IHc d IHd]; simpl.
  - intros [H _]. split; [|done]. intros id Hid. rewrite Heq. by apply H.
  - intros (H & Ha & Hb & Hc & Hd). split; [|by auto].
    intros id Hid. rewrite Heq. by apply H.
Qed.

Lemma attachHere_extents n id : getExtents (attachHere n id) = getExtents n.
Proof. by destruct n. Qed.

Lemma attachHere_items n id : allItems (attachHere n id) ≡ₚ allItems n ++ [id].
Proof. destruct n; simpl; [done|solve_Permutation]. Qed.

Lemma attachHere_ok bnd n id :
  nodeOk bnd n → Rect.contains (getExtents n) (bnd id) = true →
  nodeOk bnd (attachHere n id).
Proof.
  intros Hn Hin.
  assert (Hall : ∀ i, i ∈ allItems (attachHere n id) →
                      Rect.contains (getExtents n) (bnd i) = true).
  { intros i Hi. rewrite attachHere_items in Hi.
    apply elem_of_app in Hi as [Hi|Hi]; [by eapply nodeOk_inside|].
    apply list_elem_of_singleton in Hi as ->. done. }
  destruct n; simpl in *; (split; [exact Hall|]); [done|]. by destruct Hn.
Qed.

Section Place.
Variable bnd : ItemId → Rect.t.
Variable ins : QuadTreeNode → ItemId → option QuadTreeNode.
Hypothesis ins_spec : ∀ m i m',
  ins m i = Some m' →
  getExtents m' = getExtents m ∧
  allItems m' ≡ₚ allItems m ++ [i] ∧
  (nodeOk bnd m → nodeOk bnd m').

Lemma place_extents m i : getExtents (place ins m i) = getExtents m.
Proof.
  destruct m as [e its|e its a b c d]; simpl; [done|].
  by repeat case_match.
Qed.

Lemma place_items m i : allItems (place ins m i) ≡ₚ allItems m ++ [i].
Proof.
  destruct m as [e its|e its a b c d]; simpl; [done|].
  repeat case_match; simpl;
    repeat match goal with
           | H : ins _ _ = Some _ |- _ =>
               apply ins_spec in H as (_ & -> & _)
           end; solve_Permutation.
Qed.

Lemma place_ok m i :
  nodeOk bnd m → Rect.contains (getExtents m) (bnd i) = true →
  nodeOk bnd (place ins m i).
Proof.
  intros Hm Hin.
  assert (Hall : ∀ j, j ∈ allItems (place ins m i) →
                      Rect.contains (getExtents m) (bnd j) = true).
  { intros j Hj. rewrite place_items in Hj.
    apply elem_of_app in Hj as [Hj|Hj]; [by eapply nodeOk_inside|].
    apply list_elem_of_singleton in Hj as ->. done. }
  destruct m as [e its|e its a b c d]; [by apply attachHere_ok|].
  destruct Hm as (Hown & Ha & Hb & Hc & Hd).
  revert Hall. unfold place.
  repeat case_match; intros Hall;
    try (apply attachHere_ok; [by simpl|done]);
    (split; [exact Hall|]);
    match goal with
    | H : ins _ _ = Some _ |- _ => apply ins_spec in H as (_ & _ & Hok)
    end; split_and!; auto.
Qed.

Lemma foldl_place_extents l m :
  getExtents (foldl (place ins) m l) = getExtents m.
Proof.
  revert m. induction l as [|x l IH]; intros m; simpl; [done|].
  by rewrite IH, place_extents.
Qed.

Lemma foldl_place_items l m :
  allItems (foldl (place ins) m l) ≡ₚ allItems m ++ l.
Proof.
  revert m. induction l as [|x l IH]; intros m; simpl.
  - by rewrite app_nil_r.
  - rewrite IH, place_items. solve_Permutation.
Qed.

Lemma foldl_place_ok l m :
  nodeOk bnd m →
  (∀ i, i ∈ l → Rect.contains (getExtents m) (bnd i) = true) →
  nodeOk bnd (foldl (place ins) m l).
Proof.
  revert m. induction l as [|x l IH]; intros m Hm Hl; simpl; [done|].
  apply IH.
  - apply place_ok; [done|]. apply Hl. by left.
  - intros i Hi. rewrite place_extents. apply Hl. by right.
Qed.
End Place.

Lemma subdivide_ok bnd e : nodeOk bnd (subdivide e).
Proof.
  unfold subdivide; simpl. split_and!; try done; by intros id Hid%elem_of_nil.
Qed.

(** What a successful [insert] does to the node tree. *)
Lemma addItem_Some depth h capacity n id n' :
  addItem depth h capacity n id = Some n' →
  getExtents n' = getExtents n ∧
  allItems n' ≡ₚ allItems n ++ [id] ∧
  (nodeOk (λ i, QuadTreeItem.bounds (h !!! i)) n →
   nodeOk (λ i, QuadTreeItem.bounds (h !!! i)) n').
Proof.
  revert n id n'. induction depth as [|d IH]; intros n id n'; cbn [addItem];
    destruct (Rect.contains _ _) eqn:Hin; try discriminate.
  - intros ?%(inj Some); subst n'. split; [apply attachHere_extents|].
    split; [apply attachHere_items|]. intros Hn. by apply attachHere_ok.
  - destruct n as [e its|e its a b c d'].
    + destruct (length its <? capacity).
      * intros ?%(inj Some); subst n'. split; [apply attachHere_extents|].
        split; [apply attachHere_items|]. intros Hn. by apply attachHere_ok.
      * intros ?%(inj Some); subst n'. split; [by erewrite foldl_place_extents|].
        split; [by erewrite foldl_place_items|].
        intros [Hn _]. eapply foldl_place_ok; [done|apply subdivide_ok|].
        simpl in *. intros i Hi.
        apply elem_of_app in Hi as [Hi|Hi]; [by apply Hn|].
        apply list_elem_of_singleton in Hi as ->. done.
    + intros ?%(inj Some); subst n'. split; [by erewrite place_extents|].
      split; [by erewrite place_items|].
      intros Hn. by eapply place_ok.
Qed.

Lemma addItem_None depth h capacity n id :
  addItem depth h capacity n id = None ↔
  Rect.contains (getExtents n) (QuadTreeItem.bounds (h !!! id)) = false.
Proof.
  destruct depth; simpl; destruct (Rect.contains _ _);
    repeat case_match; split; intros; done.
Qed.

Lemma removeFirst_Some id l l' :
  removeFirst id l = Some l' → l ≡ₚ id :: l'.
Proof.
  revert l'. induction l as [|x l IH]; intros l'; simpl; [done|].
  case_decide as Hx; [by intros [= <-]; subst|].
  destruct (removeFirst id l) as [k|]; simpl; [|done].
  intros [= <-]. rewrite (IH k eq_refl). apply Permutation_swap.
Qed.

Lemma removeFirst_None id l : removeFirst id l = None ↔ id ∉ l.
Proof.
  induction l as [|x l IH]; simpl.
  - split; [intros _ H; by apply elem_of_nil in H|done].
  - case_decide as Hx.
    + subst. split; [done|]. intros H. exfalso. apply H. by left.
    + rewrite not_elem_of_cons, <- IH.
      destruct (removeFirst id l); simpl; naive_solver.
Qed.

(** What a successful [remove] does to the node tree. *)
Lemma removeItem_Some bnd n id n' :
  removeItem n id = Some n' →
  getExtents n' = getExtents n ∧
  allItems n ≡ₚ id :: allItems n' ∧
  (nodeOk bnd n → nodeOk bnd n').
Proof.
  revert n'. induction n as [e its|e its a IHa b IHb c IHc d IHd]; intros n'; simpl.
  - destruct (removeFirst id its) as [k|] eqn:Hk; simpl; [|done].
    intros [= <-]. apply removeFirst_Some in Hk. simpl.
    split; [done|]. split; [done|]. intros [H _]. split; [|done].
    intros i Hi. apply H. rewrite Hk. by right.
  - assert (Hsub : ∀ n'' : QuadTreeNode,
              getExtents n'' = e →
              its ++ allItems a ++ allItems b ++ allItems c ++ allItems d
                ≡ₚ id :: allItems n'' →
              (∀ i, i ∈ its ++ allItems a ++ allItems b ++ allItems c ++ allItems d →
                    Rect.contains e (bnd i) = true) →
              ∀ i, i ∈ allItems n'' → Rect.contains (getExtents n'') (bnd i) = true).
    { intros n'' -> Hp H i Hi. apply H. rewrite Hp. by right. }
    destruct (removeFirst id its) as [k|] eqn:Hk.
    { intros [= <-]. apply removeFirst_Some in Hk.
      assert (Hp : its ++ allItems a ++ allItems b ++ allItems c ++ allItems d
                   ≡ₚ id :: allItems (Split e k a b c d))
        by (simpl; rewrite Hk; solve_Permutation).
      split; [done|]. split; [done|].
      intros (H & ? & ? & ? & ?). split; [by apply Hsub|done]. }
    destruct (removeItem a id) as [a'|] eqn:Ha.
    { intros [= <-]. destruct (IHa a' eq_refl) as (_ & Hpa & Hoa).
      assert (Hp : its ++ allItems a ++ allItems b ++ allItems c ++ allItems d
                   ≡ₚ id :: allItems (Split e its a' b c d))
        by (simpl; rewrite Hpa; solve_Permutation).
      split; [done|]. split; [done|].
      intros (H & ? & ? & ? & ?). split; [by apply Hsub|by auto]. }
    destruct (removeItem b id) as [b'|] eqn:Hb.
    { intros [= <-]. destruct (IHb b' eq_refl) as (_ & Hpb & Hob).
      assert (Hp : its ++ allItems a ++ allItems b ++ allItems c ++ allItems d
                   ≡ₚ id :: allItems (Split e its a b' c d))
        by (simpl; rewrite Hpb; solve_Permutation).
      split; [done|]. split; [done|].
      intros (H & ? & ? & ? & ?). split; [by apply Hsub|by auto]. }
    destruct (removeItem c id) as [c'|] eqn:Hc.
    { intros [= <-]. destruct (IHc c' eq_refl) as (_ & Hpc & Hoc).
      assert (Hp : its ++ allItems a ++ allItems b ++ allItems c ++ allItems d
                   ≡ₚ id :: allItems (Split e its a b c' d))
        by (simpl; rewrite Hpc; solve_Permutation).
      split; [done|]. split; [done|].
      intros (H & ? & ? & ? & ?). split; [by apply Hsub|by auto]. }
    destruct (removeItem d id) as [d'|] eqn:Hd; [|done].
    intros [= <-]. destruct (IHd d' eq_refl) as (_ & Hpd & Hod).
    assert (Hp : its ++ allItems a ++ allItems b ++ allItems c ++ allItems d
                 ≡ₚ id :: allItems (Split e its a b c d'))
      by (simpl; rewrite Hpd; solve_Permutation).
    split; [done|]. split; [done|].
    intros (H & ? & ? & ? & ?). split; [by apply Hsub|by auto].
Qed.

Lemma removeItem_None n id : removeItem n id = None ↔ id ∉ allItems n.
Proof.
  induction n as [e its|e its a IHa b IHb c IHc d IHd]; simpl.
  - rewrite <- removeFirst_None. by destruct (removeFirst id its).
  - rewrite !not_elem_of_app, <- removeFirst_None, <- IHa, <- IHb, <- IHc, <- IHd.
    destruct (removeFirst id its), (removeItem a id), (removeItem b id),
      (removeItem c id), (removeItem d id); naive_solver.
Qed.

End NodeFacts.

(** ** List nodes *)

Lemma sgetNode_Some (l : list nat) (v : nat) (i : nat) :
  LList.sgetNode l v = Some i → l !! i = Some v.
Proof.
  revert i. induction l as [|w l IH]; intros i; simpl; [done|].
  case_decide as Hw; [by intros [= <-]; subst|].
  destruct (LList.sgetNode l v) as [j|]; simpl; [|done].
  intros [= <-]. by apply IH.
Qed.

Lemma sgetNode_None (l : list nat) (v : nat) :
  LList.sgetNode l v = None ↔ v ∉ l.
Proof.
  induction l as [|w l IH]; simpl.
  - split; [intros _ H; by apply elem_of_nil in H|done].
  - case_decide as Hw.
    + subst. split; [done|]. intros H. exfalso. apply H. by left.
    + rewrite not_elem_of_cons, <- IH.
      destruct (LList.sgetNode l v); simpl; naive_solver.
Qed.

(** Unlinking the node of a value that is in the list takes out one
    occurrence of it. *)
Lemma remove_sgetNode_perm (l : list nat) (v : nat) :
  v ∈ l → l ≡ₚ v :: LList.remove l (LList.sgetNode l v).
Proof.
  intros Hv. destruct (LList.sgetNode l v) as [i|] eqn:Hi.
  - simpl. apply delete_Permutation. by apply sgetNode_Some.
  - by apply sgetNode_None in Hi.
Qed.

Lemma remove_sgetNode_absent (l : list nat) (v : nat) :
  v ∉ l → LList.remove l (LList.sgetNode l v) = l.
Proof. intros Hv. apply sgetNode_None in Hv. by rewrite Hv. Qed.

(** ** Well-formed trees *)

Lemma occurrences_absent (id : nat) (l : list nat) :
  id ∉ l → occurrences id l = 0.
Proof.
  unfold occurrences. induction l as [|x l IH]; [done|].
  intros [Hx Hl]%not_elem_of_cons. rewrite filter_cons.
  case_decide; [congruence|by apply IH].
Qed.

Lemma occurrences_NoDup (id : nat) (l : list nat) :
  NoDup l → id ∈ l → occurrences id l = 1.
Proof.
  unfold occurrences. induction 1 as [|x l Hx Hl IH]; [by intros ?%elem_of_nil|].
  intros Hid. rewrite filter_cons. case_decide as Hd.
  - subst. simpl. f_equal. by apply occurrences_absent.
  - apply elem_of_cons in Hid as [?|Hid]; [congruence|by apply IH].
Qed.

Lemma wf_ctor (ax1 ay1 ax2 ay2 : Z) (capacity : nat) (objs : gmap nat QuadTreeItem.t)
    (depth : nat) :
  (∀ id, QuadTreeItem.hasFlag (objs !!! id) QuadTreeItem.FLAG_ATTACHED = false) →
  wf (__ctor ax1 ay1 ax2 ay2 capacity objs depth).
Proof.
  intros Hobjs. constructor; simpl; try done.
  - constructor.
  - intros id. rewrite Hobjs. split; [done|by intros ?%elem_of_nil].
  - split; [|done]. by intros id ?%elem_of_nil.
Qed.

Lemma wf_addItem (t : QuadTree) (item : nat) :
  wf t →
  QuadTreeItem.hasFlag (heap t !!! item) QuadTreeItem.FLAG_ATTACHED = false →
  wf (addItem t item).1.
Proof.
  intros Hwf Hna. unfold addItem, root_addItem.
  destruct (Node.addItem _ _ _ _ _) as [r|] eqn:Hr; [|done].
  apply NodeFacts.addItem_Some in Hr as (Hext & Hperm & Hok).
  rewrite addItemOrdered_eq. simpl.
  assert (Hnotin : item ∉ orderedItems t).
  { rewrite <- (wf_attached t Hwf). congruence. }
  constructor; simpl.
  - rewrite insertOrdered_perm. constructor; [done|apply Hwf].
  - rewrite insertOrdered_perm, Hperm, (wf_tree t Hwf).
    apply Permutation_cons_append.
  - unfold LList.push. by rewrite Hperm, (wf_items t Hwf).
  - intros id. rewrite insertOrdered_perm, elem_of_cons.
    destruct (decide (id = item)) as [->|Hne].
    + rewrite lookup_total_insert_eq.
      rewrite FlagFacts.hasFlag_setInsertionBounds, FlagFacts.hasFlag_setFlag by done.
      naive_solver.
    + rewrite lookup_total_insert_ne by done.
      rewrite (wf_attached t Hwf). naive_solver.
  - eapply NodeFacts.nodeOk_ext; [|apply Hok, Hwf].
    intros id. simpl. destruct (decide (id = item)) as [->|Hne].
    + by rewrite lookup_total_insert_eq.
    + by rewrite lookup_total_insert_ne.
Qed.

Lemma wf_removeItem (t : QuadTree) (item : nat) :
  wf t → wf (removeItem t item).1.
Proof.
  intros Hwf. unfold removeItem, root_removeItem.
  destruct (QuadTreeItem.hasFlag _ _) eqn:Hatt; simpl; [|done].
  destruct (Node.removeItem (root t) item) as [r|] eqn:Hr; [|done].
  eapply NodeFacts.removeItem_Some in Hr as (Hext & Hperm & Hok).
  simpl.
  assert (Hin : item ∈ orderedItems t) by (by apply (wf_attached t Hwf)).
  pose proof (remove_sgetNode_perm _ _ Hin) as Ho.
  assert (Hin' : item ∈ items t).
  { by rewrite (wf_items t Hwf), <- (wf_tree t Hwf). }
  pose proof (remove_sgetNode_perm _ _ Hin') as Hi.
  set (o' := LList.remove (orderedItems t) _) in *.
  set (i' := LList.remove (items t) _) in *.
  pose proof (wf_nodup t Hwf) as Hnd. rewrite Ho in Hnd.
  apply NoDup_cons in Hnd as [Hnotin Hnd].
  constructor; simpl.
  - done.
  - apply (Permutation_cons_inv (a := item)).
    by rewrite <- Ho, <- Hperm, (wf_tree t Hwf).
  - apply (Permutation_cons_inv (a := item)).
    by rewrite <- Hi, <- Hperm, (wf_items t Hwf).
  - intros id. destruct (decide (id = item)) as [->|Hne].
    + rewrite lookup_total_insert_eq, FlagFacts.hasFlag_clearFlag. naive_solver.
    + rewrite lookup_total_insert_ne by done.
      rewrite (wf_attached t Hwf), Ho, elem_of_cons. naive_solver.
  - eapply NodeFacts.nodeOk_ext; [|apply Hok, Hwf].
    intros id. simpl. destruct (decide (id = item)) as [->|Hne].
    + by rewrite lookup_total_insert_eq.
    + by rewrite lookup_total_insert_ne.
Qed.

(** ** Sequences of addItem and removeItem *)

Lemma noFlag_empty (F : Z) : noFlag F ∅.
Proof. intros id. by rewrite lookup_total_empty. Qed.

Lemma noFlag_insert (F : Z) (objs : gmap nat QuadTreeItem.t) (k : nat) (it : QuadTreeItem.t) :
  QuadTreeItem.flags it = 0%Z → noFlag F objs → noFlag F (<[k := it]> objs).
Proof.
  intros Hit Hobjs id. destruct (decide (id = k)) as [->|Hne].
  - rewrite lookup_total_insert_eq. unfold QuadTreeItem.hasFlag. by rewrite Hit.
  - by rewrite lookup_total_insert_ne.
Qed.

Lemma wf_calls (t : QuadTree) (cs : list Call) :
  wf t → addsDetached t cs → wf (foldl call t cs).
Proof.
  revert t. induction cs as [|c cs IH]; intros t Hwf Hcs; simpl; [done|].
  destruct Hcs as [Hc Hcs]. apply IH; [|done].
  destruct c; simpl; [by apply wf_addItem|by apply wf_removeItem].
Qed.

(** C2, amended: for every finite sequence of addItem and removeItem calls
    starting from an empty tree in which addItem is only given items that are
    not attached at that moment, the list of all inserted items and the
    ordered draw list have equal size, and every item whose ATTACHED flag is
    set appears exactly once in each of the two lists. *)
Theorem add_remove_lists (ax1 ay1 ax2 ay2 : Z) (capacity : nat)
    (objs : gmap nat QuadTreeItem.t) (depth : nat) (cs : list Call) :
  detachedHeap objs →
  addsDetached (__ctor ax1 ay1 ax2 ay2 capacity objs depth) cs →
  let t := foldl call (__ctor ax1 ay1 ax2 ay2 capacity objs depth) cs in
  length (items t) = length (orderedItems t) ∧
  ∀ id,
    QuadTreeItem.hasFlag (heap t !!! id) QuadTreeItem.FLAG_ATTACHED = true →
    occurrences id (items t) = 1 ∧ occurrences id (orderedItems t) = 1.
Proof.
  intros Hobjs Hcs t.
  assert (Hwf : wf t) by (by apply wf_calls; [apply wf_ctor|]).
  assert (Hp : items t ≡ₚ orderedItems t).
  { by rewrite (wf_items t Hwf), (wf_tree t Hwf). }
  split; [by rewrite Hp|].
  intros id Hid. apply (wf_attached t Hwf) in Hid.
  split; apply occurrences_NoDup; try done.
  - rewrite Hp. apply Hwf.
  - by rewrite Hp.
  - apply Hwf.
Qed.

Lemma add_remove_lists_witness :
  let objs : gmap nat QuadTreeItem.t :=
    <[0 := newItem 0 0 10 10 0]> (<[1 := newItem 0 20 10 30 0]> ∅) in
  let cs := [CallAdd 0; CallAdd 1; CallRemove 0; CallAdd 0] in
  let t := foldl call (world objs) cs in
  detachedHeap objs ∧
  addsDetached (world objs) cs ∧
  length (items t) = length (orderedItems t) ∧
  ∀ id,
    QuadTreeItem.hasFlag (heap t !!! id) QuadTreeItem.FLAG_ATTACHED = true →
    occurrences id (items t) = 1 ∧ occurrences id (orderedItems t) = 1.
Proof.
  intros objs cs t.
  assert (H1 : detachedHeap objs).
  { apply noFlag_insert; [reflexivity|].
    apply noFlag_insert; [reflexivity|]. apply noFlag_empty. }
  assert (H2 : addsDetached (world objs) cs) by (vm_compute; repeat split).
  split; [exact H1|]. split; [exact H2|].
  exact (add_remove_lists (-100) (-100) 100 100 4 objs 8 cs H1 H2).
Defined.

(** C2 as stated fails: [addItem] of an item that is already attached links
    it a second time. *)
Lemma add_twice_duplicates :
  let t := foldl call (world (<[0 := newItem 0 0 10 10 0]> ∅))
             [CallAdd 0; CallAdd 0] in
  ¬ (∀ id,
       QuadTreeItem.hasFlag (heap t !!! id) QuadTreeItem.FLAG_ATTACHED = true →
       occurrences id (items t) = 1 ∧ occurrences id (orderedItems t) = 1).
Proof.
  intros t H. destruct (H 0) as [H1 _]; [vm_compute; reflexivity|].
  vm_compute in H1. discriminate.
Qed.

(** ** addItem, removeItem, updateItem *)

(** C9: when the root insertion fails, which is when the item's bounds are
    not inside the tree's extents, [addItem(item)] returns false and leaves
    all state unchanged: the draw list and the item's own fields are as they
    were. *)
Theorem addItem_failure (t : QuadTree) (item : ItemId) :
  root_addItem t item = None →
  addItem t item = (t, false) ∧
  Rect.contains (Node.getExtents (root t)) (QuadTreeItem.bounds (heap t !!! item)) = false.
Proof.
  intros Hr. unfold addItem. rewrite Hr. split; [done|].
  unfold root_addItem in Hr.
  destruct (Node.addItem _ _ _ _ _) eqn:Hn; [done|].
  by apply NodeFacts.addItem_None in Hn.
Qed.

Lemma addItem_failure_witness :
  root_addItem stray 0 = None ∧
  addItem stray 0 = (stray, false) ∧
  Rect.contains (Node.getExtents (root stray))
    (QuadTreeItem.bounds (heap stray !!! 0)) = false.
Proof.
  assert (H : root_addItem stray 0 = None) by (vm_compute; reflexivity).
  split; [exact H|]. exact (addItem_failure stray 0 H).
Defined.

Lemma removeItem_frame (t : QuadTree) (item : ItemId) :
  Node.getExtents (root (removeItem t item).1) = Node.getExtents (root t) ∧
  (∀ id, QuadTreeItem.bounds (heap (removeItem t item).1 !!! id)
         = QuadTreeItem.bounds (heap t !!! id)) ∧
  updateQueue (removeItem t item).1 = updateQueue t ∧
  (∀ id F, Z.land QuadTreeItem.FLAG_ATTACHED F = 0%Z →
           QuadTreeItem.hasFlag (heap (removeItem t item).1 !!! id) F
           = QuadTreeItem.hasFlag (heap t !!! id) F).
Proof.
  unfold removeItem, root_removeItem.
  destruct (QuadTreeItem.hasFlag _ _); simpl; [|done].
  destruct (Node.removeItem (root t) item) as [r|] eqn:Hr; [|done].
  eapply (NodeFacts.removeItem_Some (λ _, Rect.mk 0 0 0 0 0 0)) in Hr as (Hext & _ & _).
  simpl. split; [done|]. split; [|split; [done|]].
  - intros id. destruct (decide (id = item)) as [->|Hne].
    + by rewrite lookup_total_insert_eq.
    + by rewrite lookup_total_insert_ne.
  - intros id F HF. destruct (decide (id = item)) as [->|Hne].
    + by rewrite lookup_total_insert_eq, FlagFacts.hasFlag_clearFlag_other.
    + by rewrite lookup_total_insert_ne.
Qed.

Lemma removeItem_detached (u : QuadTree) (x : ItemId) :
  QuadTreeItem.hasFlag (heap u !!! x) QuadTreeItem.FLAG_ATTACHED = false →
  removeItem u x = (u, true).
Proof. intros Hu. unfold removeItem. by rewrite Hu. Qed.

Lemma removeItem_true (t : QuadTree) (x : ItemId) :
  (removeItem t x).2 = true →
  QuadTreeItem.hasFlag (heap (removeItem t x).1 !!! x) QuadTreeItem.FLAG_ATTACHED = false.
Proof.
  unfold removeItem, root_removeItem.
  destruct (QuadTreeItem.hasFlag (heap t !!! x) _) eqn:Hatt; simpl; [|done].
  destruct (Node.removeItem (root t) x); simpl; [|done].
  intros _. by rewrite lookup_total_insert_eq, FlagFacts.hasFlag_clearFlag.
Qed.

(** C5, amended: two consecutive calls of [removeItem(x)] both return (the
    operation has no failing path); the second call never modifies the tree,
    and once the first call has detached [x], so that [x] is no longer
    ATTACHED, the second call returns true. *)
Theorem removeItem_twice (t : QuadTree) (x : ItemId) :
  let t1 := (removeItem t x).1 in
  (removeItem t1 x).1 = t1 ∧
  ((removeItem t x).2 = true →
   QuadTreeItem.hasFlag (heap t1 !!! x) QuadTreeItem.FLAG_ATTACHED = false) ∧
  (QuadTreeItem.hasFlag (heap t1 !!! x) QuadTreeItem.FLAG_ATTACHED = false →
   removeItem t1 x = (t1, true)).
Proof.
  simpl.
  pose proof (λ u, removeItem_detached u x) as Hno.
  pose proof (removeItem_true t x) as H2.
  split; [|split; [done|apply Hno]].
  destruct (removeItem t x) as [t1 [|]] eqn:Hrem; simpl in *.
  - by rewrite (Hno t1 (H2 eq_refl)).
  - assert (t1 = t) as ->.
    { revert Hrem. unfold removeItem.
      destruct (negb _); [by intros [= <-]|].
      destruct (root_removeItem t x); by intros [= <-]. }
    by rewrite Hrem.
Qed.

Lemma removeItem_twice_witness :
  let t1 := (removeItem twins 0).1 in
  (removeItem twins 0).2 = true ∧
  QuadTreeItem.hasFlag (heap t1 !!! 0) QuadTreeItem.FLAG_ATTACHED = false ∧
  removeItem t1 0 = (t1, true).
Proof.
  intros t1.
  destruct (removeItem_twice twins 0) as (_ & H2 & H3).
  assert (H : (removeItem twins 0).2 = true) by (vm_compute; reflexivity).
  split; [exact H|]. split; [exact (H2 H)|exact (H3 (H2 H))].
Defined.

(** C5 as stated fails: the second call answers true, not false. *)
Lemma removeItem_twice_returns_true :
  let t1 := (removeItem twins 0).1 in
  QuadTreeItem.hasFlag (heap t1 !!! 0) QuadTreeItem.FLAG_ATTACHED = false ∧
  (removeItem t1 0).2 ≠ false.
Proof.
  split; [vm_compute; reflexivity|]. vm_compute. discriminate.
Qed.

Lemma addItem_frame (t : QuadTree) (item : ItemId) :
  updateQueue (addItem t item).1 = updateQueue t ∧
  (∀ id F, Z.land QuadTreeItem.FLAG_ATTACHED F = 0%Z →
           QuadTreeItem.hasFlag (heap (addItem t item).1 !!! id) F
           = QuadTreeItem.hasFlag (heap t !!! id) F).
Proof.
  unfold addItem, root_addItem.
  destruct (Node.addItem _ _ _ _ _) as [r|]; [|done].
  rewrite addItemOrdered_eq. simpl. split; [done|].
  intros id F HF. destruct (decide (id = item)) as [->|Hne].
  - rewrite lookup_total_insert_eq, FlagFacts.hasFlag_setInsertionBounds.
    by rewrite FlagFacts.hasFlag_setFlag_other.
  - by rewrite lookup_total_insert_ne.
Qed.

(** What a successful [addItem] leaves behind. *)
Lemma addItem_true (t : QuadTree) (item : ItemId) :
  (addItem t item).2 = true →
  QuadTreeItem.hasFlag (heap (addItem t item).1 !!! item) QuadTreeItem.FLAG_ATTACHED = true ∧
  item ∈ orderedItems (addItem t item).1 ∧
  item ∈ Node.allItems (root (addItem t item).1).
Proof.
  unfold addItem, root_addItem.
  destruct (Node.addItem _ _ _ _ _) as [r|] eqn:Hr; [|done].
  apply NodeFacts.addItem_Some in Hr as (_ & Hperm & _).
  rewrite addItemOrdered_eq. simpl. intros _. split_and!.
  - rewrite lookup_total_insert_eq, FlagFacts.hasFlag_setInsertionBounds.
    by rewrite FlagFacts.hasFlag_setFlag.
  - rewrite insertOrdered_perm. by left.
  - rewrite Hperm, elem_of_app. right. by left.
Qed.

Lemma addItem_false (t : QuadTree) (item : ItemId) :
  (addItem t item).2 = false ↔
  Rect.contains (Node.getExtents (root t)) (QuadTreeItem.bounds (heap t !!! item)) = false.
Proof.
  rewrite <- (NodeFacts.addItem_None (depthBound t) (heap t) (nodeCapacity t)).
  unfold addItem, root_addItem.
  destruct (Node.addItem _ _ _ _ _) as [r|]; simpl; split; intros H; congruence.
Qed.

(** On a well-formed tree [removeItem] of an attached item detaches it. *)
Lemma removeItem_detaches (t : QuadTree) (item : ItemId) :
  wf t →
  QuadTreeItem.hasFlag (heap t !!! item) QuadTreeItem.FLAG_ATTACHED = true →
  (removeItem t item).2 = true ∧
  ¬ (item ∈ orderedItems (removeItem t item).1) ∧
  QuadTreeItem.hasFlag (heap (removeItem t item).1 !!! item) QuadTreeItem.FLAG_ATTACHED = false.
Proof.
  intros Hwf Hatt.
  assert (Hret : (removeItem t item).2 = true).
  { unfold removeItem, root_removeItem. rewrite Hatt. simpl.
    destruct (Node.removeItem (root t) item) eqn:Hr; [done|].
    apply NodeFacts.removeItem_None in Hr. exfalso. apply Hr.
    rewrite <- (wf_tree t Hwf). by apply (wf_attached t Hwf). }
  pose proof (removeItem_true t item Hret) as Hflag.
  split; [done|]. split; [|done].
  pose proof (wf_removeItem t item Hwf) as Hwf'.
  rewrite <- (wf_attached _ Hwf'). congruence.
Qed.

Lemma wf_twins : wf twins.
Proof.
  unfold twins. apply wf_addItem; [apply wf_addItem|]; try (vm_compute; reflexivity).
  apply wf_ctor.
  apply noFlag_insert; [reflexivity|].
  apply noFlag_insert; [reflexivity|]. apply noFlag_empty.
Qed.

Lemma wf_column : wf column.
Proof.
  unfold column. apply wf_addItem; [apply wf_addItem|]; try (vm_compute; reflexivity).
  apply wf_ctor.
  apply noFlag_insert; [reflexivity|].
  apply noFlag_insert; [reflexivity|]. apply noFlag_empty.
Qed.

(** ** The update queue *)

Lemma queueInv_ctor (ax1 ay1 ax2 ay2 : Z) (capacity : nat)
    (objs : gmap nat QuadTreeItem.t) (depth : nat) :
  noFlag QuadTreeItem.FLAG_QUEUED objs →
  queueInv (__ctor ax1 ay1 ax2 ay2 capacity objs depth).
Proof.
  intros Hobjs. split; simpl; [constructor|].
  intros id. rewrite Hobjs. split; [done|by intros ?%elem_of_nil].
Qed.

Lemma queueInv_addItem (t : QuadTree) (item : ItemId) :
  queueInv t → queueInv (addItem t item).1.
Proof.
  intros [Hnd Hq]. destruct (addItem_frame t item) as [Hu Hf].
  split; rewrite Hu; [done|]. intros id. by rewrite Hf.
Qed.

Lemma queueInv_removeItem (t : QuadTree) (item : ItemId) :
  queueInv t → queueInv (removeItem t item).1.
Proof.
  intros [Hnd Hq]. destruct (removeItem_frame t item) as (_ & _ & Hu & Hf).
  split; rewrite Hu; [done|]. intros id. by rewrite Hf.
Qed.

(** The queue and the QUEUED flags after an [updateItem] that returned. *)
Lemma updateItem_queue (t : QuadTree) (item : ItemId) (t' : QuadTree) :
  updateItem t item = (t', Returned) →
  updateQueue t' =
    (if QuadTreeItem.hasFlag (heap t !!! item) QuadTreeItem.FLAG_QUEUED
     then updateQueue t else updateQueue t ++ [item]) ∧
  ∀ id, QuadTreeItem.hasFlag (heap t' !!! id) QuadTreeItem.FLAG_QUEUED =
        if decide (id = item) then true
        else QuadTreeItem.hasFlag (heap t !!! id) QuadTreeItem.FLAG_QUEUED.
Proof.
  unfold updateItem.
  destruct (removeItem_frame t item) as (_ & _ & Hu1 & Hf1).
  destruct (addItem_frame (removeItem t item).1 item) as [Hu2 Hf2].
  destruct (addItem (removeItem t item).1 item) as [t2 ok]. simpl in Hu2, Hf2.
  assert (Hf : ∀ id, QuadTreeItem.hasFlag (heap t2 !!! id) QuadTreeItem.FLAG_QUEUED
                     = QuadTreeItem.hasFlag (heap t !!! id) QuadTreeItem.FLAG_QUEUED).
  { intros id. by rewrite Hf2, Hf1. }
  destruct ok; simpl; [|done]. rewrite <- (Hf item).
  destruct (QuadTreeItem.hasFlag (heap t2 !!! item) QuadTreeItem.FLAG_QUEUED) eqn:Hq;
    intros [= <-]; simpl.
  - split; [congruence|]. intros id. case_decide; [by subst|apply Hf].
  - split; [unfold LList.push; congruence|]. intros id. case_decide as Hd.
    + subst. by rewrite lookup_total_insert_eq, FlagFacts.hasFlag_setFlag.
    + rewrite lookup_total_insert_ne by done. apply Hf.
Qed.

Lemma updateItem_queueInv (t : QuadTree) (item : ItemId) (t' : QuadTree) :
  queueInv t → updateItem t item = (t', Returned) →
  updateQueue t' = enqueue (updateQueue t) item ∧ queueInv t'.
Proof.
  intros [Hnd Hq] Hup. apply updateItem_queue in Hup as [Hu Hf].
  unfold enqueue. unfold queueInv. rewrite Hu.
  destruct (QuadTreeItem.hasFlag (heap t !!! item) QuadTreeItem.FLAG_QUEUED) eqn:Hflag.
  - assert (Hin : item ∈ updateQueue t) by (by apply Hq).
    rewrite decide_True by done. split; [done|]. split; [done|].
    intros id. rewrite Hf. case_decide; [by subst|apply Hq].
  - assert (Hout : item ∉ updateQueue t) by (rewrite <- Hq; congruence).
    rewrite decide_False by done. split; [done|]. split.
    + apply NoDup_app. split; [done|]. split; [|apply NoDup_singleton].
      intros x Hx ->%list_elem_of_singleton. done.
    + intros id. rewrite Hf, elem_of_app, list_elem_of_singleton.
      case_decide; [naive_solver|]. rewrite Hq. naive_solver.
Qed.

Lemma updateItems_queueInv (ids : list ItemId) (t t' : QuadTree) :
  queueInv t → updateItems t ids = (t', Returned) →
  updateQueue t' = foldl enqueue (updateQueue t) ids ∧ queueInv t'.
Proof.
  revert t. induction ids as [|i ids IH]; intros t Hq; simpl.
  - by intros [= <-].
  - destruct (updateItem t i) as [t1 [|m]] eqn:Hup; [|done].
    destruct (updateItem_queueInv t i t1 Hq Hup) as [Hu Hq1].
    intros Hrest. destruct (IH t1 Hq1 Hrest) as [Hu' Hq'].
    by rewrite Hu', Hu.
Qed.

(** The loop of [update] given enough iterations. *)
Lemma update_loop_spec (fuel : nat) (t : QuadTree) (calls : list ItemId) :
  length (updateQueue t) ≤ fuel →
  (update_loop fuel t calls).2 = calls ++ updateQueue t ∧
  updateQueue (update_loop fuel t calls).1 = [] ∧
  orderedItems (update_loop fuel t calls).1 = orderedItems t ∧
  items (update_loop fuel t calls).1 = items t ∧
  root (update_loop fuel t calls).1 = root t ∧
  ∀ id, QuadTreeItem.hasFlag (heap (update_loop fuel t calls).1 !!! id)
          QuadTreeItem.FLAG_QUEUED =
        if decide (id ∈ updateQueue t) then false
        else QuadTreeItem.hasFlag (heap t !!! id) QuadTreeItem.FLAG_QUEUED.
Proof.
  revert t calls. induction fuel as [|f IH]; intros t calls Hlen.
  - destruct (updateQueue t) as [|i rest] eqn:Hq; simpl in Hlen; [|lia].
    simpl. rewrite Hq. simpl. rewrite Hq, app_nil_r. split_and!; try done;
      try (intros id; rewrite decide_False by (by intros ?%elem_of_nil); done).
  - simpl. destruct (updateQueue t) as [|i rest] eqn:Hq; simpl.
    + rewrite Hq, app_nil_r. split_and!; try done;
        try (intros id; rewrite decide_False by (by intros ?%elem_of_nil); done).
    + simpl in Hlen.
      match goal with |- context [update_loop f ?u ?c] =>
        destruct (IH u c) as (H1 & H2 & H3 & H4 & H5 & H6); [simpl; lia|] end.
      simpl in *. rewrite H1, H2, H3, H4, H5, <- app_assoc. split_and!; try done.
      intros id. rewrite H6. destruct (decide (id = i)) as [->|Hne].
      * rewrite lookup_total_insert_eq, FlagFacts.hasFlag_clearFlag.
        rewrite (decide_True (P := i ∈ i :: rest)) by (by left).
        by case_decide.
      * rewrite lookup_total_insert_ne by done.
        destruct (decide (id ∈ rest)) as [Hin|Hout].
        -- by rewrite decide_True by (by right).
        -- rewrite decide_False; [done|]. by intros [?|?]%elem_of_cons.
Qed.

Lemma queueInv_twins : queueInv twins.
Proof.
  unfold twins. do 2 apply queueInv_addItem. apply queueInv_ctor.
  apply noFlag_insert; [reflexivity|].
  apply noFlag_insert; [reflexivity|]. apply noFlag_empty.
Qed.

(** C6: [update()] drains the pending-update queue first in, first out: the
    items are notified in the order in which the [updateItem] calls first
    enqueued them, each exactly once; every QUEUED flag is cleared and the
    queue is left empty. *)
Theorem update_drains_fifo (t t1 : QuadTree) (ids : list ItemId) :
  queueInv t →
  updateItems t ids = (t1, Returned) →
  (update t1).2 = foldl enqueue (updateQueue t) ids ∧
  NoDup (update t1).2 ∧
  updateQueue (update t1).1 = [] ∧
  ∀ id, QuadTreeItem.hasFlag (heap (update t1).1 !!! id) QuadTreeItem.FLAG_QUEUED = false.
Proof.
  intros Hq Hups.
  destruct (updateItems_queueInv ids t t1 Hq Hups) as [Hu [Hnd Hflags]].
  unfold update.
  destruct (update_loop_spec (length (updateQueue t1)) t1 [] (le_n _))
    as (H1 & H2 & _ & _ & _ & H6).
  rewrite H1, H2. simpl. rewrite <- Hu. split_and!; try done.
  intros id. rewrite H6. case_decide as Hin; [done|].
  destruct (QuadTreeItem.hasFlag (heap t1 !!! id) QuadTreeItem.FLAG_QUEUED) eqn:Hf; [|done].
  by apply Hflags in Hf.
Qed.

Lemma update_drains_fifo_witness :
  let t1 := (updateItems twins [1; 0; 1]).1 in
  queueInv twins ∧
  updateItems twins [1; 0; 1] = (t1, Returned) ∧
  (update t1).2 = [1; 0] ∧
  updateQueue (update t1).1 = [].
Proof.
  intros t1.
  assert (H : updateItems twins [1; 0; 1] = (t1, Returned)) by (vm_compute; reflexivity).
  destruct (update_drains_fifo twins t1 [1; 0; 1] queueInv_twins H) as (Hc & _ & He & _).
  split; [exact queueInv_twins|]. split; [exact H|]. split; [exact Hc|exact He].
Defined.

Lemma enqueue_idem (q : list nat) (i : nat) : enqueue (enqueue q i) i = enqueue q i.
Proof.
  unfold enqueue. destruct (decide (i ∈ q)) as [Hin|Hout].
  - by rewrite decide_True.
  - rewrite decide_True; [done|]. apply elem_of_app. right. by left.
Qed.

Lemma foldl_enqueue_replicate (n : nat) (q : list nat) (i : nat) :
  foldl enqueue q (replicate (S n) i) = enqueue q i.
Proof.
  revert q. induction n as [|n IH]; intros q; [done|].
  change (foldl enqueue (enqueue q i) (replicate (S n) i) = enqueue q i).
  by rewrite IH, enqueue_idem.
Qed.

(** C8: however often [updateItem(item)] is called before the next
    [update()], the item is in the pending-update queue once: the first
    call that returns appends it and sets QUEUED, unless it was queued
    already, and every later call leaves the queue as it is. *)
Theorem updateItem_enqueues_once (t t' : QuadTree) (item : ItemId) (n : nat) :
  queueInv t →
  updateItems t (replicate (S n) item) = (t', Returned) →
  updateQueue t' = enqueue (updateQueue t) item ∧
  (QuadTreeItem.hasFlag (heap t !!! item) QuadTreeItem.FLAG_QUEUED = false →
   updateQueue t' = updateQueue t ++ [item]) ∧
  QuadTreeItem.hasFlag (heap t' !!! item) QuadTreeItem.FLAG_QUEUED = true ∧
  occurrences item (updateQueue t') = 1.
Proof.
  intros Hq Hups.
  destruct (updateItems_queueInv _ t t' Hq Hups) as [Hu [Hnd Hflags]].
  rewrite foldl_enqueue_replicate in Hu.
  assert (Hin : item ∈ updateQueue t').
  { rewrite Hu. unfold enqueue. case_decide; [done|].
    apply elem_of_app. right. by left. }
  split_and!; try done.
  - intros Hflag. rewrite Hu. unfold enqueue.
    rewrite decide_False; [done|]. destruct Hq as [_ Hq]. rewrite <- Hq. congruence.
  - by apply Hflags.
  - by apply occurrences_NoDup.
Qed.

Lemma updateItem_enqueues_once_witness :
  let t' := (updateItems twins (replicate 3 0)).1 in
  queueInv twins ∧
  updateItems twins (replicate 3 0) = (t', Returned) ∧
  updateQueue t' = [0] ∧
  occurrences 0 (updateQueue t') = 1.
Proof.
  intros t'.
  assert (H : updateItems twins (replicate 3 0) = (t', Returned))
    by (vm_compute; reflexivity).
  destruct (updateItem_enqueues_once twins t' 0 2 queueInv_twins H) as (Hu & _ & _ & Ho).
  split; [exact queueInv_twins|]. split; [exact H|]. split; [exact Hu|exact Ho].
Defined.

(** ** The selection cursor *)

Lemma remaining_step (t : QuadTree) (rev : bool) (i : nat) :
  i < length (orderedItems t) →
  ∃ v, orderedItems t !! i = Some v ∧
       remaining (orderedItems t) rev (Some i)
       = v :: remaining (orderedItems t) rev (advance t rev i) ∧
       cursorOk (orderedItems t) (advance t rev i).
Proof.
  intros Hi. destruct (lookup_lt_is_Some_2 _ _ Hi) as [v Hv].
  exists v. split; [done|]. unfold advance, remaining, cursorOk.
  destruct rev.
  - rewrite (take_S_r _ _ _ Hv), reverse_snoc. unfold LList.prev.
    destruct i as [|j]; [by rewrite take_0|].
    split; [done|]. intros k [= <-]. lia.
  - rewrite (drop_S _ _ _ Hv). unfold LList.next.
    destruct (S i <? length (orderedItems t)) eqn:Hlt.
    + split; [done|]. intros k [= <-]. by apply Nat.ltb_lt.
    + apply Nat.ltb_ge in Hlt. by rewrite drop_ge.
Qed.

Lemma remaining_length (l : list nat) (rev : bool) (cur : option nat) :
  length (remaining l rev cur) ≤ length l.
Proof.
  destruct cur as [i|]; simpl; [|lia]. destruct rev.
  - rewrite length_reverse, length_take. lia.
  - rewrite length_drop. lia.
Qed.

(** The first loop of [getNextSelected], given enough iterations: it passes
    unselected items and stops on the first selected one, or runs off the
    list. *)
Lemma skipUnselected_spec (t : QuadTree) (rev : bool) (fuel : nat) (cur : option nat) :
  cursorOk (orderedItems t) cur →
  length (remaining (orderedItems t) rev cur) ≤ fuel →
  ∃ skipped,
    remaining (orderedItems t) rev cur
    = skipped ++ remaining (orderedItems t) rev (skipUnselected fuel t rev cur) ∧
    Forall (λ v, isSelected (heap t) v = false) skipped ∧
    cursorOk (orderedItems t) (skipUnselected fuel t rev cur) ∧
    match skipUnselected fuel t rev cur with
    | None => True
    | Some i => ∃ v, orderedItems t !! i = Some v ∧ isSelected (heap t) v = true
    end.
Proof.
  revert cur. induction fuel as [|f IH]; intros cur Hok Hlen.
  - destruct cur as [i|]; [|exists []; by simpl].
    destruct (remaining_step t rev i (Hok i eq_refl)) as (v & Hv & Hrem & _).
    rewrite Hrem in Hlen. simpl in Hlen. lia.
  - destruct cur as [i|]; [|exists []; by simpl].
    destruct (remaining_step t rev i (Hok i eq_refl)) as (v & Hv & Hrem & Hok').
    cbn [skipUnselected]. rewrite Hv.
    destruct (QuadTreeItem.hasFlag (heap t !!! v) QuadTreeItem.FLAG_SELECTED) eqn:Hsel.
    + exists []. split_and!; try done. by exists v.
    + rewrite Hrem in Hlen. simpl in Hlen.
      destruct (IH (advance t rev i) Hok' ltac:(lia)) as (sk & Hsk & Hall & Hok'' & Hres).
      exists (v :: sk). split_and!; try done.
      * rewrite Hrem. simpl. by f_equal.
      * by constructor.
Qed.

Lemma getNextSelected_spec (t : QuadTree) (reverse : option bool) :
  cursorOk (orderedItems t) (nextItem t) →
  ∃ skipped,
    Forall (λ v, isSelected (heap t) v = false) skipped ∧
    ((remaining (orderedItems t) (direction t reverse) (nextItem t) = skipped ∧
      getNextSelected t reverse = (set_nextItem t None, None))
     ∨
     (∃ v rest t',
        remaining (orderedItems t) (direction t reverse) (nextItem t)
        = skipped ++ v :: rest ∧
        isSelected (heap t) v = true ∧
        getNextSelected t reverse = (t', Some v) ∧
        yields t (direction t reverse) v rest t')).
Proof.
  intros Hok. unfold getNextSelected. fold (direction t reverse).
  set (rev := direction t reverse).
  destruct (skipUnselected_spec t rev (length (orderedItems t)) (nextItem t) Hok
              (remaining_length _ _ _)) as (sk & Hsk & Hall & Hok' & Hres).
  exists sk. split; [done|].
  destruct (skipUnselected _ t rev (nextItem t)) as [i|] eqn:Hcur.
  - right. destruct Hres as (v & Hv & Hsel).
    destruct (remaining_step t rev i (Hok' i eq_refl)) as (v' & Hv' & Hrem & Hok'').
    assert (v' = v) as -> by congruence.
    simpl. rewrite Hv. simpl.
    eexists v, _, _. split; [by rewrite Hsk, Hrem|]. split; [done|].
    split; [reflexivity|].
    unfold yields; simpl. split_and!; try done.
    intros id. destruct (decide (id = v)) as [->|Hne].
    + by rewrite !lookup_total_insert_eq.
    + by rewrite !lookup_total_insert_ne.
  - left. simpl in Hsk. rewrite app_nil_r in Hsk. by split.
Qed.

Lemma remaining_lookup (l : list nat) (rev : bool) (i : nat) (v : nat) :
  v ∈ remaining l rev (Some i) →
  ∃ k, (if rev then k ≤ i else i ≤ k) ∧ l !! k = Some v.
Proof.
  unfold remaining. destruct rev.
  - rewrite elem_of_reverse, elem_of_take. intros (k & Hk & Hlt).
    exists k. split; [lia|done].
  - intros (j & Hj)%list_elem_of_lookup_1. rewrite lookup_drop in Hj.
    exists (i + j). split; [lia|done].
Qed.

(** C10: when no SELECTED item remains at or beyond the cursor, in the
    direction of the walk (a null cursor included), [getNextSelected]
    returns null and leaves [selectedCount], [selectedIndex] and every item
    as they were; [selectedCount] may thus stay positive. *)
Theorem getNextSelected_exhausted (t : QuadTree) (reverse : option bool) :
  (∀ i k v, nextItem t = Some i →
            (if direction t reverse then k ≤ i else i ≤ k) →
            orderedItems t !! k = Some v →
            isSelected (heap t) v = false) →
  let r := getNextSelected t reverse in
  r.2 = None ∧
  selectedCount r.1 = selectedCount t ∧
  selectedIndex r.1 = selectedIndex t ∧
  heap r.1 = heap t ∧
  orderedItems r.1 = orderedItems t.
Proof.
  intros Hnone. simpl.
  assert (Hres : getNextSelected t reverse = (set_nextItem t None, None));
    [|by rewrite Hres].
  destruct (nextItem t) as [i|] eqn:Hcur.
  - destruct (decide (i < length (orderedItems t))) as [Hlt|Hge].
    + assert (Hok : cursorOk (orderedItems t) (nextItem t)).
      { intros j Hj. rewrite Hcur in Hj. by injection Hj as <-. }
      destruct (getNextSelected_spec t reverse Hok) as (sk & Hall & [[_ Hg]|Hg]); [done|].
      destruct Hg as (v & rest & t' & Hrem & Hsel & _).
      assert (Hin : v ∈ remaining (orderedItems t) (direction t reverse) (nextItem t)).
      { rewrite Hrem, elem_of_app. right. by left. }
      rewrite Hcur in Hin. apply remaining_lookup in Hin as (k & Hk & Hv).
      rewrite (Hnone i k v eq_refl Hk Hv) in Hsel. discriminate.
    + assert (Hl : orderedItems t !! i = None) by (apply lookup_ge_None; lia).
      unfold getNextSelected. rewrite Hcur.
      assert (Hs : ∀ fuel rev, skipUnselected fuel t rev (Some i) = None).
      { intros fuel rev. destruct fuel; simpl; by rewrite Hl. }
      by rewrite Hs.
  - unfold getNextSelected. rewrite Hcur.
    assert (Hs : ∀ fuel rev, skipUnselected fuel t rev None = None)
      by (by intros [|f] rev).
    by rewrite Hs.
Qed.

Lemma getNextSelected_exhausted_witness :
  (∀ i k v, nextItem stranded = Some i →
            (if direction stranded None then k ≤ i else i ≤ k) →
            orderedItems stranded !! k = Some v →
            isSelected (heap stranded) v = false) ∧
  (getNextSelected stranded None).2 = None ∧
  selectedCount (getNextSelected stranded None).1 = 1%Z ∧
  isSelected (heap (getNextSelected stranded None).1) 1 = true.
Proof.
  assert (H : ∀ i k v, nextItem stranded = Some i →
            (if direction stranded None then k ≤ i else i ≤ k) →
            orderedItems stranded !! k = Some v →
            isSelected (heap stranded) v = false).
  { intros i k v Hi. vm_compute in Hi. discriminate Hi. }
  destruct (getNextSelected_exhausted stranded None H) as (Hr & Hc & _ & Hh & _).
  split; [exact H|]. split; [exact Hr|]. split.
  - rewrite Hc. vm_compute. reflexivity.
  - rewrite Hh. vm_compute. reflexivity.
Defined.

(** ** Selecting a region *)

Module SelectFacts.
Import Node.

Section Region.
Variable rect : option Rect.t.
Variable fn : option (ItemId → QuadTreeItem.t → bool).

Lemma matches_ext (h h' : gmap nat QuadTreeItem.t) (id : nat) :
  h' !!! id = h !!! id → matches rect fn h' id = matches rect fn h id.
Proof. unfold matches. by intros ->. Qed.

Lemma filter_matches_ext (h h' : gmap nat QuadTreeItem.t) (l : list nat) :
  (∀ id, id ∈ l → h' !!! id = h !!! id) →
  filter (λ id, matches rect fn h' id = true) l
  = filter (λ id, matches rect fn h id = true) l.
Proof.
  induction l as [|x l IH]; intros Hl; [done|].
  rewrite !filter_cons, (matches_ext h h' x) by (apply Hl; by left).
  rewrite IH by (intros id Hid; apply Hl; by right). done.
Qed.

Lemma Selects_nil acc : Selects rect fn [] acc acc.
Proof.
  split; [|simpl; lia]. intros id.
  rewrite bool_decide_eq_false_2; [done|]. by intros ?%elem_of_nil.
Qed.

Lemma Selects_skip l acc :
  (∀ id, id ∈ l → matches rect fn acc.1 id = false) →
  Selects rect fn l acc acc.
Proof.
  intros Hl. split.
  - intros id. destruct (bool_decide (id ∈ l)) eqn:Hin; [|done].
    apply bool_decide_eq_true in Hin. by rewrite (Hl id Hin).
  - assert (Hf : filter (λ id, matches rect fn acc.1 id = true) l = []).
    { induction l as [|x l IH]; [done|]. rewrite filter_cons.
      rewrite (Hl x) by (by left). rewrite decide_False by done.
      apply IH. intros id Hid. apply Hl. by right. }
    rewrite Hf. simpl. lia.
Qed.

Lemma Selects_one acc x : Selects rect fn [x] acc (selectOne rect fn acc x).
Proof.
  unfold selectOne. fold (matches rect fn acc.1 x). split.
  - intros id. destruct (decide (id = x)) as [->|Hne].
    + rewrite bool_decide_eq_true_2 by (by left). simpl.
      destruct (matches rect fn acc.1 x); simpl; [|done].
      by rewrite lookup_total_insert_eq.
    + rewrite bool_decide_eq_false_2 by (by intros ?%list_elem_of_singleton).
      simpl. destruct (matches rect fn acc.1 x); simpl; [|done].
      by rewrite lookup_total_insert_ne.
  - rewrite filter_cons, filter_nil.
    destruct (matches rect fn acc.1 x); simpl; lia.
Qed.

Lemma Selects_app l1 l2 acc r1 r2 :
  (∀ x, x ∈ l1 → x ∉ l2) →
  Selects rect fn l1 acc r1 → Selects rect fn l2 r1 r2 →
  Selects rect fn (l1 ++ l2) acc r2.
Proof.
  intros Hdisj [H1 C1] [H2 C2].
  assert (Hsame : ∀ id, id ∈ l2 → r1.1 !!! id = acc.1 !!! id).
  { intros id Hid. rewrite H1. rewrite bool_decide_eq_false_2; [done|].
    intros Hin. by apply (Hdisj id). }
  split.
  - intros id. rewrite H2.
    destruct (decide (id ∈ l2)) as [Hin2|Hout2].
    + rewrite (bool_decide_eq_true_2 (id ∈ l2)) by done.
      rewrite (bool_decide_eq_true_2 (id ∈ l1 ++ l2))
        by (apply elem_of_app; by right).
      rewrite (matches_ext acc.1 r1.1 id) by (by apply Hsame).
      by rewrite (Hsame id Hin2).
    + rewrite (bool_decide_eq_false_2 (id ∈ l2)) by done. simpl.
      rewrite H1. destruct (decide (id ∈ l1)) as [Hin1|Hout1].
      * rewrite !bool_decide_eq_true_2; [done|apply elem_of_app; by left|done].
      * rewrite !bool_decide_eq_false_2; [done| |done].
        by intros [?|?]%elem_of_app.
  - rewrite C2, C1, filter_app, length_app.
    rewrite (filter_matches_ext acc.1 r1.1 l2) by done. lia.
Qed.

Lemma Selects_bounds l acc r :
  Selects rect fn l acc r →
  ∀ id, QuadTreeItem.bounds (r.1 !!! id) = QuadTreeItem.bounds (acc.1 !!! id).
Proof. intros [H _] id. rewrite H. by case_match. Qed.

Lemma foldl_selectOne l acc :
  NoDup l → Selects rect fn l acc (foldl (selectOne rect fn) acc l).
Proof.
  revert acc. induction l as [|x l IH]; intros acc Hnd; simpl.
  - apply Selects_nil.
  - apply NoDup_cons in Hnd as [Hx Hnd].
    apply (Selects_app [x] l acc (selectOne rect fn acc x)).
    + by intros y ->%list_elem_of_singleton.
    + apply Selects_one.
    + by apply IH.
Qed.

(** A child whose bounds miss the region holds no matching item. *)
Lemma pruned (m : QuadTreeNode) (h : gmap nat QuadTreeItem.t) :
  nodeOk (λ i, QuadTreeItem.bounds (h !!! i)) m →
  inRegion rect (getExtents m) = false →
  ∀ id, id ∈ allItems m → matches rect fn h id = false.
Proof.
  intros Hok Hout id Hid.
  pose proof (NodeFacts.nodeOk_inside _ _ _ Hok Hid) as Hin. simpl in Hin.
  unfold matches. apply andb_false_iff. left.
  destruct rect as [q|]; simpl in *; [|done].
  unfold Rect.intersects, Rect.contains in *.
  apply not_true_iff_false. intros Hint. apply not_true_iff_false in Hout.
  apply Hout. bool_to_prop. lia.
Qed.

Lemma visit_Selects (m : QuadTreeNode) (r : gmap nat QuadTreeItem.t * Z) :
  (∀ acc, NoDup (allItems m) →
          nodeOk (λ i, QuadTreeItem.bounds (acc.1 !!! i)) m →
          Selects rect fn (allItems m) acc (selectItems rect fn m acc)) →
  NoDup (allItems m) →
  nodeOk (λ i, QuadTreeItem.bounds (r.1 !!! i)) m →
  Selects rect fn (allItems m) r
    (if inRegion rect (getExtents m) then selectItems rect fn m r else r).
Proof.
  intros IH Hnd Hok. destruct (inRegion rect (getExtents m)) eqn:Hreg.
  - by apply IH.
  - apply Selects_skip. by apply pruned.
Qed.

(** [selectInRegion] marks and counts exactly the matching items below
    the node, the pruning of children notwithstanding. *)
Lemma selectItems_Selects (n : QuadTreeNode) (acc : gmap nat QuadTreeItem.t * Z) :
  NoDup (allItems n) →
  nodeOk (λ i, QuadTreeItem.bounds (acc.1 !!! i)) n →
  Selects rect fn (allItems n) acc (selectItems rect fn n acc).
Proof.
  revert acc. induction n as [e its|e its a IHa b IHb c IHc d IHd];
    intros acc Hnd Hok; cbn [selectItems allItems].
  - by apply foldl_selectOne.
  - cbn [allItems] in Hnd.
    apply NoDup_app in Hnd as (Hn0 & Hd0 & Hnd).
    apply NoDup_app in Hnd as (Hna & Hda & Hnd).
    apply NoDup_app in Hnd as (Hnb & Hdb & Hnd).
    apply NoDup_app in Hnd as (Hnc & Hdc & Hnd).
    destruct Hok as (_ & Hoa & Hob & Hoc & Hod).
    pose proof (foldl_selectOne its acc Hn0) as S0.
    set (r0 := foldl (selectOne rect fn) acc its) in *.
    pose proof (Selects_bounds _ _ _ S0) as B0.
    assert (S1 := visit_Selects a r0 IHa Hna
                    (NodeFacts.nodeOk_ext _ _ a B0 Hoa)).
    set (r1 := if inRegion rect (getExtents a) then _ else r0) in *.
    assert (B1 : ∀ id, QuadTreeItem.bounds (r1.1 !!! id)
                       = QuadTreeItem.bounds (acc.1 !!! id)).
    { intros id. by rewrite (Selects_bounds _ _ _ S1), B0. }
    assert (S2 := visit_Selects b r1 IHb Hnb
                    (NodeFacts.nodeOk_ext _ _ b B1 Hob)).
    set (r2 := if inRegion rect (getExtents b) then _ else r1) in *.
    assert (B2 : ∀ id, QuadTreeItem.bounds (r2.1 !!! id)
                       = QuadTreeItem.bounds (acc.1 !!! id)).
    { intros id. by rewrite (Selects_bounds _ _ _ S2), B1. }
    assert (S3 := visit_Selects c r2 IHc Hnc
                    (NodeFacts.nodeOk_ext _ _ c B2 Hoc)).
    set (r3 := if inRegion rect (getExtents c) then _ else r2) in *.
    assert (B3 : ∀ id, QuadTreeItem.bounds (r3.1 !!! id)
                       = QuadTreeItem.bounds (acc.1 !!! id)).
    { intros id. by rewrite (Selects_bounds _ _ _ S3), B2. }
    assert (S4 := visit_Selects d r3 IHd Hnd
                    (NodeFacts.nodeOk_ext _ _ d B3 Hod)).
    eapply Selects_app; [done|exact S0|].
    eapply Selects_app; [done|exact S1|].
    eapply Selects_app; [done|exact S2|].
    eapply Selects_app; [done|exact S3|exact S4].
Qed.

End Region.
End SelectFacts.

(** ** Draining a selection *)

Lemma filter_bool_ext (f g : nat → bool) (l : list nat) :
  (∀ x, x ∈ l → f x = g x) →
  filter (λ x, f x = true) l = filter (λ x, g x = true) l.
Proof.
  induction l as [|x l IH]; intros Hl; [done|].
  rewrite !filter_cons, (Hl x) by (by left).
  rewrite IH by (intros y Hy; apply Hl; by right). done.
Qed.

Lemma filter_bool_none (f : nat → bool) (l : list nat) :
  Forall (λ x, f x = false) l → filter (λ x, f x = true) l = [].
Proof.
  induction 1 as [|x l Hx Hl IH]; [done|].
  rewrite filter_cons, Hx. by rewrite decide_False by done.
Qed.

(** Draining returns the selected items ahead of the cursor, in the order
    of the walk, and leaves none of them marked. *)
Lemma drainSelected_spec (fuel : nat) (t : QuadTree) :
  cursorOk (orderedItems t) (nextItem t) →
  NoDup (remaining (orderedItems t) (isReverse t) (nextItem t)) →
  length (remaining (orderedItems t) (isReverse t) (nextItem t)) < fuel →
  ∃ t',
    drainSelected fuel t
    = Some (t', filter (λ v, isSelected (heap t) v = true)
                  (remaining (orderedItems t) (isReverse t) (nextItem t))) ∧
    nextItem t' = None ∧
    orderedItems t' = orderedItems t ∧
    selectedCount t' =
      (selectedCount t
       - Z.of_nat (length (filter (λ v, isSelected (heap t) v = true)
                             (remaining (orderedItems t) (isReverse t) (nextItem t)))))%Z ∧
    ∀ id, isSelected (heap t') id =
          if bool_decide (id ∈ remaining (orderedItems t) (isReverse t) (nextItem t))
          then false else isSelected (heap t) id.
Proof.
  revert t. induction fuel as [|f IH]; intros t Hok Hnd Hlen; [lia|].
  cbn [drainSelected].
  destruct (getNextSelected_spec t None Hok) as (sk & Hall & [[Hrem Hg]|Hg]).
  - simpl in Hrem. rewrite Hg, Hrem, (filter_bool_none _ _ Hall). simpl.
    eexists. split; [reflexivity|]. simpl. split_and!; try done; [lia|].
    intros id. destruct (bool_decide (id ∈ sk)) eqn:Hin; [|done].
    apply bool_decide_eq_true in Hin. rewrite Forall_forall in Hall. by apply Hall.
  - destruct Hg as (v & rest & t' & Hrem & Hsel & Hg & Hy).
    simpl in Hrem, Hy.
    destruct Hy as (Ho & _ & _ & Hrev & Hok' & Hrest & Hcnt & _ & Hheap).
    rewrite Hrem in Hnd, Hlen |- *.
    apply NoDup_app in Hnd as (_ & _ & Hnd).
    apply NoDup_cons in Hnd as [Hv Hnd].
    rewrite length_app in Hlen. simpl in Hlen.
    destruct (IH t') as (t'' & Hd & Hn & Ho' & Hc & Hf).
    { by rewrite Ho. }
    { by rewrite Ho, Hrev, Hrest. }
    { rewrite Ho, Hrev, Hrest. lia. }
    rewrite Ho, Hrev, Hrest in Hd, Hc, Hf.
    assert (Hsame : ∀ x, x ∈ rest → isSelected (heap t') x = isSelected (heap t) x).
    { intros x Hx. unfold isSelected. rewrite Hheap.
      rewrite decide_False; [done|]. by intros ->. }
    rewrite (filter_bool_ext _ _ rest Hsame) in Hd, Hc.
    rewrite Hg, Hd.
    assert (Hfil : filter (λ x, isSelected (heap t) x = true) (sk ++ v :: rest)
                   = v :: filter (λ x, isSelected (heap t) x = true) rest).
    { rewrite filter_app, (filter_bool_none _ _ Hall), filter_cons. simpl.
      by rewrite decide_True by done. }
    rewrite Hfil. eexists. split; [reflexivity|]. split_and!; try done.
    + congruence.
    + rewrite Hc, Hcnt. simpl length. lia.
    + intros id. rewrite Hf.
      destruct (decide (id ∈ rest)) as [Hin|Hout].
      * rewrite !bool_decide_eq_true_2; [done| |done].
        apply elem_of_app. right. by right.
      * rewrite (bool_decide_eq_false_2 (id ∈ rest)) by done.
        unfold isSelected at 1. rewrite Hheap.
        destruct (decide (id = v)) as [->|Hne].
        -- rewrite FlagFacts.hasFlag_setSelectedIndex, FlagFacts.hasFlag_clearFlag.
           rewrite bool_decide_eq_true_2; [done|].
           apply elem_of_app. right. by left.
        -- destruct (decide (id ∈ sk)) as [Hin|Hout'].
           ++ rewrite bool_decide_eq_true_2 by (apply elem_of_app; by left).
              rewrite Forall_forall in Hall. by apply Hall.
           ++ rewrite bool_decide_eq_false_2; [done|].
              intros [?|[?|?]%elem_of_cons]%elem_of_app; done.
Qed.

Lemma remaining_start (l : list nat) (rev : bool) :
  cursorOk l (if rev then LList.bottom l else LList.top l) ∧
  remaining l rev (if rev then LList.bottom l else LList.top l)
  = if rev then reverse l else l.
Proof.
  destruct l as [|x l]; [by destruct rev|].
  destruct rev; simpl.
  - split; [intros i [= <-]; simpl; lia|].
    rewrite Nat.sub_0_r. change (reverse (take (S (length l)) (x :: l)) = reverse (x :: l)).
    rewrite take_ge; [done|simpl; lia].
  - split; [intros i [= <-]; simpl; lia|done].
Qed.

Lemma sublist_lookup_some {A} (k l : list A) :
  sublist k l → ∀ j b, k !! j = Some b → ∃ j', l !! j' = Some b.
Proof.
  induction 1 as [|x k l Hs IH|x k l Hs IH]; intros j b Hb.
  - by rewrite lookup_nil in Hb.
  - destruct j as [|j]; simpl in Hb.
    + by exists 0.
    + destruct (IH j b Hb) as [j' Hj']. by exists (S j').
  - destruct (IH j b Hb) as [j' Hj']. by exists (S j').
Qed.

Lemma sublist_lookup_lt {A} (k l : list A) :
  sublist k l →
  ∀ i j a b, i < j → k !! i = Some a → k !! j = Some b →
  ∃ i' j', i' < j' ∧ l !! i' = Some a ∧ l !! j' = Some b.
Proof.
  induction 1 as [|x k l Hs IH|x k l Hs IH]; intros i j a b Hij Ha Hb.
  - by rewrite lookup_nil in Ha.
  - destruct j as [|j]; [lia|]. destruct i as [|i]; simpl in Ha, Hb.
    + destruct (sublist_lookup_some _ _ Hs j b Hb) as [j' Hj'].
      exists 0, (S j'). split; [lia|]. by split.
    + destruct (IH i j a b ltac:(lia) Ha Hb) as (i' & j' & Hlt & Ha' & Hb').
      exists (S i'), (S j'). split; [lia|]. by split.
  - destruct (IH i j a b Hij Ha Hb) as (i' & j' & Hlt & Ha' & Hb').
    exists (S i'), (S j'). split; [lia|]. by split.
Qed.

Lemma orderedBy_sublist (t : QuadTree) (k l : list nat) :
  sublist k l → orderedBy t l → orderedBy t k.
Proof.
  intros Hs Hl i j a b Hij Ha Hb.
  destruct (sublist_lookup_lt k l Hs i j a b Hij Ha Hb) as (i' & j' & Hlt & Ha' & Hb').
  by apply (Hl i' j').
Qed.

Lemma filter_length_perm (f : nat → bool) (l k : list nat) :
  l ≡ₚ k →
  length (filter (λ x, f x = true) l) = length (filter (λ x, f x = true) k).
Proof.
  induction 1 as [|x l k Hp IH|x y l|l k m Hp1 IH1 Hp2 IH2]; [done| | |congruence].
  - rewrite !filter_cons. case_decide; simpl; by rewrite IH.
  - rewrite !filter_cons. repeat case_decide; done.
Qed.

(** What [selectItems] leaves behind on a well-formed tree. *)
Lemma selectItems_spec (t : QuadTree) (rect : option Rect.t)
    (fn : option (nat → QuadTreeItem.t → bool)) (reverse : option bool) :
  wf t →
  let t1 := (selectItems t rect fn reverse).1 in
  (selectItems t rect fn reverse).2 = selectedCount t1 ∧
  orderedItems t1 = orderedItems t ∧
  isReverse t1 = isReverse t ∧
  nextItem t1 = (if direction t reverse then LList.bottom (orderedItems t)
                 else LList.top (orderedItems t)) ∧
  Selects rect fn (Node.allItems (root t)) (heap t, 0%Z)
    (heap t1, selectedCount t1).
Proof.
  intros Hwf. unfold selectItems, root_selectItems. simpl.
  split_and!; try done.
  pose proof (SelectFacts.selectItems_Selects rect fn (root t) (heap t, 0%Z)) as HS.
  destruct (Node.selectItems rect fn (root t) (heap t, 0%Z)) as [h c] eqn:Hsel.
  simpl. apply HS; simpl.
  - rewrite <- (wf_tree t Hwf). apply Hwf.
  - apply Hwf.
Qed.

(** C1, amended: on a well-formed tree none of whose attached items is
    still SELECTED from an earlier selection, [selectItems(R, filter)]
    followed by [getNextSelected] until it returns null yields exactly the
    attached items whose bounds intersect [R] and pass the filter, each
    exactly once, and as many as [selectItems] counted.  They come in the
    order of the draw list, from the bottom when the tree's [isReverse] is
    set; on a forward walk of a draw list that is ordered by [isBefore]
    under the current comparator and axis flags, so is what is yielded.
    Afterwards no attached item is SELECTED and [selectedCount] is 0. *)
Theorem select_then_drain (t : QuadTree) (rect : option Rect.t)
    (fn : option (ItemId → QuadTreeItem.t → bool)) :
  wf t →
  (∀ id, id ∈ orderedItems t → isSelected (heap t) id = false) →
  let t1 := (selectItems t rect fn None).1 in
  let n := (selectItems t rect fn None).2 in
  let walk := if isReverse t then reverse (orderedItems t) else orderedItems t in
  ∃ t2 ys,
    drainSelected (S (length (orderedItems t))) t1 = Some (t2, ys) ∧
    ys = filter (λ id, matches rect fn (heap t) id = true) walk ∧
    n = Z.of_nat (length ys) ∧
    (∀ id, id ∈ ys ↔
           QuadTreeItem.hasFlag (heap t !!! id) QuadTreeItem.FLAG_ATTACHED = true ∧
           Node.inRegion rect (QuadTreeItem.bounds (heap t !!! id)) = true ∧
           Node.passes fn id (heap t !!! id) = true) ∧
    NoDup ys ∧
    (isReverse t = false → orderedBy t (orderedItems t) → orderedBy t ys) ∧
    selectedCount t2 = 0%Z ∧
    nextItem t2 = None ∧
    (∀ id, id ∈ orderedItems t → isSelected (heap t2) id = false).
Proof.
  intros Hwf Hclean. cbv zeta.
  destruct (selectItems_spec t rect fn None Hwf) as (Hn & Ho & Hrev & Hcur & [HS HC]).
  destruct (selectItems t rect fn None) as [t1 n] eqn:Hsi.
  simpl in Hn, Ho, Hrev, Hcur, HS, HC |- *.
  destruct (remaining_start (orderedItems t) (isReverse t)) as [Hok Hrem].
  set (walk := if isReverse t then reverse (orderedItems t) else orderedItems t) in *.
  assert (Hwalk : ∀ id, id ∈ walk ↔ id ∈ orderedItems t).
  { intros id. subst walk. destruct (isReverse t); [apply elem_of_reverse|done]. }
  assert (Hndw : NoDup walk).
  { subst walk. destruct (isReverse t); [rewrite reverse_Permutation|]; apply Hwf. }
  assert (Hsel : ∀ id, id ∈ walk →
                       isSelected (heap t1) id = matches rect fn (heap t) id).
  { intros id Hid%Hwalk. unfold isSelected. rewrite HS.
    rewrite bool_decide_eq_true_2 by (by rewrite <- (wf_tree t Hwf)). simpl.
    destruct (matches rect fn (heap t) id).
    - by apply FlagFacts.hasFlag_setFlag.
    - by apply Hclean. }
  destruct (drainSelected_spec (S (length (orderedItems t))) t1)
    as (t2 & Hd & Hnone & _ & Hc & Hf).
  { by rewrite Ho, Hcur. }
  { by rewrite Ho, Hrev, Hcur, Hrem. }
  { rewrite Ho, Hrev, Hcur, Hrem. subst walk.
    destruct (isReverse t); rewrite ?length_reverse; lia. }
  rewrite Ho, Hrev, Hcur, Hrem in Hd, Hc, Hf.
  rewrite (filter_bool_ext _ _ walk Hsel) in Hd, Hc.
  set (ys := filter (λ id, matches rect fn (heap t) id = true) walk) in *.
  assert (Hcount : n = Z.of_nat (length ys)).
  { rewrite Hn, HC. subst ys.
    rewrite (filter_length_perm (matches rect fn (heap t)) walk (Node.allItems (root t))).
    - lia.
    - rewrite <- (wf_tree t Hwf). subst walk.
      destruct (isReverse t); [apply reverse_Permutation|done]. }
  exists t2, ys. split_and!; try done.
  - intros id. subst ys. rewrite list_elem_of_filter, Hwalk, <- (wf_attached t Hwf).
    unfold matches. rewrite andb_true_iff. naive_solver.
  - subst ys. by apply NoDup_filter.
  - intros Hfwd Hord. subst ys walk. rewrite Hfwd.
    eapply orderedBy_sublist; [apply sublist_filter|done].
  - rewrite Hc, <- Hn. lia.
  - intros id Hid. rewrite Hf. by rewrite bool_decide_eq_true_2 by (by apply Hwalk).
Qed.

Lemma select_then_drain_witness :
  wf column ∧
  (∀ id, id ∈ orderedItems column → isSelected (heap column) id = false) ∧
  ∃ t2,
    drainSelected 3 (selectItems column (Some (Rect.make (-1) (-1) 20 40)) None None).1
    = Some (t2, [0; 1]) ∧
    (selectItems column (Some (Rect.make (-1) (-1) 20 40)) None None).2 = 2%Z.
Proof.
  assert (H : ∀ id, id ∈ orderedItems column → isSelected (heap column) id = false).
  { intros id Hid. change (id ∈ [0; 1]) in Hid.
    apply elem_of_cons in Hid as [->|Hid]; [vm_compute; reflexivity|].
    apply elem_of_cons in Hid as [->|Hid]; [vm_compute; reflexivity|].
    by apply elem_of_nil in Hid. }
  destruct (select_then_drain column (Some (Rect.make (-1) (-1) 20 40)) None wf_column H)
    as (t2 & ys & Hd & Hys & Hn & _).
  split; [exact wf_column|]. split; [exact H|].
  assert (Hys' : ys = [0; 1]) by (rewrite Hys; vm_compute; reflexivity).
  exists t2. split.
  - rewrite <- Hys'. exact Hd.
  - rewrite Hn, Hys'. reflexivity.
Defined.

(** C1 as stated fails: [selectItems] does not clear the marks of an earlier
    selection, so on a tree that still carries one the walk also yields an
    item whose bounds do not intersect the region. *)
Lemma stale_selection_is_yielded :
  let R := Rect.make (-1) 19 11 31 in
  ∃ t2 ys,
    drainSelected 3 (selectItems undrained (Some R) None None).1 = Some (t2, ys) ∧
    0 ∈ ys ∧
    Node.inRegion (Some R) (QuadTreeItem.bounds (heap undrained !!! 0)) = false.
Proof.
  eexists _, [0; 1]. split; [vm_compute; reflexivity|].
  split; [by left|]. vm_compute. reflexivity.
Qed.

(** [releaseSelected] on the stranded selection of C10 is still looping
    after any number of iterations. *)
Lemma releaseSelected_stranded (fuel : nat) : releaseSelected fuel stranded = None.
Proof.
  assert (Hfix : (getNextSelected stranded None).1 = stranded)
    by (vm_compute; reflexivity).
  assert (Hpos : (0 <? selectedCount stranded)%Z = true) by (vm_compute; reflexivity).
  induction fuel as [|f IH]; cbn [releaseSelected]; rewrite Hpos; [done|].
  by rewrite Hfix.
Qed.

(** ** Flipping the Y axis on the scenes *)

Lemma orderedBy_column (t : QuadTree) :
  orderedItems t = [0; 1] → isBefore t 0 1 = true → orderedBy t (orderedItems t).
Proof.
  intros Ho Hb i j a b Hij Ha Hb'. rewrite Ho in Ha, Hb'.
  destruct i as [|[|i]], j as [|[|j]]; simpl in *; try lia; try discriminate.
  injection Ha as <-. injection Hb' as <-. done.
Qed.

Lemma toggle_yd_reverses_witness :
  yKey (fnComparator column)
  = Some (λ P, Rect.y1 (QuadTreeItem.insertionBounds P)) ∧
  orderedBy column (orderedItems column) ∧
  precedes (orderedItems column) 0 1 ∧
  tiesZX (heap column !!! 0) (heap column !!! 1) ∧
  precedes (orderedItems (reorderItems (setYd column (negb (yd column))).1)) 1 0.
Proof.
  assert (Ho : orderedItems column = [0; 1]) by (vm_compute; reflexivity).
  assert (H1 : yKey (fnComparator column)
               = Some (λ P, Rect.y1 (QuadTreeItem.insertionBounds P)))
    by (vm_compute; reflexivity).
  assert (H2 : orderedBy column (orderedItems column)).
  { apply orderedBy_column; [exact Ho|vm_compute; reflexivity]. }
  assert (H3 : precedes (orderedItems column) 0 1).
  { exists 0, 1. rewrite Ho. split; [lia|]. split; reflexivity. }
  assert (H4 : tiesZX (heap column !!! 0) (heap column !!! 1)).
  { vm_compute. split; reflexivity. }
  destruct (toggle_yd_reverses column _ H1 H2) as (_ & _ & Hrev).
  split; [exact H1|]. split; [exact H2|]. split; [exact H3|]. split; [exact H4|].
  apply Hrev; [exact H3|exact H4|]. vm_compute. discriminate.
Defined.

Lemma staysInFront_pair (t : QuadTree) (a b : nat) :
  a ≠ b →
  orderedItems t = [a; b] →
  orderedItems (reorderItems (setYd t (negb (yd t))).1) = [a; b] →
  implb (isBefore t b a) (isBefore t a b) = true →
  tiesZX (heap t !!! a) (heap t !!! b) →
  Rect.y1 (QuadTreeItem.insertionBounds (heap t !!! a))
    ≠ Rect.y1 (QuadTreeItem.insertionBounds (heap t !!! b)) →
  staysInFront t a b.
Proof.
  intros Hab Ho Ho' Hb Htie Hy. unfold staysInFront. rewrite Ho'. split_and!; try done.
  - intros i j x y Hij Hx Hy'. rewrite Ho in Hx, Hy'.
    destruct i as [|[|i]], j as [|[|j]]; simpl in *; try lia; try discriminate.
    injection Hx as <-. injection Hy' as <-. intros Hba. by rewrite Hba in Hb.
  - exists 0, 1. rewrite Ho. split; [lia|]. by split.
  - intros (i & j & Hij & Hi & Hj).
    destruct i as [|[|i]], j as [|[|j]]; simpl in Hi, Hj; try lia; try discriminate.
    congruence.
Qed.

(** C4 as stated fails.  The Manhattan comparator and the two X
    comparators do not read [yd], and COMPARATOR_Y1 compares the sums
    [y1 + zindex], which the program rounds: far up the Z axis two items
    that differ in [y1] have the same sum.  In each case toggling [yd] and
    reordering leaves two items that tie on Z and X and differ in Y in the
    order they had. *)
Lemma toggle_yd_not_reversed :
  staysInFront columnManhattan 0 1 ∧
  staysInFront (setComparator column X1).1 0 1 ∧
  staysInFront (setComparator column X2).1 0 1 ∧
  staysInFront columnFar 1 0.
Proof.
  split_and!; apply staysInFront_pair; try lia; try (vm_compute; reflexivity);
    try (vm_compute; by split); try (vm_compute; discriminate).
Qed.

(* ================================================================== *)
(** * Further properties *)

(** ** The comparators and the direction flags *)

(** With [zd] set, a comparator that compares the Z layer first answers on
    the layers alone: [(p.zindex < q.zindex) ^ true] also holds when the
    layers tie, so the spatial tie-break is never reached. *)
Theorem zd_hides_tiebreak (t : QuadTree) (p q : ItemId) :
  zd t = true →
  layered (fnComparator t) = true →
  isBefore t p q
  = (QuadTreeItem.zindex (heap t !!! q) <=? QuadTreeItem.zindex (heap t !!! p))%Z.
Proof.
  intros Hz Hl. unfold isBefore. unfold_comparators. rewrite Hz.
  destruct (fnComparator t) as [| | | | | | |[]]; try discriminate;
    destruct (xd t), (yd t);
    apply eq_true_iff_eq; split; intros H; bool_to_prop; lia.
Qed.

Lemma zd_hides_tiebreak_witness :
  zd twinsBehind = true ∧
  layered (fnComparator twinsBehind) = true ∧
  isBefore twinsBehind 0 1 = true ∧ isBefore twinsBehind 1 0 = true.
Proof.
  assert (H1 : zd twinsBehind = true) by (vm_compute; reflexivity).
  assert (H2 : layered (fnComparator twinsBehind) = true) by (vm_compute; reflexivity).
  split; [exact H1|]. split; [exact H2|].
  rewrite !(zd_hides_tiebreak twinsBehind _ _ H1 H2).
  split; vm_compute; reflexivity.
Defined.

(** With the three direction flags off, every supplied comparator but
    COMPARATOR_Y2 is a strict order on the items: irreflexive, asymmetric
    and transitive. *)
Theorem upright_comparators_strict (t : QuadTree) :
  upright t →
  fnComparator t ≠ Y2 →
  (∀ p, isBefore t p p = false) ∧
  (∀ p q, isBefore t p q = true → isBefore t q p = false) ∧
  (∀ p q r, isBefore t p q = true → isBefore t q r = true → isBefore t p r = true).
Proof.
  intros (Hx & Hy & Hz) Hc. unfold isBefore. unfold_comparators.
  rewrite Hx, Hy, Hz.
  destruct (fnComparator t) as [| | | | | | |[]]; try done; split_and!; intros; bool_to_prop; lia.
Qed.

Lemma upright_comparators_strict_witness :
  upright twins ∧ fnComparator twins ≠ Y2 ∧
  isBefore twins 0 0 = false.
Proof.
  assert (H1 : upright twins) by (vm_compute; repeat split).
  assert (H2 : fnComparator twins ≠ Y2) by (vm_compute; discriminate).
  split; [exact H1|]. split; [exact H2|].
  exact (proj1 (upright_comparators_strict twins H1 H2) 0).
Defined.

(** COMPARATOR_Y2 breaks its last tie with [a.x1 <= b.x1]: with the flags
    off two items are before one another exactly when they tie on the layer,
    on [y2] and on [x1]; in particular every item is before itself. *)
Theorem Y2_mutual_ties (t : QuadTree) (p q : ItemId) :
  upright t →
  fnComparator t = Y2 →
  (isBefore t p q = true ∧ isBefore t q p = true) ↔
  (QuadTreeItem.zindex (heap t !!! p) = QuadTreeItem.zindex (heap t !!! q) ∧
   Rect.y2 (QuadTreeItem.insertionBounds (heap t !!! p))
   = Rect.y2 (QuadTreeItem.insertionBounds (heap t !!! q)) ∧
   Rect.x1 (QuadTreeItem.insertionBounds (heap t !!! p))
   = Rect.x1 (QuadTreeItem.insertionBounds (heap t !!! q))).
Proof.
  intros (Hx & Hy & Hz) Hc. unfold isBefore. unfold_comparators.
  rewrite Hx, Hy, Hz, Hc. split; intros H; [destruct H|split]; bool_to_prop; lia.
Qed.

Lemma Y2_mutual_ties_witness :
  let t := (setComparator twins Y2).1 in
  upright t ∧ fnComparator t = Y2 ∧
  isBefore t 0 1 = true ∧ isBefore t 1 0 = true.
Proof.
  intros t.
  assert (H1 : upright t) by (vm_compute; repeat split).
  assert (H2 : fnComparator t = Y2) by (vm_compute; reflexivity).
  split; [exact H1|]. split; [exact H2|].
  apply (Y2_mutual_ties t 0 1 H1 H2). vm_compute. repeat split.
Defined.

Lemma insertOrdered_ext (cmp1 cmp2 : nat → nat → bool) (x : nat) (l : list nat) :
  (∀ p q, cmp1 p q = cmp2 p q) →
  insertOrdered cmp1 x l = insertOrdered cmp2 x l.
Proof.
  intros He. induction l as [|v l IH]; simpl; [done|]. by rewrite He, IH.
Qed.

Lemma insertAll_ext (cmp1 cmp2 : nat → nat → bool) (l acc : list nat) :
  (∀ p q, cmp1 p q = cmp2 p q) →
  insertAll cmp1 acc l = insertAll cmp2 acc l.
Proof.
  intros He. revert acc. induction l as [|x l IH]; intros acc; [done|].
  by rewrite !insertAll_cons, (insertOrdered_ext cmp1 cmp2), IH.
Qed.

(** COMPARATOR_MANHATTAN, COMPARATOR_X1 and COMPARATOR_X2 never read [yd]:
    [setYd] changes no answer of [isBefore], and a reordering after it gives
    the list a reordering without it gives. *)
Theorem setYd_unread (t : QuadTree) (value : bool) :
  yKey (fnComparator t) = None →
  (∀ p q, isBefore (setYd t value).1 p q = isBefore t p q) ∧
  orderedItems (reorderItems (setYd t value).1) = orderedItems (reorderItems t).
Proof.
  intros Hk.
  assert (Hb : ∀ p q, isBefore (setYd t value).1 p q = isBefore t p q).
  { intros p q. unfold setYd. case_bool_decide; [done|].
    unfold isBefore, callComparator. simpl.
    destruct (fnComparator t) as [| | | | | | |[]]; try discriminate; reflexivity. }
  split; [done|]. rewrite !reorderItems_eq. simpl.
  assert (Ho : orderedItems (setYd t value).1 = orderedItems t).
  { unfold setYd. by case_bool_decide. }
  rewrite Ho. by apply insertAll_ext.
Qed.

Lemma setYd_unread_witness :
  yKey (fnComparator columnManhattan) = None ∧
  orderedItems (reorderItems (setYd columnManhattan true).1) = [0; 1].
Proof.
  assert (H : yKey (fnComparator columnManhattan) = None) by (vm_compute; reflexivity).
  split; [exact H|].
  rewrite (proj2 (setYd_unread columnManhattan true H)). vm_compute. reflexivity.
Defined.

(** ** Where addItemOrdered puts an item *)

Lemma insertOrdered_split (cmp : nat → nat → bool) (x : nat) (l : list nat) :
  ∃ l1 l2,
    l = l1 ++ l2 ∧
    insertOrdered cmp x l = l1 ++ x :: l2 ∧
    Forall (λ y, cmp x y = false) l1 ∧
    (∀ y, head l2 = Some y → cmp x y = true).
Proof.
  induction l as [|v l IH]; simpl.
  - exists [], []. by split_and!.
  - destruct (cmp x v) eqn:Hxv.
    + exists [], (v :: l). split_and!; try done. by intros y [= <-].
    + destruct IH as (l1 & l2 & Hl & Hi & Hall & Hhd).
      exists (v :: l1), l2. simpl. split_and!; try done.
      * by rewrite Hl.
      * by rewrite Hi.
      * by constructor.
Qed.

(** [addItemOrdered] changes the draw list only: the item is linked in
    behind the leading run of items it is not before, right in front of the
    first item it is before (at the bottom when there is none), and the
    other items keep their places. *)
Theorem addItemOrdered_position (t : QuadTree) (item : ItemId) :
  ∃ l1 l2,
    orderedItems t = l1 ++ l2 ∧
    addItemOrdered t item = set_orderedItems t (l1 ++ item :: l2) ∧
    Forall (λ y, isBefore t item y = false) l1 ∧
    (∀ y, head l2 = Some y → isBefore t item y = true).
Proof.
  destruct (insertOrdered_split (isBefore t) item (orderedItems t))
    as (l1 & l2 & Hl & Hi & Hall & Hhd).
  exists l1, l2. rewrite addItemOrdered_eq, Hi. by split_and!.
Qed.

Lemma orderedBy_sorted (t : QuadTree) (l : list nat) :
  orderedBy t l → StronglySorted (mayPrecede (isBefore t)) l.
Proof.
  induction l as [|v l IH]; intros Hl; [constructor|].
  constructor.
  - apply IH. intros i j a b Hij Ha Hb. apply (Hl (S i) (S j)); [lia|done..].
  - apply Forall_forall. intros b [j Hj]%list_elem_of_lookup_1.
    exact (Hl 0 (S j) v b ltac:(lia) eq_refl Hj).
Qed.

Lemma sorted_orderedBy (t : QuadTree) (l : list nat) :
  StronglySorted (mayPrecede (isBefore t)) l → orderedBy t l.
Proof.
  intros Hs i j a b Hij Ha Hb.
  exact (StronglySorted_lookup_lt _ _ Hs i j a b Hij Ha Hb).
Qed.

(** [addItemOrdered] keeps an ordered draw list ordered, whichever supplied
    comparator and direction flags are in use; it adds the item once and
    keeps the relative order of the items that were there. *)
Theorem addItemOrdered_keeps_order (t : QuadTree) (item : ItemId) :
  orderedBy t (orderedItems t) →
  let t' := addItemOrdered t item in
  orderedBy t' (orderedItems t') ∧
  orderedItems t' ≡ₚ item :: orderedItems t ∧
  (∀ a b, precedes (orderedItems t) a b → precedes (orderedItems t') a b).
Proof.
  intros Hord. simpl. rewrite addItemOrdered_eq. simpl. split_and!.
  - intros i j a b Hij Ha Hb.
    change (mayPrecede (isBefore t) a b).
    eapply StronglySorted_lookup_lt; [|done..].
    apply insertOrdered_sorted; [apply isBefore_composes|by apply orderedBy_sorted].
  - apply insertOrdered_perm.
  - intros a b. apply precedes_insert_keep.
Qed.

Lemma addItemOrdered_keeps_order_witness :
  orderedBy column (orderedItems column) ∧
  orderedItems (addItemOrdered column 2) = [0; 2; 1] ∧
  orderedBy (addItemOrdered column 2) (orderedItems (addItemOrdered column 2)).
Proof.
  assert (H : orderedBy column (orderedItems column)).
  { apply orderedBy_column; vm_compute; reflexivity. }
  split; [exact H|]. split; [vm_compute; reflexivity|].
  exact (proj1 (addItemOrdered_keeps_order column 2 H)).
Defined.

(** ** Reordering again *)

Lemma insertOrdered_last (cmp : nat → nat → bool) (x : nat) (l : list nat) :
  Forall (λ y, cmp x y = false) l → insertOrdered cmp x l = l ++ [x].
Proof.
  induction 1 as [|v l Hv Hl IH]; simpl; [done|]. by rewrite Hv, IH.
Qed.

(** Under an asymmetric comparator, inserting the items of an ordered list
    one after the other rebuilds the list. *)
Lemma insertAll_ordered (cmp : nat → nat → bool) (l acc : list nat) :
  (∀ a b, cmp a b = true → cmp b a = false) →
  StronglySorted (mayPrecede cmp) (acc ++ l) →
  insertAll cmp acc l = acc ++ l.
Proof.
  intros Hasym. revert acc. induction l as [|x l IH]; intros acc Hs.
  - by rewrite app_nil_r.
  - rewrite insertAll_cons, insertOrdered_last.
    + rewrite IH; rewrite <- app_assoc; done.
    + apply Forall_forall. intros y [i Hi]%list_elem_of_lookup_1.
      destruct (cmp x y) eqn:Hxy; [|done].
      assert (Hyx : mayPrecede cmp y x).
      { apply (StronglySorted_lookup_lt _ _ Hs i (length acc)).
        - by eapply lookup_lt_Some.
        - by apply lookup_app_l_Some.
        - by rewrite list_lookup_middle. }
      specialize (Hyx Hxy). apply Hasym in Hyx. congruence.
Qed.

Lemma upright_asymmetric (t : QuadTree) (p q : nat) :
  upright t → fnComparator t ≠ Y2 →
  isBefore t p q = true → isBefore t q p = false.
Proof.
  intros (Hx & Hy & Hz) Hc. unfold isBefore. unfold_comparators.
  rewrite Hx, Hy, Hz.
  destruct (fnComparator t) as [| | | | | | |[]]; try done; intros; bool_to_prop; lia.
Qed.

(** With the direction flags off and a comparator other than COMPARATOR_Y2,
    [reorderItems()] leaves an ordered draw list as it is, so that calling
    it a second time changes nothing. *)
Theorem reorderItems_idempotent (t : QuadTree) :
  upright t →
  fnComparator t ≠ Y2 →
  (orderedBy t (orderedItems t) → orderedItems (reorderItems t) = orderedItems t) ∧
  reorderItems (reorderItems t) = reorderItems t.
Proof.
  intros Hup Hc.
  assert (Hid : ∀ l, StronglySorted (mayPrecede (isBefore t)) l →
                     insertAll (isBefore t) [] l = l).
  { intros l Hs. apply (insertAll_ordered (isBefore t) l []); [|done].
    intros a b. by apply upright_asymmetric. }
  split.
  - intros Hord. rewrite reorderItems_eq. simpl. by apply Hid, orderedBy_sorted.
  - rewrite !reorderItems_eq. simpl. unfold set_orderedItems; simpl. f_equal.
    apply Hid. apply insertAll_sorted; [apply isBefore_composes|constructor].
Qed.

Lemma reorderItems_idempotent_witness :
  upright column ∧ fnComparator column ≠ Y2 ∧
  reorderItems (reorderItems column) = reorderItems column.
Proof.
  assert (H1 : upright column) by (vm_compute; repeat split).
  assert (H2 : fnComparator column ≠ Y2) by (vm_compute; discriminate).
  split; [exact H1|]. split; [exact H2|].
  exact (proj2 (reorderItems_idempotent column H1 H2)).
Defined.

(** With [zd] set and a comparator that compares the Z layer first, every
    [reorderItems()] swaps the relative order of any two items of the same
    layer: the reordering is not idempotent on ties. *)
Theorem zd_reorder_flips_layer (t : QuadTree) (a b : ItemId) :
  zd t = true →
  layered (fnComparator t) = true →
  QuadTreeItem.zindex (heap t !!! a) = QuadTreeItem.zindex (heap t !!! b) →
  precedes (orderedItems t) a b →
  precedes (orderedItems (reorderItems t)) b a.
Proof.
  intros Hz Hl Hab Hp. rewrite reorderItems_eq. simpl.
  apply insertAll_later; [by right|].
  unfold isBefore. unfold_comparators. rewrite Hz, Hab.
  destruct (fnComparator t) as [| | | | | | |[]]; try discriminate;
    destruct (xd t), (yd t); bool_to_prop; lia.
Qed.

Lemma zd_reorder_flips_layer_witness :
  zd twinsBehind = true ∧
  layered (fnComparator twinsBehind) = true ∧
  precedes (orderedItems twinsBehind) 0 1 ∧
  precedes (orderedItems (reorderItems twinsBehind)) 1 0 ∧
  precedes (orderedItems (reorderItems (reorderItems twinsBehind))) 0 1.
Proof.
  assert (H1 : zd twinsBehind = true) by (vm_compute; reflexivity).
  assert (H2 : layered (fnComparator twinsBehind) = true) by (vm_compute; reflexivity).
  assert (H3 : QuadTreeItem.zindex (heap twinsBehind !!! 0)
               = QuadTreeItem.zindex (heap twinsBehind !!! 1))
    by (vm_compute; reflexivity).
  assert (H4 : precedes (orderedItems twinsBehind) 0 1).
  { exists 0, 1. split; [lia|]. split; vm_compute; reflexivity. }
  pose proof (zd_reorder_flips_layer twinsBehind 0 1 H1 H2 H3 H4) as H5.
  split; [exact H1|]. split; [exact H2|]. split; [exact H4|]. split; [exact H5|].
  apply (zd_reorder_flips_layer (reorderItems twinsBehind) 1 0);
    [vm_compute; reflexivity..|exact H5].
Defined.

(** ** The draw list across addItem, removeItem and updateItem *)

(** [isBefore] reads the direction flags, the comparator and, of the two
    items, their insertion bounds and layer. *)
Lemma isBefore_agree (t t' : QuadTree) (a b : nat) :
  fnComparator t' = fnComparator t →
  xd t' = xd t → yd t' = yd t → zd t' = zd t →
  QuadTreeItem.insertionBounds (heap t' !!! a) = QuadTreeItem.insertionBounds (heap t !!! a) →
  QuadTreeItem.zindex (heap t' !!! a) = QuadTreeItem.zindex (heap t !!! a) →
  QuadTreeItem.insertionBounds (heap t' !!! b) = QuadTreeItem.insertionBounds (heap t !!! b) →
  QuadTreeItem.zindex (heap t' !!! b) = QuadTreeItem.zindex (heap t !!! b) →
  isBefore t' a b = isBefore t a b.
Proof.
  intros Hc Hx Hy Hz Ha Za Hb Zb. unfold isBefore. unfold_comparators.
  rewrite Hc, Hx, Hy, Hz, Ha, Za, Hb, Zb.
  by destruct (fnComparator t) as [| | | | | | |[]].
Qed.

Lemma orderedBy_agree (t t' : QuadTree) (l : list nat) :
  fnComparator t' = fnComparator t →
  xd t' = xd t → yd t' = yd t → zd t' = zd t →
  (∀ a, a ∈ l →
        QuadTreeItem.insertionBounds (heap t' !!! a)
        = QuadTreeItem.insertionBounds (heap t !!! a) ∧
        QuadTreeItem.zindex (heap t' !!! a) = QuadTreeItem.zindex (heap t !!! a)) →
  orderedBy t l → orderedBy t' l.
Proof.
  intros Hc Hx Hy Hz Hl Hord i j a b Hij Ha Hb.
  destruct (Hl a) as [Ha1 Ha2]; [by eapply list_elem_of_lookup_2|].
  destruct (Hl b) as [Hb1 Hb2]; [by eapply list_elem_of_lookup_2|].
  rewrite (isBefore_agree t t' b a), (isBefore_agree t t' a b) by done.
  by apply (Hord i j).
Qed.

(** What [removeItem] does to the draw list and to the keys of the
    ordering. *)
Lemma removeItem_order (t : QuadTree) (x : nat) :
  fnComparator (removeItem t x).1 = fnComparator t ∧
  xd (removeItem t x).1 = xd t ∧ yd (removeItem t x).1 = yd t ∧
  zd (removeItem t x).1 = zd t ∧
  (∀ a, QuadTreeItem.insertionBounds (heap (removeItem t x).1 !!! a)
        = QuadTreeItem.insertionBounds (heap t !!! a) ∧
        QuadTreeItem.zindex (heap (removeItem t x).1 !!! a)
        = QuadTreeItem.zindex (heap t !!! a)) ∧
  sublist (orderedItems (removeItem t x).1) (orderedItems t).
Proof.
  unfold removeItem, root_removeItem.
  destruct (negb _); simpl; [by split_and!|].
  destruct (Node.removeItem (root t) x); simpl; [|by split_and!].
  split_and!; try done.
  - intros a. destruct (decide (a = x)) as [->|Hne].
    + by rewrite lookup_total_insert_eq.
    + by rewrite lookup_total_insert_ne.
  - destruct (LList.sgetNode (orderedItems t) x); simpl; [apply sublist_delete|done].
Qed.

Lemma removeItem_orderedBy (t : QuadTree) (x : nat) :
  orderedBy t (orderedItems t) →
  orderedBy (removeItem t x).1 (orderedItems (removeItem t x).1).
Proof.
  intros Hord. destruct (removeItem_order t x) as (Hc & Hx & Hy & Hz & Hk & Hs).
  apply (orderedBy_agree t); try done.
  by eapply orderedBy_sublist.
Qed.

(** [removeItem] keeps an ordered draw list ordered and the remaining items
    in the order they had; on a well-formed tree it takes out exactly the
    attached item it is given. *)
Theorem removeItem_keeps_order (t : QuadTree) (x : ItemId) :
  orderedBy t (orderedItems t) →
  let t' := (removeItem t x).1 in
  orderedBy t' (orderedItems t') ∧
  sublist (orderedItems t') (orderedItems t) ∧
  (wf t →
   QuadTreeItem.hasFlag (heap t !!! x) QuadTreeItem.FLAG_ATTACHED = true →
   orderedItems t ≡ₚ x :: orderedItems t').
Proof.
  intros Hord. simpl. split; [by apply removeItem_orderedBy|].
  split; [apply removeItem_order|].
  intros Hwf Hatt. unfold removeItem, root_removeItem. rewrite Hatt. simpl.
  assert (Hin : x ∈ orderedItems t) by (by apply (wf_attached t Hwf)).
  destruct (Node.removeItem (root t) x) eqn:Hr; simpl.
  - by apply remove_sgetNode_perm.
  - apply NodeFacts.removeItem_None in Hr. exfalso. apply Hr.
    by rewrite <- (wf_tree t Hwf).
Qed.

Lemma removeItem_keeps_order_witness :
  orderedBy column (orderedItems column) ∧
  orderedItems (removeItem column 0).1 = [1] ∧
  orderedBy (removeItem column 0).1 (orderedItems (removeItem column 0).1).
Proof.
  assert (H : orderedBy column (orderedItems column)).
  { apply orderedBy_column; vm_compute; reflexivity. }
  split; [exact H|]. split; [vm_compute; reflexivity|].
  exact (proj1 (removeItem_keeps_order column 0 H)).
Defined.

Lemma addItem_orderedBy (t : QuadTree) (x : nat) :
  ¬ (x ∈ orderedItems t) →
  orderedBy t (orderedItems t) →
  orderedBy (addItem t x).1 (orderedItems (addItem t x).1).
Proof.
  intros Hx Hord. unfold addItem, root_addItem.
  destruct (Node.addItem _ _ _ _ _) as [r|]; [|done].
  rewrite addItemOrdered_eq. simpl.
  set (t1 := set_heap _ _).
  assert (H1 : orderedBy t1 (orderedItems t)).
  { apply (orderedBy_agree t); try done.
    intros a Ha. subst t1; simpl.
    rewrite lookup_total_insert_ne; [done|]. by intros ->. }
  intros i j a b Hij Ha Hb.
  change (mayPrecede (isBefore t1) a b).
  eapply StronglySorted_lookup_lt; [|done..].
  apply insertOrdered_sorted; [apply isBefore_composes|by apply orderedBy_sorted].
Qed.

(** [addItem] of an item that is not in the draw list keeps an ordered draw
    list ordered: the item is linked in once when the root accepted it, the
    list is untouched when it did not, and the other items keep their
    relative order. *)
Theorem addItem_keeps_order (t : QuadTree) (x : ItemId) :
  ¬ (x ∈ orderedItems t) →
  orderedBy t (orderedItems t) →
  let t' := (addItem t x).1 in
  orderedBy t' (orderedItems t') ∧
  (if (addItem t x).2 then orderedItems t' ≡ₚ x :: orderedItems t
   else orderedItems t' = orderedItems t) ∧
  (∀ a b, precedes (orderedItems t) a b → precedes (orderedItems t') a b).
Proof.
  intros Hx Hord. simpl. split; [by apply addItem_orderedBy|].
  unfold addItem, root_addItem.
  destruct (Node.addItem _ _ _ _ _) as [r|]; [|by split].
  rewrite addItemOrdered_eq. simpl. split.
  - apply insertOrdered_perm.
  - intros a b. apply precedes_insert_keep.
Qed.

Lemma addItem_keeps_order_witness :
  ¬ (2 ∈ orderedItems spare) ∧
  orderedBy spare (orderedItems spare) ∧
  orderedItems (addItem spare 2).1 = [0; 1; 2] ∧
  orderedBy (addItem spare 2).1 (orderedItems (addItem spare 2).1).
Proof.
  assert (H1 : ¬ (2 ∈ orderedItems spare)).
  { change (¬ (2 ∈ [0; 1])). intros H.
    apply elem_of_cons in H as [H|H]; [discriminate H|].
    apply elem_of_cons in H as [H|H]; [discriminate H|].
    by apply elem_of_nil in H. }
  assert (H2 : orderedBy spare (orderedItems spare)).
  { apply orderedBy_column; vm_compute; reflexivity. }
  split; [exact H1|]. split; [exact H2|]. split; [vm_compute; reflexivity|].
  exact (proj1 (addItem_keeps_order spare 2 H1 H2)).
Defined.

(** ** updateItem after the owner moved the item *)

(** Writing the queue, or flags other than ATTACHED, keeps a tree
    well-formed. *)
Lemma wf_requeue (t : QuadTree) (q : list nat) (h' : gmap nat QuadTreeItem.t) :
  (∀ id, QuadTreeItem.bounds (h' !!! id) = QuadTreeItem.bounds (heap t !!! id)) →
  (∀ id, QuadTreeItem.hasFlag (h' !!! id) QuadTreeItem.FLAG_ATTACHED
         = QuadTreeItem.hasFlag (heap t !!! id) QuadTreeItem.FLAG_ATTACHED) →
  wf t → wf (set_heap (set_updateQueue t q) h').
Proof.
  intros Hb Hf Hwf. constructor; simpl; try apply Hwf.
  - intros id. rewrite Hf. apply Hwf.
  - eapply NodeFacts.nodeOk_ext; [|apply Hwf]. intros id. apply Hb.
Qed.

Lemma nodeOk_agree (bnd bnd' : nat → Rect.t) (n : QuadTreeNode) :
  (∀ id, id ∈ Node.allItems n → bnd' id = bnd id) → nodeOk bnd n → nodeOk bnd' n.
Proof.
  induction n as [e its|e its a IHa b IHb c IHc d IHd]; simpl.
  - intros Heq [H _]. split; [|done]. intros id Hid. rewrite Heq by done. by apply H.
  - intros Heq (H & Ha & Hb & Hc & Hd).
    split; [intros id Hid; rewrite Heq by done; by apply H|].
    split_and!; [apply IHa|apply IHb|apply IHc|apply IHd]; try done;
      intros id Hid; apply Heq; rewrite !elem_of_app; auto.
Qed.

(** Moving an item leaves its flags, layer and insertion bounds alone. *)
Lemma moveItem_heap (t : QuadTree) (x : nat) (r : Rect.t) (id : nat) :
  QuadTreeItem.flags (heap (moveItem t x r) !!! id) = QuadTreeItem.flags (heap t !!! id) ∧
  QuadTreeItem.insertionBounds (heap (moveItem t x r) !!! id)
  = QuadTreeItem.insertionBounds (heap t !!! id) ∧
  QuadTreeItem.zindex (heap (moveItem t x r) !!! id) = QuadTreeItem.zindex (heap t !!! id) ∧
  QuadTreeItem.bounds (heap (moveItem t x r) !!! id)
  = (if decide (id = x) then r else QuadTreeItem.bounds (heap t !!! id)).
Proof.
  unfold moveItem; simpl. destruct (decide (id = x)) as [->|Hne].
  - by rewrite lookup_total_insert_eq.
  - by rewrite lookup_total_insert_ne.
Qed.

(** Moving an item that is not in the tree keeps the tree well-formed. *)
Lemma wf_moveItem_detached (t : QuadTree) (x : nat) (r : Rect.t) :
  wf t → ¬ (x ∈ orderedItems t) → wf (moveItem t x r).
Proof.
  intros Hwf Hx. constructor; try apply Hwf.
  - intros id. unfold QuadTreeItem.hasFlag.
    rewrite (proj1 (moveItem_heap t x r id)). apply (wf_attached t Hwf).
  - apply (nodeOk_agree (λ i, QuadTreeItem.bounds (heap t !!! i))); [|apply Hwf].
    intros id Hid. destruct (moveItem_heap t x r id) as (_ & _ & _ & ->).
    rewrite decide_False; [done|]. intros ->. apply Hx.
    by rewrite (wf_tree t Hwf).
Qed.

(** Detaching a moved item is detaching the item and moving it then. *)
Lemma removeItem_moveItem (t : QuadTree) (x : nat) (r : Rect.t) :
  removeItem (moveItem t x r) x
  = (moveItem (removeItem t x).1 x r, (removeItem t x).2).
Proof.
  unfold removeItem, root_removeItem.
  assert (Hf : QuadTreeItem.hasFlag (heap (moveItem t x r) !!! x) QuadTreeItem.FLAG_ATTACHED
               = QuadTreeItem.hasFlag (heap t !!! x) QuadTreeItem.FLAG_ATTACHED).
  { unfold QuadTreeItem.hasFlag. by rewrite (proj1 (moveItem_heap t x r x)). }
  rewrite Hf. destruct (QuadTreeItem.hasFlag (heap t !!! x) _); simpl; [|done].
  destruct (Node.removeItem (root t) x); simpl; [|done].
  unfold moveItem; simpl. rewrite !lookup_total_insert_eq, !insert_insert_eq. done.
Qed.

Lemma orderedBy_moveItem (t : QuadTree) (x : nat) (r : Rect.t) (l : list nat) :
  orderedBy t l → orderedBy (moveItem t x r) l.
Proof.
  apply orderedBy_agree; try done. intros a _.
  destruct (moveItem_heap t x r a) as (_ & -> & -> & _). done.
Qed.

(** [updateItem] from the tree its [removeItem] leaves. *)
Lemma updateItem_after_removal (t t' : QuadTree) (x : nat) (c : Completion) :
  wf (removeItem t x).1 →
  QuadTreeItem.hasFlag (heap (removeItem t x).1 !!! x) QuadTreeItem.FLAG_ATTACHED = false →
  updateItem t x = (t', c) →
  (c = Returned →
   wf t' ∧
   orderedItems t' ≡ₚ x :: orderedItems (removeItem t x).1 ∧
   (orderedBy (removeItem t x).1 (orderedItems (removeItem t x).1) →
    orderedBy t' (orderedItems t'))) ∧
  (c ≠ Returned → t' = (removeItem t x).1).
Proof.
  intros Hwf1 Hdet. unfold updateItem.
  set (t1 := (removeItem t x).1) in *.
  assert (Hgone : ¬ (x ∈ orderedItems t1)).
  { rewrite <- (wf_attached t1 Hwf1). congruence. }
  pose proof (wf_addItem t1 x Hwf1 Hdet) as Hwf2.
  pose proof (addItem_orderedBy t1 x Hgone) as Hord2.
  assert (Hp2 : (addItem t1 x).2 = true →
                orderedItems (addItem t1 x).1 ≡ₚ x :: orderedItems t1).
  { unfold addItem, root_addItem.
    destruct (Node.addItem _ _ _ _ _) as [r|]; [|done].
    rewrite addItemOrdered_eq. simpl. intros _. apply insertOrdered_perm. }
  assert (Hfail : (addItem t1 x).2 = false → (addItem t1 x).1 = t1).
  { unfold addItem. by destruct (root_addItem t1 x). }
  destruct (addItem t1 x) as [t2 ok]. simpl in Hwf2, Hord2, Hp2, Hfail.
  destruct ok; simpl.
  - destruct (QuadTreeItem.hasFlag (heap t2 !!! x) QuadTreeItem.FLAG_QUEUED);
      intros [= <- <-]; (split; [intros _|done]).
    + split; [done|]. split; [by apply Hp2|done].
    + assert (Hsame : ∀ id,
          QuadTreeItem.bounds
            ((<[x := QuadTreeItem.setFlag (heap t2 !!! x) QuadTreeItem.FLAG_QUEUED]>
                (heap t2)) !!! id) = QuadTreeItem.bounds (heap t2 !!! id) ∧
          QuadTreeItem.insertionBounds
            ((<[x := QuadTreeItem.setFlag (heap t2 !!! x) QuadTreeItem.FLAG_QUEUED]>
                (heap t2)) !!! id) = QuadTreeItem.insertionBounds (heap t2 !!! id) ∧
          QuadTreeItem.zindex
            ((<[x := QuadTreeItem.setFlag (heap t2 !!! x) QuadTreeItem.FLAG_QUEUED]>
                (heap t2)) !!! id) = QuadTreeItem.zindex (heap t2 !!! id) ∧
          QuadTreeItem.hasFlag
            ((<[x := QuadTreeItem.setFlag (heap t2 !!! x) QuadTreeItem.FLAG_QUEUED]>
                (heap t2)) !!! id) QuadTreeItem.FLAG_ATTACHED
          = QuadTreeItem.hasFlag (heap t2 !!! id) QuadTreeItem.FLAG_ATTACHED).
      { intros id. destruct (decide (id = x)) as [->|Hne].
        - rewrite lookup_total_insert_eq.
          by rewrite FlagFacts.hasFlag_setFlag_other.
        - by rewrite lookup_total_insert_ne. }
      split_and!.
      * apply wf_requeue; [apply Hsame..|done].
      * simpl. by apply Hp2.
      * intros Ho. simpl. apply (orderedBy_agree t2); try done.
        -- intros a _. simpl. split; apply Hsame.
        -- by apply Hord2.
  - intros [= <- <-]. split; [done|]. intros _. by apply Hfail.
Qed.

Lemma addItem_true_record (t : QuadTree) (x : nat) :
  (addItem t x).2 = true →
  QuadTreeItem.insertionBounds (heap (addItem t x).1 !!! x)
  = QuadTreeItem.bounds (heap t !!! x) ∧
  QuadTreeItem.bounds (heap (addItem t x).1 !!! x) = QuadTreeItem.bounds (heap t !!! x).
Proof.
  unfold addItem, root_addItem.
  destruct (Node.addItem _ _ _ _ _) as [r|]; [|done].
  rewrite addItemOrdered_eq. simpl. intros _.
  by rewrite lookup_total_insert_eq.
Qed.

(** The tree between the two halves of [updateItem], for an attached item
    of a well-formed tree that its owner has moved. *)
Lemma removeItem_moved (t : QuadTree) (x : nat) (r : Rect.t) :
  wf t →
  QuadTreeItem.hasFlag (heap t !!! x) QuadTreeItem.FLAG_ATTACHED = true →
  let t1 := (removeItem (moveItem t x r) x).1 in
  t1 = moveItem (removeItem t x).1 x r ∧
  wf t1 ∧
  QuadTreeItem.hasFlag (heap t1 !!! x) QuadTreeItem.FLAG_ATTACHED = false ∧
  ¬ (x ∈ orderedItems t1) ∧
  orderedItems t ≡ₚ x :: orderedItems t1 ∧
  (orderedBy t (orderedItems t) → orderedBy t1 (orderedItems t1)) ∧
  Node.getExtents (root t1) = Node.getExtents (root t) ∧
  QuadTreeItem.bounds (heap t1 !!! x) = r ∧
  updateQueue t1 = updateQueue t.
Proof.
  intros Hwf Hatt. cbv zeta. rewrite removeItem_moveItem. cbn [fst].
  destruct (removeItem_detaches t x Hwf Hatt) as (_ & Hgone & Hdet).
  destruct (removeItem_frame t x) as (Hext & _ & Hq & _).
  pose proof (wf_removeItem t x Hwf) as Hwf1.
  assert (Hp : orderedItems t ≡ₚ x :: orderedItems (removeItem t x).1).
  { unfold removeItem, root_removeItem. rewrite Hatt. simpl.
    assert (Hin : x ∈ orderedItems t) by (by apply (wf_attached t Hwf)).
    destruct (Node.removeItem (root t) x) eqn:Hr; simpl.
    - by apply remove_sgetNode_perm.
    - apply NodeFacts.removeItem_None in Hr. exfalso. apply Hr.
      by rewrite <- (wf_tree t Hwf). }
  split_and!; try done.
  - by apply wf_moveItem_detached.
  - unfold QuadTreeItem.hasFlag.
    by rewrite (proj1 (moveItem_heap (removeItem t x).1 x r x)).
  - intros Ho. by apply orderedBy_moveItem, removeItem_orderedBy.
  - destruct (moveItem_heap (removeItem t x).1 x r x) as (_ & _ & _ & ->).
    by rewrite decide_True.
Qed.



(** After the owner of an attached item has moved it, staying inside the
    world, [updateItem] returns and the tree is well-formed again: the draw
    list holds the same items, an ordered draw list is ordered again, now
    under the item's new bounds, and the item is attached and queued for its
    notification. *)
Theorem updateItem_reattaches (t : QuadTree) (x : ItemId) (r : Rect.t) :
  wf t →
  QuadTreeItem.hasFlag (heap t !!! x) QuadTreeItem.FLAG_ATTACHED = true →
  Rect.contains (getExtents t) r = true →
  let u := updateItem (moveItem t x r) x in
  u.2 = Returned ∧
  wf u.1 ∧
  orderedItems u.1 ≡ₚ orderedItems t ∧
  (orderedBy t (orderedItems t) → orderedBy u.1 (orderedItems u.1)) ∧
  QuadTreeItem.insertionBounds (heap u.1 !!! x) = r ∧
  QuadTreeItem.hasFlag (heap u.1 !!! x) QuadTreeItem.FLAG_ATTACHED = true ∧
  QuadTreeItem.hasFlag (heap u.1 !!! x) QuadTreeItem.FLAG_QUEUED = true.
Proof.
  intros Hwf Hatt Hin. simpl.
  destruct (removeItem_moved t x r Hwf Hatt)
    as (_ & Hwf1 & Hdet & Hgone & Hp & Ho & Hext & Hb & _).
  set (t0 := moveItem t x r) in *.
  assert (Hok : (addItem (removeItem t0 x).1 x).2 = true).
  { apply not_false_iff_true. rewrite addItem_false, Hext, Hb.
    unfold getExtents in Hin. congruence. }
  destruct (addItem_true_record _ x Hok) as [Hib _]. rewrite Hb in Hib.
  destruct (addItem_true _ x Hok) as (Hatt2 & _ & _).
  destruct (updateItem t0 x) as [t' c] eqn:Hup.
  destruct (updateItem_after_removal t0 t' x c Hwf1 Hdet Hup) as [Hret _].
  assert (Hc : c = Returned ∧
               QuadTreeItem.insertionBounds (heap t' !!! x) = r ∧
               QuadTreeItem.hasFlag (heap t' !!! x) QuadTreeItem.FLAG_ATTACHED = true).
  { revert Hup. unfold updateItem.
    destruct (addItem (removeItem t0 x).1 x) as [t2 ok]. simpl in Hok, Hib, Hatt2.
    subst ok. simpl.
    destruct (QuadTreeItem.hasFlag (heap t2 !!! x) QuadTreeItem.FLAG_QUEUED);
      intros [= <- <-]; [done|]. simpl.
    rewrite lookup_total_insert_eq. split_and!; try done.
    by rewrite FlagFacts.hasFlag_setFlag_other. }
  destruct Hc as (-> & Hib' & Hatt').
  destruct (Hret eq_refl) as (Hwf' & Hp' & Ho').
  destruct (updateItem_queue t0 x t' Hup) as [_ Hq].
  simpl. split_and!; try done.
  - by rewrite Hp', Hp.
  - intros Hord. by apply Ho', Ho.
  - rewrite Hq. by rewrite decide_True.
Qed.

Lemma updateItem_reattaches_witness :
  let r := Rect.make 0 (-30) 10 (-20) in
  let u := updateItem (moveItem column 1 r) 1 in
  wf column ∧
  QuadTreeItem.hasFlag (heap column !!! 1) QuadTreeItem.FLAG_ATTACHED = true ∧
  Rect.contains (getExtents column) r = true ∧
  orderedItems column = [0; 1] ∧
  orderedItems u.1 = [1; 0] ∧
  wf u.1.
Proof.
  intros r u.
  assert (H1 : QuadTreeItem.hasFlag (heap column !!! 1) QuadTreeItem.FLAG_ATTACHED = true)
    by (vm_compute; reflexivity).
  assert (H2 : Rect.contains (getExtents column) r = true) by (vm_compute; reflexivity).
  split; [exact wf_column|]. split; [exact H1|]. split; [exact H2|].
  split; [vm_compute; reflexivity|]. split; [vm_compute; reflexivity|].
  exact (proj1 (proj2 (updateItem_reattaches column 1 r wf_column H1 H2))).
Defined.

(** After the owner of an attached item has moved it out of the world,
    [updateItem] throws, and what it leaves is the tree without the item:
    well-formed, the item detached and out of the draw list, nothing
    queued. *)
Theorem updateItem_throws_detached (t : QuadTree) (x : ItemId) (r : Rect.t) :
  wf t →
  QuadTreeItem.hasFlag (heap t !!! x) QuadTreeItem.FLAG_ATTACHED = true →
  Rect.contains (getExtents t) r = false →
  let u := updateItem (moveItem t x r) x in
  u.2 = Thrown "Unable to re-attach item to quadtree." ∧
  u.1 = moveItem (removeItem t x).1 x r ∧
  wf u.1 ∧
  ¬ (x ∈ orderedItems u.1) ∧
  orderedItems t ≡ₚ x :: orderedItems u.1 ∧
  QuadTreeItem.hasFlag (heap u.1 !!! x) QuadTreeItem.FLAG_ATTACHED = false ∧
  updateQueue u.1 = updateQueue t.
Proof.
  intros Hwf Hatt Hout. simpl.
  destruct (removeItem_moved t x r Hwf Hatt)
    as (Heq & Hwf1 & Hdet & Hgone & Hp & _ & Hext & Hb & Hq).
  set (t0 := moveItem t x r) in *.
  assert (Hfail : (addItem (removeItem t0 x).1 x).2 = false).
  { rewrite addItem_false, Hext, Hb. exact Hout. }
  assert (Hsame : (addItem (removeItem t0 x).1 x).1 = (removeItem t0 x).1).
  { revert Hfail. unfold addItem. by destruct (root_addItem _ x). }
  unfold updateItem.
  destruct (addItem (removeItem t0 x).1 x) as [t2 ok]. simpl in Hfail, Hsame.
  subst ok t2. simpl. by split_and!.
Qed.

Lemma updateItem_throws_detached_witness :
  let r := Rect.make 200 200 210 210 in
  let u := updateItem (moveItem column 0 r) 0 in
  wf column ∧
  QuadTreeItem.hasFlag (heap column !!! 0) QuadTreeItem.FLAG_ATTACHED = true ∧
  Rect.contains (getExtents column) r = false ∧
  u.2 = Thrown "Unable to re-attach item to quadtree." ∧
  orderedItems u.1 = [1].
Proof.
  intros r u.
  assert (H1 : QuadTreeItem.hasFlag (heap column !!! 0) QuadTreeItem.FLAG_ATTACHED = true)
    by (vm_compute; reflexivity).
  assert (H2 : Rect.contains (getExtents column) r = false) by (vm_compute; reflexivity).
  split; [exact wf_column|]. split; [exact H1|]. split; [exact H2|].
  split; [exact (proj1 (updateItem_throws_detached column 0 r wf_column H1 H2))|].
  vm_compute. reflexivity.
Defined.

(** ** addItem and removeItem undo one another *)

Lemma sgetNode_insertOrdered (cmp : nat → nat → bool) (x : nat) (l : list nat) :
  ¬ (x ∈ l) →
  ∃ i, LList.sgetNode (insertOrdered cmp x l) x = Some i ∧
       delete i (insertOrdered cmp x l) = l.
Proof.
  induction l as [|v l IH]; simpl; intros Hx.
  - exists 0. by rewrite decide_True.
  - apply not_elem_of_cons in Hx as [Hne Hx]. destruct (cmp x v); simpl.
    + exists 0. by rewrite decide_True.
    + destruct (IH Hx) as (i & Hi & Hd). exists (S i).
      rewrite decide_False by done. rewrite Hi. simpl. by rewrite Hd.
Qed.

Lemma sgetNode_push (x : nat) (l : list nat) :
  ¬ (x ∈ l) →
  ∃ i, LList.sgetNode (LList.push l x) x = Some i ∧ delete i (LList.push l x) = l.
Proof.
  unfold LList.push. induction l as [|v l IH]; simpl; intros Hx.
  - exists 0. by rewrite decide_True.
  - apply not_elem_of_cons in Hx as [Hne Hx].
    destruct (IH Hx) as (i & Hi & Hd). exists (S i).
    rewrite decide_False by done. rewrite Hi. simpl. by rewrite Hd.
Qed.

Lemma removeItem_lists (t : QuadTree) (x : nat) :
  QuadTreeItem.hasFlag (heap t !!! x) QuadTreeItem.FLAG_ATTACHED = true →
  x ∈ Node.allItems (root t) →
  (removeItem t x).2 = true ∧
  orderedItems (removeItem t x).1
  = LList.remove (orderedItems t) (LList.sgetNode (orderedItems t) x) ∧
  items (removeItem t x).1 = LList.remove (items t) (LList.sgetNode (items t) x) ∧
  Node.allItems (root t) ≡ₚ x :: Node.allItems (root (removeItem t x).1).
Proof.
  intros Hatt Hin. unfold removeItem, root_removeItem. rewrite Hatt. cbn [negb].
  destruct (Node.removeItem (root t) x) as [r'|] eqn:Hr'.
  - eapply (NodeFacts.removeItem_Some (λ _, Rect.mk 0 0 0 0 0 0)) in Hr'
      as (_ & Hperm' & _).
    by split_and!.
  - by apply NodeFacts.removeItem_None in Hr'.
Qed.

Lemma addItem_lists (t : QuadTree) (x : nat) :
  (addItem t x).2 = true →
  (∃ cmp, orderedItems (addItem t x).1 = insertOrdered cmp x (orderedItems t)) ∧
  items (addItem t x).1 = LList.push (items t) x ∧
  Node.allItems (root (addItem t x).1) ≡ₚ Node.allItems (root t) ++ [x].
Proof.
  unfold addItem, root_addItem.
  destruct (Node.addItem _ _ _ _ _) as [r|] eqn:Hr; [|done].
  apply NodeFacts.addItem_Some in Hr as (_ & Hperm & _).
  rewrite addItemOrdered_eq. intros _. split_and!; try done. by eexists.
Qed.

(** On a well-formed tree, [addItem] of a detached item followed by
    [removeItem] of it puts the draw list and the list of inserted items
    back exactly as they were and leaves the item detached; the nodes hold
    the same items again (a subdivision made on the way stays). *)
Theorem addItem_removeItem (t : QuadTree) (x : ItemId) :
  wf t →
  QuadTreeItem.hasFlag (heap t !!! x) QuadTreeItem.FLAG_ATTACHED = false →
  (addItem t x).2 = true →
  let t2 := (removeItem (addItem t x).1 x).1 in
  (removeItem (addItem t x).1 x).2 = true ∧
  orderedItems t2 = orderedItems t ∧
  items t2 = items t ∧
  Node.allItems (root t2) ≡ₚ Node.allItems (root t) ∧
  QuadTreeItem.hasFlag (heap t2 !!! x) QuadTreeItem.FLAG_ATTACHED = false ∧
  wf t2.
Proof.
  intros Hwf Hdet Hok. cbv zeta.
  assert (Hx : ¬ (x ∈ orderedItems t)).
  { rewrite <- (wf_attached t Hwf). congruence. }
  assert (Hxi : ¬ (x ∈ items t)).
  { by rewrite (wf_items t Hwf), <- (wf_tree t Hwf). }
  pose proof (wf_removeItem _ x (wf_addItem t x Hwf Hdet)) as Hwf2.
  destruct (addItem_true t x Hok) as (Hatt & _ & Hin).
  destruct (addItem_lists t x Hok) as ([cmp Ho] & Hi & Hperm).
  destruct (removeItem_lists _ x Hatt Hin) as (Hret & Ho' & Hi' & Hperm').
  pose proof (removeItem_true _ x Hret) as Hflag.
  destruct (sgetNode_insertOrdered cmp x (orderedItems t) Hx) as (i & Hn & Hd).
  destruct (sgetNode_push x (items t) Hxi) as (j & Hnj & Hdj).
  split_and!; try done.
  - rewrite Ho', Ho, Hn. exact Hd.
  - rewrite Hi', Hi, Hnj. exact Hdj.
  - apply (Permutation_cons_inv (a := x)).
    rewrite <- Hperm', Hperm. symmetry. apply Permutation_cons_append.
Qed.

Lemma addItem_removeItem_witness :
  wf spare ∧
  QuadTreeItem.hasFlag (heap spare !!! 2) QuadTreeItem.FLAG_ATTACHED = false ∧
  (addItem spare 2).2 = true ∧
  orderedItems (removeItem (addItem spare 2).1 2).1 = orderedItems spare.
Proof.
  assert (H0 : wf spare).
  { unfold spare. apply wf_addItem; [apply wf_addItem|]; try (vm_compute; reflexivity).
    apply wf_ctor. do 3 (apply noFlag_insert; [reflexivity|]). apply noFlag_empty. }
  assert (H1 : QuadTreeItem.hasFlag (heap spare !!! 2) QuadTreeItem.FLAG_ATTACHED = false)
    by (vm_compute; reflexivity).
  assert (H2 : (addItem spare 2).2 = true) by (vm_compute; reflexivity).
  split; [exact H0|]. split; [exact H1|]. split; [exact H2|].
  exact (proj1 (proj2 (addItem_removeItem spare 2 H0 H1 H2))).
Defined.

(** ** Walking a selection *)

Lemma first_selected_unique (h : gmap nat QuadTreeItem.t)
    (s1 s2 : list nat) (v1 v2 : nat) (r1 r2 : list nat) :
  s1 ++ v1 :: r1 = s2 ++ v2 :: r2 →
  Forall (λ v, isSelected h v = false) s1 →
  Forall (λ v, isSelected h v = false) s2 →
  isSelected h v1 = true → isSelected h v2 = true →
  s1 = s2 ∧ v1 = v2 ∧ r1 = r2.
Proof.
  revert s2. induction s1 as [|a s1 IH]; intros [|b s2] Heq H1 H2 Hv1 Hv2;
    simpl in Heq.
  - by injection Heq as -> ->.
  - injection Heq as -> _. apply Forall_cons in H2 as [Hb _]. congruence.
  - injection Heq as <- _. apply Forall_cons in H1 as [Ha _]. congruence.
  - injection Heq as -> Heq.
    apply Forall_cons in H1 as [_ H1]. apply Forall_cons in H2 as [_ H2].
    destruct (IH s2 Heq H1 H2 Hv1 Hv2) as (-> & -> & ->). done.
Qed.

(** [getNextSelected] returns the first SELECTED item at or beyond the
    cursor on the walk in its direction.  It clears that item's SELECTED
    flag and nothing else, stamps it with the running [selectedIndex],
    leaves the cursor just beyond it, takes one off [selectedCount] and
    adds one to [selectedIndex]. *)
Theorem getNextSelected_first (t : QuadTree) (reverse : option bool)
    (skipped : list ItemId) (v : ItemId) (rest : list ItemId) :
  cursorOk (orderedItems t) (nextItem t) →
  remaining (orderedItems t) (direction t reverse) (nextItem t)
  = skipped ++ v :: rest →
  Forall (λ w, isSelected (heap t) w = false) skipped →
  isSelected (heap t) v = true →
  ∃ t', getNextSelected t reverse = (t', Some v) ∧
        yields t (direction t reverse) v rest t'.
Proof.
  intros Hok Hrem Hsk Hv.
  destruct (getNextSelected_spec t reverse Hok) as (sk & Hall & [[Hr _]|Hg]).
  - exfalso. rewrite Hr in Hrem. rewrite Forall_forall in Hall.
    rewrite (Hall v) in Hv; [done|]. rewrite Hrem, elem_of_app. right. by left.
  - destruct Hg as (v' & rest' & t' & Hrem' & Hv' & Hg & Hy).
    rewrite Hrem in Hrem'.
    destruct (first_selected_unique _ _ _ _ _ _ _ Hrem' Hsk Hall Hv Hv')
      as (_ & <- & <-).
    by exists t'.
Qed.

Lemma getNextSelected_first_witness :
  let t := (selectItems column (Some (Rect.make (-1) 19 11 31)) None None).1 in
  cursorOk (orderedItems t) (nextItem t) ∧
  remaining (orderedItems t) (direction t None) (nextItem t) = [0] ++ 1 :: [] ∧
  Forall (λ w, isSelected (heap t) w = false) [0] ∧
  isSelected (heap t) 1 = true ∧
  (getNextSelected t None).2 = Some 1.
Proof.
  intros t.
  assert (H1 : cursorOk (orderedItems t) (nextItem t)).
  { intros i Hi. vm_compute in Hi. injection Hi as <-. vm_compute. lia. }
  assert (H2 : remaining (orderedItems t) (direction t None) (nextItem t)
               = [0] ++ 1 :: []) by (vm_compute; reflexivity).
  assert (H3 : Forall (λ w, isSelected (heap t) w = false) [0]).
  { constructor; [vm_compute; reflexivity|constructor]. }
  assert (H4 : isSelected (heap t) 1 = true) by (vm_compute; reflexivity).
  destruct (getNextSelected_first t None [0] 1 [] H1 H2 H3 H4) as (t' & Hg & _).
  split; [exact H1|]. split; [exact H2|]. split; [exact H3|]. split; [exact H4|].
  rewrite Hg. reflexivity.
Defined.

(** A walk with nothing selected ahead ends at once, the cursor null. *)
Lemma getNextSelected_null (t : QuadTree) (reverse : option bool) :
  noneAhead t (direction t reverse) →
  getNextSelected t reverse = (set_nextItem t None, None).
Proof.
  intros Hnone.
  destruct (nextItem t) as [i|] eqn:Hcur.
  - destruct (decide (i < length (orderedItems t))) as [Hlt|Hge].
    + assert (Hok : cursorOk (orderedItems t) (nextItem t)).
      { intros j Hj. rewrite Hcur in Hj. by injection Hj as <-. }
      destruct (getNextSelected_spec t reverse Hok) as (sk & Hall & [[_ Hg]|Hg]); [done|].
      destruct Hg as (v & rest & t' & Hrem & Hsel & _).
      assert (Hin : v ∈ remaining (orderedItems t) (direction t reverse) (nextItem t)).
      { rewrite Hrem, elem_of_app. right. by left. }
      rewrite Hcur in Hin. apply remaining_lookup in Hin as (k & Hk & Hv).
      rewrite (Hnone i k v Hcur Hk Hv) in Hsel. discriminate.
    + assert (Hl : orderedItems t !! i = None) by (apply lookup_ge_None; lia).
      unfold getNextSelected. rewrite Hcur.
      assert (Hs : ∀ fuel rev, skipUnselected fuel t rev (Some i) = None).
      { intros fuel rev. destruct fuel; simpl; by rewrite Hl. }
      by rewrite Hs.
  - unfold getNextSelected. rewrite Hcur.
    assert (Hs : ∀ fuel rev, skipUnselected fuel t rev None = None)
      by (by intros [|f] rev).
    by rewrite Hs.
Qed.

(** When [selectedCount] is positive although no SELECTED item is left
    ahead of the cursor, neither [releaseSelected] nor the loop of
    [selectItemsIntoArray] ever ends: each round gets null from
    [getNextSelected] and leaves the count as it is. *)
Theorem stranded_selection_loops (t : QuadTree) :
  (0 < selectedCount t)%Z →
  noneAhead t (isReverse t) →
  (∀ fuel, releaseSelected fuel t = None) ∧
  (∀ fuel arr, collectSelected fuel t arr = None).
Proof.
  intros Hpos Hnone.
  assert (Hstep : ∀ u, (0 < selectedCount u)%Z → noneAhead u (isReverse u) →
            getNextSelected u None = (set_nextItem u None, None) ∧
            (0 < selectedCount (set_nextItem u None))%Z ∧
            noneAhead (set_nextItem u None) (isReverse (set_nextItem u None))).
  { intros u Hp Hn. split; [by apply getNextSelected_null|]. split; [done|].
    intros i k v Hi. discriminate Hi. }
  split.
  - intros fuel. revert t Hpos Hnone.
    induction fuel as [|f IH]; intros t Hpos Hnone; cbn [releaseSelected];
      rewrite (proj2 (Z.ltb_lt _ _) Hpos); [done|].
    destruct (Hstep t Hpos Hnone) as (-> & Hp & Hn). by apply IH.
  - intros fuel. revert t Hpos Hnone.
    induction fuel as [|f IH]; intros t Hpos Hnone arr; cbn [collectSelected];
      unfold getCountSelected;
      rewrite (proj2 (Z.eqb_neq (selectedCount t) 0) ltac:(lia)); [done|].
    destruct (Hstep t Hpos Hnone) as (-> & Hp & Hn). by apply IH.
Qed.

Lemma stranded_selection_loops_witness :
  (0 < selectedCount stranded)%Z ∧
  noneAhead stranded (isReverse stranded) ∧
  releaseSelected 100 stranded = None.
Proof.
  assert (H1 : (0 < selectedCount stranded)%Z) by (vm_compute; reflexivity).
  assert (H2 : noneAhead stranded (isReverse stranded)).
  { intros i k v Hi. vm_compute in Hi. discriminate Hi. }
  split; [exact H1|]. split; [exact H2|].
  exact (proj1 (stranded_selection_loops stranded H1 H2) 100).
Defined.

(** ** What a selection leaves of the items *)

Lemma sameBesidesSelection_refl (h : gmap nat QuadTreeItem.t) :
  sameBesidesSelection h h.
Proof. by intros id. Qed.

Lemma sameBesidesSelection_trans (h1 h2 h3 : gmap nat QuadTreeItem.t) :
  sameBesidesSelection h1 h2 → sameBesidesSelection h2 h3 →
  sameBesidesSelection h1 h3.
Proof.
  intros H12 H23 id.
  destruct (H12 id) as (B1 & I1 & Z1 & F1). destruct (H23 id) as (B2 & I2 & Z2 & F2).
  split_and!; try congruence. intros F HF. by rewrite F2, F1.
Qed.

(** The parts of the tree [getNextSelected] never writes. *)
Lemma getNextSelected_frame (t : QuadTree) (reverse : option bool) :
  updateQueue (getNextSelected t reverse).1 = updateQueue t ∧
  orderedItems (getNextSelected t reverse).1 = orderedItems t ∧
  items (getNextSelected t reverse).1 = items t ∧
  root (getNextSelected t reverse).1 = root t.
Proof. unfold getNextSelected. by repeat case_match. Qed.

(** The tree right after [selectItems] on a well-formed tree without stale
    marks: the cursor is at the start of the walk, the marks are on the
    matching items, and [selectedCount] is their number. *)
Lemma selectItems_clean (t : QuadTree) (rect : option Rect.t)
    (fn : option (nat → QuadTreeItem.t → bool)) :
  wf t →
  (∀ id, id ∈ orderedItems t → isSelected (heap t) id = false) →
  let t1 := (selectItems t rect fn None).1 in
  let walk := if isReverse t then reverse (orderedItems t) else orderedItems t in
  (selectItems t rect fn None).2 = selectedCount t1 ∧
  orderedItems t1 = orderedItems t ∧
  items t1 = items t ∧ root t1 = root t ∧ updateQueue t1 = updateQueue t ∧
  isReverse t1 = isReverse t ∧
  selectedIndex t1 = 0%Z ∧
  cursorOk (orderedItems t1) (nextItem t1) ∧
  remaining (orderedItems t1) (isReverse t1) (nextItem t1) = walk ∧
  NoDup walk ∧
  (∀ id, id ∈ walk ↔ id ∈ orderedItems t) ∧
  (∀ id, id ∈ walk → isSelected (heap t1) id = matches rect fn (heap t) id) ∧
  selectedCount t1
  = Z.of_nat (length (filter (λ id, matches rect fn (heap t) id = true) walk)) ∧
  (∀ id, heap t1 !!! id =
         if bool_decide (id ∈ walk) && matches rect fn (heap t) id
         then QuadTreeItem.setFlag (heap t !!! id) QuadTreeItem.FLAG_SELECTED
         else heap t !!! id).
Proof.
  intros Hwf Hclean. cbv zeta.
  destruct (selectItems_spec t rect fn None Hwf) as (Hn & Ho & Hrev & Hcur & HS).
  destruct HS as [HS HC].
  assert (Hfr : items (selectItems t rect fn None).1 = items t ∧
                root (selectItems t rect fn None).1 = root t ∧
                updateQueue (selectItems t rect fn None).1 = updateQueue t ∧
                selectedIndex (selectItems t rect fn None).1 = 0%Z).
  { unfold selectItems, root_selectItems. simpl. by split_and!. }
  destruct Hfr as (Hi & Hr & Hq & Hx).
  destruct (selectItems t rect fn None) as [t1 n] eqn:Hsi.
  simpl in Hn, Ho, Hrev, Hcur, HS, HC, Hi, Hr, Hq, Hx |- *.
  destruct (remaining_start (orderedItems t) (isReverse t)) as [Hok Hrem].
  set (walk := if isReverse t then reverse (orderedItems t) else orderedItems t) in *.
  assert (Hwalk : ∀ id, id ∈ walk ↔ id ∈ orderedItems t).
  { intros id. subst walk. destruct (isReverse t); [apply elem_of_reverse|done]. }
  assert (Hndw : NoDup walk).
  { subst walk. destruct (isReverse t); [rewrite reverse_Permutation|]; apply Hwf. }
  split_and!; try done.
  - by rewrite Ho, Hcur.
  - by rewrite Ho, Hrev, Hcur.
  - intros id Hid%Hwalk. unfold isSelected. rewrite HS.
    rewrite bool_decide_eq_true_2 by (by rewrite <- (wf_tree t Hwf)). simpl.
    destruct (matches rect fn (heap t) id).
    + by apply FlagFacts.hasFlag_setFlag.
    + by apply Hclean.
  - rewrite HC.
    rewrite (filter_length_perm (matches rect fn (heap t)) walk (Node.allItems (root t))).
    + lia.
    + rewrite <- (wf_tree t Hwf). subst walk.
      destruct (isReverse t); [apply reverse_Permutation|done].
  - intros id. rewrite HS.
    rewrite (bool_decide_ext (id ∈ Node.allItems (root t)) (id ∈ walk)); [done|].
    by rewrite Hwalk, (wf_tree t Hwf).
Qed.

Lemma getNextSelected_count (t : QuadTree) (reverse : option bool) :
  selectedCount (getNextSelected t reverse).1 = selectedCount t ∨
  selectedCount (getNextSelected t reverse).1 = (selectedCount t - 1)%Z.
Proof. unfold getNextSelected. repeat case_match; simpl; auto. Qed.

(** As long as the count is not negative, [releaseSelected] is the loop of
    [selectItemsIntoArray] with the array dropped. *)
Lemma releaseSelected_collect (fuel : nat) (t : QuadTree) (arr : list (option nat)) :
  (0 ≤ selectedCount t)%Z →
  releaseSelected fuel t = fst <$> collectSelected fuel t arr.
Proof.
  revert t arr. induction fuel as [|f IH]; intros t arr Hc;
    cbn [releaseSelected collectSelected]; unfold getCountSelected;
    destruct (0 <? selectedCount t)%Z eqn:Hpos;
    destruct (selectedCount t =? 0)%Z eqn:Hz; try done;
    try (apply Z.ltb_lt in Hpos; apply Z.eqb_eq in Hz; lia);
    try (apply Z.ltb_ge in Hpos; apply Z.eqb_neq in Hz; lia).
  apply Z.ltb_lt in Hpos.
  pose proof (getNextSelected_count t None) as Hn.
  destruct (getNextSelected t None) as [t1 v]. simpl in Hn |- *.
  apply IH. lia.
Qed.

(** The loop of [selectItemsIntoArray] on a selection whose count is the
    number of marked items ahead of the cursor: it ends within that many
    rounds, returns those items in the order of the walk, and numbers
    them while it clears their marks. *)
Lemma collectSelected_spec (fuel : nat) (t : QuadTree) (arr : list (option nat)) :
  cursorOk (orderedItems t) (nextItem t) →
  NoDup (remaining (orderedItems t) (isReverse t) (nextItem t)) →
  selectedCount t
  = Z.of_nat (length (filter (λ v, isSelected (heap t) v = true)
                        (remaining (orderedItems t) (isReverse t) (nextItem t)))) →
  length (filter (λ v, isSelected (heap t) v = true)
            (remaining (orderedItems t) (isReverse t) (nextItem t))) ≤ fuel →
  ∃ t',
    collectSelected fuel t arr
    = Some (t', arr ++ (Some <$> filter (λ v, isSelected (heap t) v = true)
                          (remaining (orderedItems t) (isReverse t) (nextItem t)))) ∧
    selectedCount t' = 0%Z ∧
    orderedItems t' = orderedItems t ∧ items t' = items t ∧
    root t' = root t ∧ updateQueue t' = updateQueue t ∧
    isReverse t' = isReverse t ∧
    (∀ id, ¬ (id ∈ filter (λ v, isSelected (heap t) v = true)
                (remaining (orderedItems t) (isReverse t) (nextItem t))) →
           heap t' !!! id = heap t !!! id) ∧
    (∀ k v, filter (λ v, isSelected (heap t) v = true)
              (remaining (orderedItems t) (isReverse t) (nextItem t)) !! k = Some v →
            heap t' !!! v
            = QuadTreeItem.setSelectedIndex
                (QuadTreeItem.clearFlag (heap t !!! v) QuadTreeItem.FLAG_SELECTED)
                (selectedIndex t + Z.of_nat k)).
Proof.
  revert t arr. induction fuel as [|f IH]; intros t arr Hok Hnd Hcnt Hlen;
    cbn [collectSelected]; unfold getCountSelected;
    destruct (selectedCount t =? 0)%Z eqn:Hpos;
    try (apply Z.eqb_neq in Hpos; lia).
  1,2: apply Z.eqb_eq in Hpos;
       destruct (filter _ (remaining _ _ _)) as [|y ys]; [|simpl in Hcnt; lia];
       exists t; rewrite app_nil_r; split_and!; done.
  apply Z.eqb_neq in Hpos.
  destruct (getNextSelected_spec t None Hok) as (sk & Hall & [[Hrem _]|Hg]).
  { simpl in Hrem. rewrite Hrem, (filter_bool_none _ _ Hall) in Hcnt.
    simpl in Hcnt. lia. }
  destruct Hg as (v & rest & t' & Hrem & Hsel & Hg & Hy).
  destruct (getNextSelected_frame t None) as (Hq & _).
  rewrite Hg in Hq |- *. simpl in Hrem, Hy, Hq |- *.
  destruct Hy as (Ho & Hi & Hr & Hrev & Hok' & Hrest & Hc & Hx & Hheap).
  rewrite Hrem in Hnd, Hcnt, Hlen |- *.
  apply NoDup_app in Hnd as (_ & _ & Hnd).
  apply NoDup_cons in Hnd as [Hv Hnd].
  assert (Hkeep : ∀ x, x ∈ rest → isSelected (heap t') x = isSelected (heap t) x).
  { intros x Hx'. unfold isSelected. rewrite Hheap.
    rewrite decide_False; [done|]. by intros ->. }
  assert (Hfil : filter (λ x, isSelected (heap t) x = true) (sk ++ v :: rest)
                 = v :: filter (λ x, isSelected (heap t) x = true) rest).
  { rewrite filter_app, (filter_bool_none _ _ Hall), filter_cons. simpl.
    by rewrite decide_True by done. }
  rewrite Hfil in Hcnt, Hlen |- *. simpl in Hcnt, Hlen.
  destruct (IH t' (arr ++ [Some v]))
    as (t'' & Hrel & Hz & Ho'' & Hi'' & Hr'' & Hq'' & Hrev'' & Hout & Hin).
  { by rewrite Ho. }
  { by rewrite Ho, Hrev, Hrest. }
  { rewrite Ho, Hrev, Hrest, (filter_bool_ext _ _ rest Hkeep), Hc. lia. }
  { rewrite Ho, Hrev, Hrest, (filter_bool_ext _ _ rest Hkeep). lia. }
  rewrite Ho, Hrev, Hrest, (filter_bool_ext _ _ rest Hkeep) in Hrel, Hout, Hin.
  set (ys := filter (λ x, isSelected (heap t) x = true) rest) in *.
  assert (Hys : ∀ x, x ∈ ys → x ∈ rest ∧ x ≠ v).
  { intros x [_ Hx']%list_elem_of_filter. split; [done|]. by intros ->. }
  exists t''. split_and!; try congruence.
  - rewrite Hrel, <- app_assoc. done.
  - intros id Hid. rewrite not_elem_of_cons in Hid. destruct Hid as [Hne Hid].
    rewrite Hout, Hheap by done. by rewrite decide_False.
  - intros [|k] w Hw; simpl in Hw.
    + injection Hw as <-. rewrite Hout, Hheap.
      * rewrite decide_True by done. do 2 f_equal. lia.
      * intros Hv'. by apply Hys in Hv' as [_ ?].
    + rewrite (Hin k w Hw), Hheap, Hx.
      rewrite decide_False by (apply Hys; by eapply list_elem_of_lookup_2).
      f_equal. lia.
Qed.

(** Removing the mark that was just put on an unmarked item gives the
    item back. *)
Lemma clearFlag_setFlag_fresh (it : QuadTreeItem.t) (F : Z) :
  QuadTreeItem.hasFlag it F = false →
  QuadTreeItem.clearFlag (QuadTreeItem.setFlag it F) F = it.
Proof.
  destruct it as [b ib z fl si]. unfold QuadTreeItem.hasFlag, QuadTreeItem.clearFlag,
    QuadTreeItem.setFlag. simpl. intros H%negb_false_iff%Z.eqb_eq. f_equal.
  apply Z.bits_inj'. intros n Hn.
  rewrite Z.land_spec, Z.lor_spec, Z.lnot_spec by done.
  apply (f_equal (λ x, Z.testbit x n)) in H.
  rewrite Z.land_spec, Z.bits_0 in H.
  destruct (Z.testbit fl n), (Z.testbit F n); done.
Qed.

(** Marking items and then numbering them while their marks are cleared
    changes selection marks and ordinals only. *)
Lemma numbered_sameBesidesSelection (h h1 h2 : gmap nat QuadTreeItem.t)
    (sel : nat → bool) (ys : list nat) (n : Z) :
  (∀ id, h1 !!! id = if sel id
                     then QuadTreeItem.setFlag (h !!! id) QuadTreeItem.FLAG_SELECTED
                     else h !!! id) →
  (∀ id, ¬ (id ∈ ys) → h2 !!! id = h1 !!! id) →
  (∀ k v, ys !! k = Some v →
          h2 !!! v = QuadTreeItem.setSelectedIndex
                       (QuadTreeItem.clearFlag (h1 !!! v) QuadTreeItem.FLAG_SELECTED)
                       (n + Z.of_nat k)) →
  sameBesidesSelection h h2.
Proof.
  intros H1 Hout Hin id.
  assert (H01 : sameBesidesSelection h h1).
  { intros i. rewrite H1. destruct (sel i); [|done].
    split_and!; try done. intros F HF. by apply FlagFacts.hasFlag_setFlag_other. }
  assert (H12 : sameBesidesSelection h1 h2).
  { intros i. destruct (decide (i ∈ ys)) as [Hi|Hi]; [|by rewrite Hout].
    apply list_elem_of_lookup in Hi as [k Hk]. rewrite (Hin k i Hk).
    split_and!; try done. intros F HF.
    rewrite FlagFacts.hasFlag_setSelectedIndex.
    by apply FlagFacts.hasFlag_clearFlag_other. }
  by apply (sameBesidesSelection_trans h h1 h2).
Qed.

(** Well-formedness does not read selection marks or ordinals. *)
Lemma wf_sameBesidesSelection (t t' : QuadTree) :
  wf t →
  orderedItems t' = orderedItems t → items t' = items t → root t' = root t →
  sameBesidesSelection (heap t) (heap t') →
  wf t'.
Proof.
  intros Hwf Ho Hi Hr Hs. split; rewrite ?Ho, ?Hi, ?Hr; try apply Hwf.
  - intros id. destruct (Hs id) as (_ & _ & _ & HF).
    rewrite (HF QuadTreeItem.FLAG_ATTACHED) by done. apply Hwf.
  - apply (nodeOk_agree (λ i, QuadTreeItem.bounds (heap t !!! i))); [|apply Hwf].
    intros id _. by destruct (Hs id) as (-> & _).
Qed.

(** ** Counting and collecting *)

(** [selectItemsIntoArray(rect, filter)] on a well-formed tree without
    marks left over: the loop ends within one round per attached item; the
    array holds the attached items that intersect the region and pass the
    filter, in the order of the walk and without a null; the item at
    position [k] of the array got the selection ordinal [k], and apart
    from these ordinals no item, list or node has changed. *)
Theorem selectItemsIntoArray_spec (fuel : nat) (t : QuadTree) (rect : option Rect.t)
    (fn : option (nat → QuadTreeItem.t → bool)) :
  wf t →
  (∀ id, id ∈ orderedItems t → isSelected (heap t) id = false) →
  length (orderedItems t) ≤ fuel →
  let walk := if isReverse t then reverse (orderedItems t) else orderedItems t in
  let ys := filter (λ id, matches rect fn (heap t) id = true) walk in
  ∃ t2,
    selectItemsIntoArray fuel t rect fn = Some (t2, Some <$> ys) ∧
    getCountSelected t2 = 0%Z ∧
    getItems t2 = getItems t ∧ items t2 = items t ∧ getRoot t2 = getRoot t ∧
    updateQueue t2 = updateQueue t ∧
    (∀ id, ¬ (id ∈ ys) → heap t2 !!! id = heap t !!! id) ∧
    (∀ k v, ys !! k = Some v →
            heap t2 !!! v = QuadTreeItem.setSelectedIndex (heap t !!! v) (Z.of_nat k)).
Proof.
  intros Hwf Hclean Hfuel walk ys.
  destruct (selectItems_clean t rect fn Hwf Hclean)
    as (_ & Ho & Hi & Hr & Hq & Hrev & Hx & Hcur & Hrem & Hnd & Hwalk & Hsel & Hcnt & Hheap).
  fold walk in Hrem, Hnd, Hwalk, Hsel, Hcnt, Hheap.
  unfold selectItemsIntoArray, getCountSelected, getItems, getRoot.
  set (t1 := (selectItems t rect fn None).1) in *.
  assert (Hys : filter (λ v, isSelected (heap t1) v = true)
                  (remaining (orderedItems t1) (isReverse t1) (nextItem t1)) = ys).
  { rewrite Hrem. by apply filter_bool_ext. }
  destruct (collectSelected_spec fuel t1 [] Hcur)
    as (t2 & Hc & Hz & Ho2 & Hi2 & Hr2 & Hq2 & _ & Hout & Hin).
  { by rewrite Hrem. }
  { by rewrite Hys, Hcnt. }
  { rewrite Hys. etrans; [apply length_filter|]. subst walk.
    destruct (isReverse t); rewrite ?length_reverse; done. }
  rewrite Hys in Hc, Hout, Hin. simpl in Hc.
  exists t2. split_and!; try congruence.
  - intros id Hid. rewrite (Hout id Hid), Hheap.
    destruct (bool_decide (id ∈ walk)) eqn:Hw; [|done].
    apply bool_decide_eq_true in Hw. simpl.
    destruct (matches rect fn (heap t) id) eqn:Hm; [|done].
    exfalso. apply Hid. by apply list_elem_of_filter.
  - intros k v Hk. rewrite (Hin k v Hk), Hx, Hheap.
    apply list_elem_of_lookup_2, list_elem_of_filter in Hk as [Hm Hw].
    rewrite bool_decide_eq_true_2, Hm by done. simpl.
    rewrite clearFlag_setFlag_fresh; [done|]. apply Hclean. by apply Hwalk.
Qed.

Lemma selectItemsIntoArray_spec_witness :
  wf column ∧
  (∀ id, id ∈ orderedItems column → isSelected (heap column) id = false) ∧
  length (orderedItems column) ≤ 2 ∧
  ∃ t2,
    selectItemsIntoArray 2 column (Some (Rect.make (-1) 19 11 31)) None
    = Some (t2, [Some 1]) ∧
    QuadTreeItem.selectedIndex (heap t2 !!! 1) = 0%Z.
Proof.
  assert (H : ∀ id, id ∈ orderedItems column → isSelected (heap column) id = false).
  { intros id Hid. change (id ∈ [0; 1]) in Hid.
    apply elem_of_cons in Hid as [->|Hid]; [vm_compute; reflexivity|].
    apply elem_of_cons in Hid as [->|Hid]; [vm_compute; reflexivity|].
    by apply elem_of_nil in Hid. }
  assert (Hl : length (orderedItems column) ≤ 2) by (vm_compute; lia).
  destruct (selectItemsIntoArray_spec 2 column (Some (Rect.make (-1) 19 11 31)) None
              wf_column H Hl) as (t2 & Hs & _ & _ & _ & _ & _ & _ & Hin).
  split; [exact wf_column|]. split; [exact H|]. split; [exact Hl|].
  exists t2. split.
  - rewrite Hs. vm_compute. reflexivity.
  - rewrite (Hin 0 1) by (vm_compute; reflexivity). reflexivity.
Defined.

(** [countItems(rect, filter)] on a well-formed tree without marks left
    over: [releaseSelected] ends within one round per attached item, the
    answer is the number of attached items that intersect the region and
    pass the filter, and the tree is left well-formed, with the same
    lists, no item marked, and nothing but selection ordinals changed: it
    can be called again at once. *)
Theorem countItems_counts (fuel : nat) (t : QuadTree) (rect : option Rect.t)
    (fn : option (nat → QuadTreeItem.t → bool)) :
  wf t →
  (∀ id, id ∈ orderedItems t → isSelected (heap t) id = false) →
  length (orderedItems t) ≤ fuel →
  ∃ t2,
    countItems fuel t rect fn
    = Some (t2, Z.of_nat (length (filter (λ id, matches rect fn (heap t) id = true)
                                    (getItems t)))) ∧
    wf t2 ∧
    getItems t2 = getItems t ∧ updateQueue t2 = updateQueue t ∧
    getCountSelected t2 = 0%Z ∧
    sameBesidesSelection (heap t) (heap t2) ∧
    (∀ id, id ∈ getItems t2 → isSelected (heap t2) id = false).
Proof.
  intros Hwf Hclean Hfuel.
  destruct (selectItems_clean t rect fn Hwf Hclean)
    as (Hn & Ho & Hi & Hr & Hq & Hrev & Hx & Hcur & Hrem & Hnd & Hwalk & Hsel & Hcnt & Hheap).
  unfold countItems, getCountSelected, getItems.
  destruct (selectItems t rect fn None) as [t1 n] eqn:Hsi.
  simpl in Hn, Ho, Hi, Hr, Hq, Hrev, Hx, Hcur, Hrem, Hnd, Hwalk, Hsel, Hcnt, Hheap.
  set (walk := if isReverse t then reverse (orderedItems t) else orderedItems t) in *.
  set (ys := filter (λ id, matches rect fn (heap t) id = true) walk) in *.
  assert (Hys : filter (λ v, isSelected (heap t1) v = true)
                  (remaining (orderedItems t1) (isReverse t1) (nextItem t1)) = ys).
  { rewrite Hrem. by apply filter_bool_ext. }
  assert (Hlen : length ys = length (filter (λ id, matches rect fn (heap t) id = true)
                                      (orderedItems t))).
  { apply (filter_length_perm (matches rect fn (heap t))). subst walk.
    destruct (isReverse t); [apply reverse_Permutation|done]. }
  destruct (collectSelected_spec fuel t1 [] Hcur)
    as (t2 & Hc & Hz & Ho2 & Hi2 & Hr2 & Hq2 & _ & Hout & Hin).
  { by rewrite Hrem. }
  { by rewrite Hys, Hcnt. }
  { rewrite Hys, Hlen. etrans; [apply length_filter|done]. }
  rewrite Hys in Hout, Hin.
  rewrite (releaseSelected_collect fuel t1 []), Hc by lia. simpl.
  assert (Hsame : sameBesidesSelection (heap t) (heap t2))
    by apply (numbered_sameBesidesSelection _ _ _ _ _ _ Hheap Hout Hin).
  exists t2. split_and!; try congruence; try done.
  - apply (wf_sameBesidesSelection t); [done|congruence..|done].
  - rewrite Ho2, Ho. intros id Hid. unfold isSelected.
    destruct (decide (id ∈ ys)) as [Hy|Hy].
    + apply list_elem_of_lookup in Hy as [k Hk]. rewrite (Hin k id Hk).
      rewrite FlagFacts.hasFlag_setSelectedIndex.
      by apply FlagFacts.hasFlag_clearFlag.
    + rewrite (Hout id Hy). apply Hwalk in Hid.
      transitivity (isSelected (heap t1) id); [done|].
      rewrite (Hsel id Hid).
      destruct (matches rect fn (heap t) id) eqn:Hm; [|done].
      exfalso. apply Hy. by apply list_elem_of_filter.
Qed.

Lemma countItems_counts_witness :
  wf column ∧
  (∀ id, id ∈ orderedItems column → isSelected (heap column) id = false) ∧
  length (orderedItems column) ≤ 2 ∧
  ∃ t2, countItems 2 column (Some (Rect.make (-1) 19 11 31)) None = Some (t2, 1%Z).
Proof.
  assert (H : ∀ id, id ∈ orderedItems column → isSelected (heap column) id = false).
  { intros id Hid. change (id ∈ [0; 1]) in Hid.
    apply elem_of_cons in Hid as [->|Hid]; [vm_compute; reflexivity|].
    apply elem_of_cons in Hid as [->|Hid]; [vm_compute; reflexivity|].
    by apply elem_of_nil in Hid. }
  assert (Hl : length (orderedItems column) ≤ 2) by (vm_compute; lia).
  destruct (countItems_counts 2 column (Some (Rect.make (-1) 19 11 31)) None
              wf_column H Hl) as (t2 & Hs & _).
  split; [exact wf_column|]. split; [exact H|]. split; [exact Hl|].
  exists t2. rewrite Hs. vm_compute. reflexivity.
Defined.

(** ** What [update] touches *)

Lemma clearFlag_idem (it : QuadTreeItem.t) (F : Z) :
  QuadTreeItem.clearFlag (QuadTreeItem.clearFlag it F) F = QuadTreeItem.clearFlag it F.
Proof.
  unfold QuadTreeItem.clearFlag. simpl. f_equal.
  by rewrite <- Z.land_assoc, Z.land_diag.
Qed.

Lemma update_loop_heap (fuel : nat) (t : QuadTree) (calls : list nat) :
  length (updateQueue t) ≤ fuel →
  ∀ id, heap (update_loop fuel t calls).1 !!! id =
        if decide (id ∈ updateQueue t)
        then QuadTreeItem.clearFlag (heap t !!! id) QuadTreeItem.FLAG_QUEUED
        else heap t !!! id.
Proof.
  revert t calls. induction fuel as [|f IH]; intros t calls Hlen id;
    cbn [update_loop]; destruct (updateQueue t) as [|i rest] eqn:Hq;
    simpl in Hlen |- *; try lia; try done.
  rewrite IH by (simpl; lia). simpl.
  destruct (decide (id = i)) as [->|Hne].
  - rewrite lookup_total_insert_eq, (decide_True (P := i ∈ i :: rest)) by (by left).
    case_decide; [apply clearFlag_idem|done].
  - rewrite lookup_total_insert_ne by done.
    repeat case_decide; try done; set_solver.
Qed.

(** [update()] touches the queue and the QUEUED flags only: the draw
    list, the list of inserted items and the nodes stay as they are; an
    item that was in the queue has its old record with QUEUED cleared,
    every other item its old record; and a second [update()] right after
    notifies nobody and changes nothing. *)
Theorem update_touches_queue_only (t : QuadTree) :
  getItems (update t).1 = getItems t ∧
  items (update t).1 = items t ∧
  getRoot (update t).1 = getRoot t ∧
  (∀ id, heap (update t).1 !!! id =
         if decide (id ∈ updateQueue t)
         then QuadTreeItem.clearFlag (heap t !!! id) QuadTreeItem.FLAG_QUEUED
         else heap t !!! id) ∧
  update (update t).1 = ((update t).1, []).
Proof.
  unfold getItems, getRoot.
  destruct (update_loop_spec (length (updateQueue t)) t [] (le_n _))
    as (_ & Hq & Ho & Hi & Hr & _).
  pose proof (update_loop_heap (length (updateQueue t)) t [] (le_n _)) as Hh.
  fold (update t) in Hq, Ho, Hi, Hr, Hh.
  split_and!; try done.
  unfold update at 1. rewrite Hq. simpl. by rewrite Hq.
Qed.

(** ** A selection walked against its direction *)

(** With the cursor null and items still counted, [releaseSelected] goes
    round without end. *)
Lemma releaseSelected_at_null (t : QuadTree) :
  (0 < selectedCount t)%Z → nextItem t = None →
  ∀ fuel, releaseSelected fuel t = None.
Proof.
  intros Hpos Hnone fuel. revert t Hpos Hnone.
  induction fuel as [|f IH]; intros t Hpos Hnone; cbn [releaseSelected];
    rewrite (proj2 (Z.ltb_lt _ _) Hpos); [done|].
  rewrite getNextSelected_null by (intros i k v Hi; congruence).
  by apply IH.
Qed.

(** [selectItems(rect, filter, b)] with [b] the opposite of the tree's
    own direction puts the cursor on the far end of the walk that
    [getNextSelected()] then takes: on a well-formed tree without marks
    left over, draining returns at most the one item at that end, every
    other matching item stays marked and counted, and as soon as there
    is one, [releaseSelected] never ends. *)
Theorem selectItems_against_direction (t : QuadTree) (rect : option Rect.t)
    (fn : option (nat → QuadTreeItem.t → bool)) (b : bool) :
  wf t →
  (∀ id, id ∈ orderedItems t → isSelected (heap t) id = false) →
  b = negb (isReverse t) →
  let edge := if b then drop (length (orderedItems t) - 1) (orderedItems t)
              else take 1 (orderedItems t) in
  let ys := filter (λ id, matches rect fn (heap t) id = true) edge in
  ∃ t2,
    drainSelected (S (length (orderedItems t))) (selectItems t rect fn (Some b)).1
    = Some (t2, ys) ∧
    length ys ≤ 1 ∧
    getCountSelected t2
    = (Z.of_nat (length (filter (λ id, matches rect fn (heap t) id = true)
                           (orderedItems t))) - Z.of_nat (length ys))%Z ∧
    (∀ id, id ∈ orderedItems t → ¬ (id ∈ edge) →
           isSelected (heap t2) id = matches rect fn (heap t) id) ∧
    ((0 < getCountSelected t2)%Z → ∀ fuel, releaseSelected fuel t2 = None).
Proof.
  intros Hwf Hclean Hb edge ys.
  destruct (selectItems_spec t rect fn (Some b) Hwf) as (_ & Ho & Hrev & Hcur & HS & HC).
  destruct (selectItems t rect fn (Some b)) as [t1 n].
  simpl in Ho, Hrev, Hcur, HS, HC |- *.
  assert (Hsel : ∀ id, id ∈ orderedItems t →
                       isSelected (heap t1) id = matches rect fn (heap t) id).
  { intros id Hid. unfold isSelected. rewrite HS.
    rewrite bool_decide_eq_true_2 by (by rewrite <- (wf_tree t Hwf)). simpl.
    destruct (matches rect fn (heap t) id).
    - by apply FlagFacts.hasFlag_setFlag.
    - by apply Hclean. }
  assert (Hrem : cursorOk (orderedItems t1) (nextItem t1) ∧
                 remaining (orderedItems t1) (isReverse t1) (nextItem t1) = edge).
  { rewrite Ho, Hrev, Hcur. subst edge b.
    destruct (orderedItems t) as [|x l] eqn:Hl; [by destruct (isReverse t)|].
    destruct (isReverse t); simpl.
    - split; [intros i [= <-]; simpl; lia|done].
    - split; [intros i [= <-]; simpl; lia|done]. }
  destruct Hrem as [Hok Hrem].
  assert (Hsub : sublist edge (orderedItems t)).
  { subst edge. destruct b; [apply sublist_drop|apply sublist_take]. }
  assert (Hin : ∀ id, id ∈ edge → id ∈ orderedItems t).
  { intros id Hid. by eapply elem_of_sublist. }
  destruct (drainSelected_spec (S (length (orderedItems t))) t1 Hok)
    as (t2 & Hd & Hnone & _ & Hc & Hf).
  { rewrite Hrem. eapply sublist_NoDup; [apply Hwf|done]. }
  { rewrite Hrem. apply sublist_length in Hsub. lia. }
  rewrite Hrem in Hd, Hc, Hf.
  rewrite (filter_bool_ext _ (matches rect fn (heap t)) edge) in Hd, Hc
    by (intros x Hx; apply Hsel; by apply Hin).
  fold ys in Hd, Hc.
  assert (Hcount : getCountSelected t2
                   = (Z.of_nat (length (filter (λ id, matches rect fn (heap t) id = true)
                                          (orderedItems t))) - Z.of_nat (length ys))%Z).
  { unfold getCountSelected. rewrite Hc, HC.
    rewrite (filter_length_perm (matches rect fn (heap t)) (Node.allItems (root t))
               (orderedItems t)) by (symmetry; apply Hwf). lia. }
  exists t2. split_and!; try done.
  - etrans; [apply length_filter|]. subst edge.
    destruct b; [rewrite length_drop; lia|rewrite length_take; lia].
  - intros id Hid Hout. rewrite Hf, bool_decide_eq_false_2 by done. by apply Hsel.
  - intros Hpos fuel. by apply releaseSelected_at_null.
Qed.

Lemma selectItems_against_direction_witness :
  wf column ∧
  (∀ id, id ∈ orderedItems column → isSelected (heap column) id = false) ∧
  true = negb (isReverse column) ∧
  ∃ t2,
    drainSelected 3 (selectItems column None None (Some true)).1 = Some (t2, [1]) ∧
    getCountSelected t2 = 1%Z ∧
    isSelected (heap t2) 0 = true.
Proof.
  assert (H : ∀ id, id ∈ orderedItems column → isSelected (heap column) id = false).
  { intros id Hid. change (id ∈ [0; 1]) in Hid.
    apply elem_of_cons in Hid as [->|Hid]; [vm_compute; reflexivity|].
    apply elem_of_cons in Hid as [->|Hid]; [vm_compute; reflexivity|].
    by apply elem_of_nil in Hid. }
  destruct (selectItems_against_direction column None None true wf_column H eq_refl)
    as (t2 & Hd & _ & Hc & Hm & _).
  split; [exact wf_column|]. split; [exact H|]. split; [reflexivity|].
  assert (Hys : filter (λ id, matches None None (heap column) id = true)
                  (drop (length (orderedItems column) - 1) (orderedItems column)) = [1])
    by (vm_compute; reflexivity).
  rewrite Hys in Hd, Hc.
  exists t2. split; [|split].
  - exact Hd.
  - rewrite Hc. vm_compute. reflexivity.
  - rewrite (Hm 0).
    + vm_compute. reflexivity.
    + change (0 ∈ [0; 1]). by left.
    + change (¬ (0 ∈ [1])). rewrite list_elem_of_singleton. lia.
Defined.
